(** * STRICT: room membership, zone authority and the WebSocket gateway

    A shallow embedding of the coordination core of the STRICT multiplayer
    server and of the client-side zone-host computation:

    - [ZoneHost]   : server/zone-host utilities ([getZoneHost] and friends);
    - [GameState]  : the client's [GameState.updateZoneHostStatus];
    - [Gateway]    : server.js, the origin check, the per-address connection
                     counter and the per-connection message-rate limiter;
    - [Rooms]      : the RoomManager registry;
    - [Lifecycle]  : server.js, the connection and close handlers and the
                     periodic reconciliation of the connection counts;
    - [Auth], [AuthTimingSafe] : the two versions of the login route;
    - [Broadcast]  : server/websocket/broadcast.

    JavaScript strings are [string], numbers that only ever hold integers are
    [Z], [null]/[undefined] are [None], [Map]s are [gmap]s and arrays are
    lists. *)

From Stdlib Require Import ZArith Lia.
From stdpp Require Import gmap strings list fin_maps sorting.

Local Open Scope Z_scope.

(** * Part I: the program *)

(** ** Array.prototype.sort

    ECMAScript (2019 and later) requires [sort] to be stable.  For a
    comparator that is a consistent total preorder the stable sorted
    permutation is unique, so the engine's algorithm does not matter; we use
    a stable insertion sort.  [compareFn a b <= 0] means that [a] may stay in
    front of [b]. *)
Section Sort.
Context {A : Type} (compareFn : A → A → Z).

Fixpoint sort_insert (x : A) (l : list A) : list A :=
  match l with
  | [] => [x]
  | y :: l' =>
      if compareFn x y <=? 0 then x :: y :: l' else y :: sort_insert x l'
  end.

Definition sort (l : list A) : list A := foldr sort_insert [] l.

(** What a comparator has to satisfy for [sort] to produce a sorted
    array (a "consistent comparator" in ECMAScript's words). *)
Class Consistent : Prop := {
  compare_total : ∀ a b, compareFn a b <= 0 ∨ compareFn b a <= 0;
  compare_trans : ∀ a b c,
    compareFn a b <= 0 → compareFn b c <= 0 → compareFn a c <= 0
}.

(** The head of an array is below everything else in it. *)
Definition head_least (l : list A) : Prop :=
  match l with
  | [] => True
  | h :: _ => ∀ q, q ∈ l → compareFn h q <= 0
  end.
End Sort.

(** One collation that [localeCompare] can be: comparison by code units. *)
Definition codeUnitCompare (a b : string) : Z :=
  match String.compare a b with
  | Lt => -1
  | Eq => 0
  | Gt => 1
  end.

(** JavaScript's [s || d] on a possibly absent string: the empty string is
    falsy. *)
Definition orElse (s : option string) (d : string) : string :=
  match s with
  | Some x => if bool_decide (x = "") then d else x
  | None => d
  end.

(** ** Rooms and players, as the server keeps them *)
Module Model.

(** A membership record of [room.players].  The connection handle [ws] is
    an opaque reference; [character] may be absent. *)
Record Player := {
  id : string;
  username : string;
  zone : string;
  character : option Z;
  ws : nat
}.

(** A room object.  [zoneSessions] maps a zone id to the handle of its
    zone session. *)
Record Room := {
  players : list Player;
  hostId : option string;
  started : bool;
  zoneSessions : gmap string nat
}.

End Model.

(** ** server/zone-host: which player is authoritative for a zone *)
Module ZoneHost.
Import Model.

Section WithCollation.
(** [String.prototype.localeCompare]: negative, zero or positive.  It is
    the host platform's collation, so it is a parameter here. *)
Variable localeCompare : string → string → Z.

(** [room.players.find(p => p.id === room.hostId)] *)
Definition findHost (room : Room) : option Player :=
  List.find (λ p, bool_decide (Some (id p) = hostId room)) (players room).

(** The comparator [(a, b) => a.id.localeCompare(b.id)]. *)
Definition byId (a b : Player) : Z := localeCompare (id a) (id b).

Definition getZoneHost (room : Room) (z : string) : option Player :=
  match players room with
  | [] => None
  | _ =>
      let host := findHost room in
      if match host with
         | Some h => bool_decide (zone h = z)
         | None => false
         end
      then host
      else
        let inZone :=
          sort byId (List.filter (λ p, bool_decide (zone p = z)) (players room))
        in head inZone
  end.

Definition isPlayerZoneHost (room : Room) (playerId : string) : bool :=
  match List.find (λ p, bool_decide (id p = playerId)) (players room) with
  | None => false
  | Some player =>
      match getZoneHost room (zone player) with
      | Some zoneHost => bool_decide (id zoneHost = playerId)
      | None => false
      end
  end.

Definition getMainHostZone (room : Room) : option string :=
  zone <$> findHost room.

End WithCollation.

End ZoneHost.

(** ** public/js: the client's GameState *)
Module GameState.

(** An entry of [currentRoomPlayers]: the roster payload the server
    broadcasts, without the connection handle. *)
Record RosterPlayer := {
  id : string;
  username : string;
  zone : string;
  character : Z
}.

(** The fields of the game object that [GameState] reads and writes. *)
Record Game := {
  isHost : bool;
  isZoneHost : bool;
  zoneId : option string
}.

Record NetworkManager := {
  playerId : option string
}.

(** [onZoneHostChange] records whether that callback is installed. *)
Record State := {
  game : option Game;
  networkManager : option NetworkManager;
  currentRoomPlayers : list RosterPlayer;
  currentHostId : option string;
  onZoneHostChange : bool
}.

(** The assignment [this.game.isZoneHost = b]. *)
Definition setIsZoneHost (b : bool) (s : State) : State :=
  {| game := (λ g, {| isHost := isHost g; isZoneHost := b;
                      zoneId := zoneId g |}) <$> game s;
     networkManager := networkManager s;
     currentRoomPlayers := currentRoomPlayers s;
     currentHostId := currentHostId s;
     onZoneHostChange := onZoneHostChange s |}.

(** [setHostId(hostId)]: records the host and, when a game and a network
    manager are present, sets [isHost]; it does not touch [isZoneHost]. *)
Definition setHostId (hostId : option string) (s : State) : State :=
  {| game :=
       match game s, networkManager s with
       | Some g, Some nm =>
           Some {| isHost := bool_decide (playerId nm = hostId);
                   isZoneHost := isZoneHost g; zoneId := zoneId g |}
       | g, _ => g
       end;
     networkManager := networkManager s;
     currentRoomPlayers := currentRoomPlayers s;
     currentHostId := hostId;
     onZoneHostChange := onZoneHostChange s |}.

Section WithCollation.
Variable localeCompare : string → string → Z.

Definition byId (a b : RosterPlayer) : Z := localeCompare (id a) (id b).

(** [this.game.zoneId || 'hub'] *)
Definition localZone (g : Game) : string := orElse (zoneId g) "hub".

(** [this.currentRoomPlayers.find(p => p.id === this.currentHostId)] *)
Definition hostPlayer (s : State) : option RosterPlayer :=
  List.find (λ p, bool_decide (Some (id p) = currentHostId s))
    (currentRoomPlayers s).

(** [hostPlayer ? hostPlayer.zone : 'hub'] *)
Definition hostZone (s : State) : string :=
  match hostPlayer s with
  | Some h => zone h
  | None => "hub"
  end.

Definition playersInMyZone (s : State) (localZone : string)
  : list RosterPlayer :=
  sort byId
    (List.filter
       (λ p, bool_decide (zone p = localZone)
             && negb (bool_decide (Some (id p) = currentHostId s)))
       (currentRoomPlayers s)).

(** [playersInMyZone.length > 0 ? playersInMyZone[0].id : null] *)
Definition zoneHostId (s : State) (localZone : string) : option string :=
  match playersInMyZone s localZone with
  | p :: _ => Some (id p)
  | [] => None
  end.

(** [updateZoneHostStatus]: the new state and, when the callback fires, its
    arguments [(isZoneHost, wasZoneHost)]. *)
Definition updateZoneHostStatus (s : State) : State * option (bool * bool) :=
  match game s, networkManager s with
  | Some g, Some nm =>
      if isHost g then (setIsZoneHost false s, None)
      else
        let localZone := localZone g in
        let hostZone := hostZone s in
        let wasZoneHost := isZoneHost g in
        let now :=
          if bool_decide (hostZone = localZone) then false
          else bool_decide (zoneHostId s localZone = playerId nm) in
        (setIsZoneHost now s,
         if onZoneHostChange s && negb (eqb now wasZoneHost)
         then Some (now, wasZoneHost) else None)
  | _, _ => (s, None)
  end.

(** [isAuthoritative] *)
Definition isAuthoritative (s : State) : bool :=
  match game s with
  | Some g => isHost g || isZoneHost g
  | None => false
  end.

(** [getZonePlayers] *)
Definition getZonePlayers (s : State) : list RosterPlayer :=
  match game s with
  | None => []
  | Some g =>
      List.filter (λ p, bool_decide (zone p = localZone g))
        (currentRoomPlayers s)
  end.

End WithCollation.

End GameState.

(** ** server.js: the WebSocket gateway *)
Module Gateway.

Definition WS_MAX_CONNECTIONS_PER_IP : Z := 5.
Definition WS_RATE_LIMIT_WINDOW_MS : Z := 10000.
Definition WS_RATE_LIMIT_MAX_MESSAGES : Z := 300.

(** *** Connections per address: [wsConnectionsByIp] *)

(** [registerWsConnection]: the answer and the updated map. *)
Definition registerWsConnection (ip : string) (wsConnectionsByIp : gmap string Z)
  : bool * gmap string Z :=
  let count := default 0 (wsConnectionsByIp !! ip) in
  if WS_MAX_CONNECTIONS_PER_IP <=? count then (false, wsConnectionsByIp)
  else (true, <[ip := count + 1]> wsConnectionsByIp).

Definition unregisterWsConnection (ip : string) (wsConnectionsByIp : gmap string Z)
  : gmap string Z :=
  let count := default 0 (wsConnectionsByIp !! ip) in
  if count <=? 1 then delete ip wsConnectionsByIp
  else <[ip := count - 1]> wsConnectionsByIp.

(** A call of one of the two functions. *)
Inductive IpCall :=
| Register (ip : string)
| Unregister (ip : string).

Definition ipCall (c : IpCall) (m : gmap string Z) : gmap string Z :=
  match c with
  | Register ip => (registerWsConnection ip m).2
  | Unregister ip => unregisterWsConnection ip m
  end.

(** The map after a sequence of calls, first call first. *)
Definition ipCalls (cs : list IpCall) (m : gmap string Z) : gmap string Z :=
  foldl (λ m c, ipCall c m) m cs.

(** *** The origin check and the upgrade handler *)

(** The parsed value of a JSON text. *)
#[warnings="-register-all"]
Inductive Json :=
| JNull
| JBool (b : bool)
| JNum (n : Z)
| JStr (s : string)
| JArr (items : list Json)
| JObj (fields : list (string * Json)).

(** What the upgrade handler reads from a request: the [Origin] and [Host]
    headers and whether the session middleware found an authenticated
    session. *)
Record Request := {
  origin : option string;
  host : option string;
  sessionAuthenticated : bool
}.

Inductive UpgradeOutcome :=
| Forbidden403
| Unauthorized401
| HandleUpgrade.

(** Effects of the message handler on the outside world. *)
Inductive Effect :=
| Close (code : Z) (reason : string)
| Dispatch (data : Json).

(** The rate-limit fields of a connection object. *)
Record WsConn := {
  clientIp : string;
  messageCount : Z;
  lastReset : Z
}.

Section WithPlatform.
(** [normalizeSafeString] of server/validation. *)
Variable normalizeSafeString : string → string.
(** [new URL(s).host]; [None] when the constructor throws. *)
Variable URL_host : string → option string.
(** [JSON.parse]; [None] when it throws.  An object comes with each of its
    keys once. *)
Variable JSON_parse : string → option Json.
(** [MESSAGE_HANDLERS[k]] is truthy, where [k] is [data.type], which may be
    absent or any JSON value. *)
Variable MESSAGE_HANDLERS : option Json → bool.
(** [process.env.APP_ORIGIN] *)
Variable APP_ORIGIN : option string.

Definition getAllowedOrigins : gset string :=
  let configuredOrigin := normalizeSafeString (orElse APP_ORIGIN "") in
  if bool_decide (configuredOrigin = "") then ∅ else {[configuredOrigin]}.

Definition isAllowedWsOrigin (origin : string) (request : Request) : bool :=
  let allowedOrigins := getAllowedOrigins in
  if bool_decide (0 < size allowedOrigins)%nat
  then bool_decide (origin ∈ allowedOrigins)
  else
    let requestHost := normalizeSafeString (orElse (host request) "") in
    if bool_decide (requestHost = "") then false
    else
      match URL_host origin with
      | Some parsedHost => bool_decide (parsedHost = requestHost)
      | None => false
      end.

(** The handler of [server.on('upgrade')]. *)
Definition onUpgrade (request : Request) : UpgradeOutcome :=
  if match origin request with
     | Some o => negb (bool_decide (o = "")) && negb (isAllowedWsOrigin o request)
     | None => false
     end
  then Forbidden403
  else if negb (sessionAuthenticated request) then Unauthorized401
  else HandleUpgrade.

(** *** The message handler *)

Definition fieldOf (k : string) (fields : list (string * Json)) : option Json :=
  snd <$> List.find (λ kv, bool_decide (kv.1 = k)) fields.

(** [parseWsPayload], called on [message.toString()], always a string. *)
Definition parseWsPayload (message : string) : option Json :=
  match JSON_parse message with
  | None => None
  | Some (JObj fields) =>
      if MESSAGE_HANDLERS (fieldOf "type" fields) then Some (JObj fields)
      else None
  | Some _ => None
  end.

(** The state of a connection when it is accepted at time [now]. *)
Definition accepted (ip : string) (now : Z) : WsConn :=
  {| clientIp := ip; messageCount := 0; lastReset := now |}.

(** The handler of [ws.on('message')], run when [Date.now()] is [now]. *)
Definition onMessage (now : Z) (message : string) (ws : WsConn)
  : WsConn * list Effect :=
  let ws1 :=
    if WS_RATE_LIMIT_WINDOW_MS <? now - lastReset ws
    then {| clientIp := clientIp ws; messageCount := 0; lastReset := now |}
    else ws in
  let ws2 :=
    {| clientIp := clientIp ws1; messageCount := messageCount ws1 + 1;
       lastReset := lastReset ws1 |} in
  if WS_RATE_LIMIT_MAX_MESSAGES <? messageCount ws2
  then (ws2, [Close 1008 "Rate limit exceeded"])
  else
    match parseWsPayload message with
    | None => (ws2, [])
    | Some data => (ws2, [Dispatch data])
    end.

(** The effects of a sequence of frames [(now, message)], one entry per
    frame, and the connection state afterwards. *)
Fixpoint onMessages (frames : list (Z * string)) (ws : WsConn)
  : WsConn * list (list Effect) :=
  match frames with
  | [] => (ws, [])
  | (now, message) :: rest =>
      let '(ws', effects) := onMessage now message ws in
      let '(ws'', later) := onMessages rest ws' in
      (ws'', effects :: later)
  end.

End WithPlatform.

End Gateway.

(** ** server/rooms: the RoomManager registry *)
Module Rooms.
Import Model.

(** Modelled from the spec: the value [{ room, newHostId }] returned by
    [removePlayer]; server/rooms is not among the sources, only its tests
    and its callers are. *)
Record Removal := {
  room : Room;
  newHostId : option string
}.

Section WithCapacity.
(** The fixed maximum party size. *)
Variable MAX_PARTY_SIZE : nat.
(** What [createRoom] does with an id that is already registered, which the
    spec leaves open: [true] resets the room, [false] leaves it alone. *)
Variable resetOnDuplicate : bool.

(** Modelled from the spec: the room [createRoom] makes, with no players,
    [hostId = null], [started = false] and no sessions. *)
Definition emptyRoom : Room :=
  {| players := []; hostId := None; started := false; zoneSessions := ∅ |}.

(** Modelled from the spec: [createRoom(id)] of server/rooms. *)
Definition createRoom (roomId : string) (rooms : gmap string Room)
  : gmap string Room :=
  match rooms !! roomId with
  | Some _ => if resetOnDuplicate then <[roomId := emptyRoom]> rooms else rooms
  | None => <[roomId := emptyRoom]> rooms
  end.

(** Modelled from the spec: [hasRoom(id)] and [getRoom(id)] of
    server/rooms; an absent room gives [false] and [undefined]. *)
Definition hasRoom (roomId : string) (rooms : gmap string Room) : bool :=
  bool_decide (is_Some (rooms !! roomId)).

Definition getRoom (roomId : string) (rooms : gmap string Room)
  : option Room :=
  rooms !! roomId.

(** Modelled from the spec: [addPlayer(roomId, playerRecord)] of
    server/rooms.  It fails when the room does not exist, is at capacity or
    already holds the id; otherwise it appends the player and, if this is
    the first player, makes it host. *)
Definition addPlayer (roomId : string) (playerRecord : Player)
    (rooms : gmap string Room) : bool * gmap string Room :=
  match rooms !! roomId with
  | None => (false, rooms)
  | Some r =>
      if bool_decide (MAX_PARTY_SIZE ≤ length (players r))%nat
      then (false, rooms)
      else if bool_decide (id playerRecord ∈ id <$> players r)
      then (false, rooms)
      else
        let r' :=
          {| players := players r ++ [playerRecord];
             hostId := match players r with
                       | [] => Some (id playerRecord)
                       | _ => hostId r
                       end;
             started := started r;
             zoneSessions := zoneSessions r |} in
        (true, <[roomId := r']> rooms)
  end.

(** Modelled from the spec: [deleteRoom(roomId)] of server/rooms.  It
    removes the room and calls [shutdown()] on every zone session still
    registered for it; the second component lists those calls, by zone and
    session handle (in no particular order). *)
Definition deleteRoom (roomId : string) (rooms : gmap string Room)
  : gmap string Room * list (string * nat) :=
  match rooms !! roomId with
  | None => (rooms, [])
  | Some r => (delete roomId rooms, map_to_list (zoneSessions r))
  end.

(** Modelled from the spec: what [removePlayer] and [removePlayerByWs] do
    once the player is found at position [i] of the roster: remove it, then
    delete the room if the roster is empty, else hand the host role to the
    first remaining player if the host left. *)
Definition removeFound (roomId : string) (r : Room) (i : nat)
    (removed : Player) (rooms : gmap string Room)
  : option Removal * gmap string Room * list (string * nat) :=
  let remaining := delete i (players r) in
  match remaining with
  | [] =>
      let '(rooms', shutdowns) := deleteRoom roomId rooms in
      (None, rooms', shutdowns)
  | first :: _ =>
      let newHost :=
        if bool_decide (hostId r = Some (id removed))
        then Some (id first) else None in
      let r' :=
        {| players := remaining;
           hostId := match newHost with
                     | Some h => Some h
                     | None => hostId r
                     end;
           started := started r;
           zoneSessions := zoneSessions r |} in
      (Some {| room := r'; newHostId := newHost |}, <[roomId := r']> rooms, [])
  end.

(** Modelled from the spec: [removePlayer(roomId, playerId)] of
    server/rooms; [null] if the room or the player is absent. *)
Definition removePlayer (roomId playerId : string) (rooms : gmap string Room)
  : option Removal * gmap string Room * list (string * nat) :=
  match rooms !! roomId with
  | None => (None, rooms, [])
  | Some r =>
      match list_find (λ p, id p = playerId) (players r) with
      | None => (None, rooms, [])
      | Some (i, removed) => removeFound roomId r i removed rooms
      end
  end.

(** Modelled from the spec: [removePlayerByWs(roomId, connectionHandle)] of
    server/rooms: as [removePlayer], the player being found by its
    connection handle. *)
Definition removePlayerByWs (roomId : string) (connectionHandle : nat)
    (rooms : gmap string Room)
  : option Removal * gmap string Room * list (string * nat) :=
  match rooms !! roomId with
  | None => (None, rooms, [])
  | Some r =>
      match list_find (λ p, ws p = connectionHandle) (players r) with
      | None => (None, rooms, [])
      | Some (i, removed) => removeFound roomId r i removed rooms
      end
  end.

(** Modelled from the spec: [getPlayerRoster(room)] of server/rooms, the
    serializable roster; [character] defaults to 1. *)
Definition getPlayerRoster (r : Room) : list GameState.RosterPlayer :=
  (λ p, {| GameState.id := id p; GameState.username := username p;
           GameState.zone := zone p;
           GameState.character := default 1 (character p) |}) <$> players r.

(** The membership operations of the registry. *)
Inductive Op :=
| CreateRoom (roomId : string)
| AddPlayer (roomId : string) (playerRecord : Player)
| RemovePlayer (roomId playerId : string)
| RemovePlayerByWs (roomId : string) (connectionHandle : nat).

Definition step (rooms : gmap string Room) (op : Op) : gmap string Room :=
  match op with
  | CreateRoom roomId => createRoom roomId rooms
  | AddPlayer roomId playerRecord => (addPlayer roomId playerRecord rooms).2
  | RemovePlayer roomId playerId => (removePlayer roomId playerId rooms).1.2
  | RemovePlayerByWs roomId connectionHandle =>
      (removePlayerByWs roomId connectionHandle rooms).1.2
  end.

(** The registry after a sequence of operations on a new [RoomManager]. *)
Definition run (ops : list Op) : gmap string Room := foldl step ∅ ops.

End WithCapacity.

End Rooms.

(** ** server.js: the life of a connection *)
Module Lifecycle.

(** What the connection handler reads from the upgrade request: whether
    the session is authenticated, the [x-forwarded-for] header and the
    socket's remote address. *)
Record ConnRequest := {
  sessionAuthenticated : bool;
  forwardedFor : option string;
  remoteAddress : option string
}.

(** The comma, code unit 44. *)
Definition comma : Ascii.ascii := Ascii.ascii_of_nat 44.

(** [s.split(',')[0]]: the text before the first comma. *)
Fixpoint firstField (s : string) : string :=
  match s with
  | EmptyString => EmptyString
  | String c rest =>
      if Ascii.eqb c comma then EmptyString
      else String c (firstField rest)
  end.

(** A socket of [wss.clients] as the reconciliation reads it. *)
Record Client := {
  readyState : Z;
  clientIp : option string
}.

(** [WebSocket.OPEN] *)
Definition OPEN : Z := 1.

Section WithPlatform.
(** [normalizeSafeString] of server/validation. *)
Variable normalizeSafeString : string → string.
(** [String.prototype.trim] *)
Variable trim : string → string.

Definition getClientIp (request : ConnRequest) : string :=
  let forwarded := normalizeSafeString (orElse (forwardedFor request) "") in
  if bool_decide (forwarded = "")
  then orElse (remoteAddress request) "unknown"
  else trim (firstField forwarded).

(** The handler of [wss.on('connection')], run when [Date.now()] is [now]:
    the connection object if the connection is accepted, the map of
    counts, and the close call if it is turned away. *)
Definition onConnection (now : Z) (request : ConnRequest)
    (wsConnectionsByIp : gmap string Z)
  : option Gateway.WsConn * gmap string Z * list Gateway.Effect :=
  if negb (sessionAuthenticated request)
  then (None, wsConnectionsByIp, [Gateway.Close 1008 "Unauthorized"])
  else
    let clientIp := getClientIp request in
    let '(registered, counts) :=
      Gateway.registerWsConnection clientIp wsConnectionsByIp in
    if registered
    then (Some (Gateway.accepted clientIp now), counts, [])
    else (None, wsConnectionsByIp,
          [Gateway.Close 1008 "Too many connections"]).

(** The handler of [ws.on('close')], as far as the counts go:
    [unregisterWsConnection(ws.clientIp || 'unknown')]. *)
Definition onClose (ws : Gateway.WsConn) (wsConnectionsByIp : gmap string Z)
  : gmap string Z :=
  Gateway.unregisterWsConnection
    (orElse (Some (Gateway.clientIp ws)) "unknown") wsConnectionsByIp.

(** The events of the server's loop that touch the counts: a connection
    arrives, or the [i]-th of the live connections closes. *)
Inductive Event :=
| Connect (now : Z) (request : ConnRequest)
| Disconnect (i : nat).

(** The counts together with the live connections, oldest first. *)
Definition handle (st : gmap string Z * list Gateway.WsConn) (ev : Event)
  : gmap string Z * list Gateway.WsConn :=
  match ev with
  | Connect now request =>
      let '(ws, counts, _) := onConnection now request st.1 in
      (counts, match ws with
               | Some ws => st.2 ++ [ws]
               | None => st.2
               end)
  | Disconnect i =>
      match st.2 !! i with
      | Some ws => (onClose ws st.1, delete i st.2)
      | None => st
      end
  end.

(** The server after a sequence of events, started with no connection. *)
Definition serve (evs : list Event) : gmap string Z * list Gateway.WsConn :=
  foldl handle (∅, []) evs.

End WithPlatform.

(** The first loop of the periodic reconciliation: the number of open
    sockets with an address, by address. *)
Definition actualCounts (clients : list Client) : gmap string Z :=
  foldl
    (λ counts client,
       match clientIp client with
       | Some ip =>
           if bool_decide (readyState client = OPEN)
              && negb (bool_decide (ip = ""))
           then <[ip := default 0 (counts !! ip) + 1]> counts
           else counts
       | None => counts
       end)
    ∅ clients.

(** The second loop: every stored address gets the actual count, or is
    dropped if no socket is open for it. *)
Definition reconcile (clients : list Client) (wsConnectionsByIp : gmap string Z)
  : gmap string Z :=
  map_imap
    (λ ip _,
       let actual := default 0 (actualCounts clients !! ip) in
       if bool_decide (actual = 0) then None else Some actual)
    wsConnectionsByIp.

End Lifecycle.

(** ** server/auth: the login route, in the version that folds case *)
Module Auth.

Definition LOGIN_RATE_LIMIT_WINDOW_MS : Z := 60 * 1000.
Definition LOGIN_RATE_LIMIT_MAX : Z := 10.

(** An entry of [loginRateLimiter]. *)
Record Entry := {
  count : Z;
  resetAt : Z
}.

(** What the login route answers: 429 with its [Retry-After] header, 200
    with [success: true], or 401. *)
Inductive Response :=
| TooManyAttempts (retryAfter : Z)
| LoggedIn
| IncorrectPassword.

(** [Math.ceil(d / 1000)] for an integer number of milliseconds. *)
Definition ceilSeconds (d : Z) : Z := - ((- d) / 1000).

Section WithComparison.
(** The comparison of the request's password with the configured one,
    [foldedMatch] below: [===] on two strings, which always returns.  The
    handler is written over it so that what the limiter does can be
    stated apart from the comparison. *)
Variable passwordsMatch : option string → bool.

(** The handler of [POST /login]: the answer, the limiter's map and the
    session's [authenticated] flag afterwards. *)
Definition login (now : Z) (reqIp : option string) (password : option string)
    (loginRateLimiter : gmap string Entry) (authenticated : bool)
  : Response * gmap string Entry * bool :=
  let ip := orElse reqIp "unknown" in
  let limited :=
    match loginRateLimiter !! ip with
    | Some entry =>
        if now <? resetAt entry
        then
          let entry' := {| count := count entry + 1;
                           resetAt := resetAt entry |} in
          (if LOGIN_RATE_LIMIT_MAX <? count entry'
           then Some (ceilSeconds (resetAt entry - now)) else None,
           <[ip := entry']> loginRateLimiter)
        else
          (None,
           <[ip := {| count := 1;
                      resetAt := now + LOGIN_RATE_LIMIT_WINDOW_MS |}]>
             loginRateLimiter)
    | None =>
        (None,
         <[ip := {| count := 1;
                    resetAt := now + LOGIN_RATE_LIMIT_WINDOW_MS |}]>
           loginRateLimiter)
    end in
  match limited with
  | (Some retryAfter, limiter) =>
      (TooManyAttempts retryAfter, limiter, authenticated)
  | (None, limiter) =>
      if passwordsMatch password
      then (LoggedIn, delete ip limiter, true)
      else (IncorrectPassword, limiter, authenticated)
  end.

(** A sequence of login requests [(now, ip, password)] of one session:
    the answers, the limiter and the session flag afterwards. *)
Fixpoint logins (requests : list (Z * option string * option string))
    (loginRateLimiter : gmap string Entry) (authenticated : bool)
  : list Response * gmap string Entry * bool :=
  match requests with
  | [] => ([], loginRateLimiter, authenticated)
  | (now, reqIp, password) :: rest =>
      let '(response, limiter, auth) :=
        login now reqIp password loginRateLimiter authenticated in
      let '(responses, limiter', auth') := logins rest limiter auth in
      (response :: responses, limiter', auth')
  end.

End WithComparison.

Section WithPlatform.
(** [normalizeSafeString] of server/validation and
    [String.prototype.toLowerCase]. *)
Variable normalizeSafeString : string → string.
Variable toLowerCase : string → string.
(** [process.env.APP_PASSWORD] *)
Variable APP_PASSWORD : option string.

(** [providedPassword && providedPassword === PASSWORD], both sides
    normalised and lower-cased. *)
Definition PASSWORD : string :=
  toLowerCase (normalizeSafeString (orElse APP_PASSWORD "")).

Definition foldedMatch (password : option string) : bool :=
  let providedPassword :=
    toLowerCase (normalizeSafeString (orElse password "")) in
  negb (bool_decide (providedPassword = ""))
  && bool_decide (providedPassword = PASSWORD).

End WithPlatform.

End Auth.

(** ** server/auth: the login route, in the version that compares through
       [crypto.timingSafeEqual]

    The limiter, its constants and its entries are those of the version
    above.  This version does not fold case, compares the two passwords as
    buffers, saves the session itself before it answers, and sweeps the
    limiter every five minutes. *)
Module AuthTimingSafe.
Import Auth.

(** [crypto.timingSafeEqual(a, b)]: whether the two buffers hold the same
    bytes.  It throws a [RangeError] when their byte lengths differ, which
    is [None] here. *)
Definition timingSafeEqual (a b : list Z) : option bool :=
  if bool_decide (length a = length b) then Some (bool_decide (a = b))
  else None.

(** How the handler ends: with one of the answers of the other version
    (for [LoggedIn], once the store has saved the session); with 500
    [Session error], when the store reports an error; or without an answer
    of its own, [timingSafeEqual] having thrown inside it (the framework's
    error handling then answers, 500 unless configured otherwise). *)
Inductive Outcome :=
| Answered (response : Response)
| SessionError
| Thrown.

Section WithPlatform.
Variable normalizeSafeString : string → string.
(** [s.length], the number of UTF-16 code units of a string, and
    [Buffer.from(s)], the bytes of its UTF-8 encoding. *)
Variable length16 : string → Z.
Variable Buffer_from : string → list Z.
(** [process.env.APP_PASSWORD] *)
Variable APP_PASSWORD : option string.

Definition PASSWORD : string := normalizeSafeString (orElse APP_PASSWORD "").

(** [passwordsMatch]: [&&] reaches [timingSafeEqual] only when the provided
    password is not empty and has the length of the configured one, in
    code units; [None] when [timingSafeEqual] throws. *)
Definition passwordsMatch (password : option string) : option bool :=
  let providedPassword := normalizeSafeString (orElse password "") in
  if 0 <? length16 providedPassword
  then
    if length16 providedPassword =? length16 PASSWORD
    then timingSafeEqual (Buffer_from providedPassword) (Buffer_from PASSWORD)
    else Some false
  else Some false.

(** The handler of [POST /login].  [saveFails] tells whether
    [req.session.save] would call back with an error.  The result holds
    how the handler ends, the limiter's map and [req.session.authenticated]
    afterwards. *)
Definition login (saveFails : bool) (now : Z) (reqIp : option string)
    (password : option string)
    (loginRateLimiter : gmap string Entry) (authenticated : bool)
  : Outcome * gmap string Entry * bool :=
  let ip := orElse reqIp "unknown" in
  let limited :=
    match loginRateLimiter !! ip with
    | Some entry =>
        if now <? resetAt entry
        then
          let entry' := {| count := count entry + 1;
                           resetAt := resetAt entry |} in
          (if LOGIN_RATE_LIMIT_MAX <? count entry'
           then Some (ceilSeconds (resetAt entry - now)) else None,
           <[ip := entry']> loginRateLimiter)
        else
          (None,
           <[ip := {| count := 1;
                      resetAt := now + LOGIN_RATE_LIMIT_WINDOW_MS |}]>
             loginRateLimiter)
    | None =>
        (None,
         <[ip := {| count := 1;
                    resetAt := now + LOGIN_RATE_LIMIT_WINDOW_MS |}]>
           loginRateLimiter)
    end in
  match limited with
  | (Some retryAfter, limiter) =>
      (Answered (TooManyAttempts retryAfter), limiter, authenticated)
  | (None, limiter) =>
      match passwordsMatch password with
      | None => (Thrown, limiter, authenticated)
      | Some true =>
          (if saveFails then SessionError else Answered LoggedIn,
           delete ip limiter, true)
      | Some false => (Answered IncorrectPassword, limiter, authenticated)
      end
  end.

(** A request to the route: when it arrives, [req.ip], the password of its
    body, [req.session.authenticated] as the request finds it, and whether
    saving its session would fail. *)
Record Attempt := {
  sentAt : Z;
  fromIp : option string;
  withPassword : option string;
  sessionBefore : bool;
  storeFails : bool
}.

(** A sequence of requests: how each ends, with its session's flag
    afterwards, and the limiter after the last. *)
Fixpoint logins (requests : list Attempt)
    (loginRateLimiter : gmap string Entry)
  : list (Outcome * bool) * gmap string Entry :=
  match requests with
  | [] => ([], loginRateLimiter)
  | r :: rest =>
      let '(outcome, limiter, auth) :=
        login (storeFails r) (sentAt r) (fromIp r) (withPassword r)
          loginRateLimiter (sessionBefore r) in
      let '(outcomes, limiter') := logins rest limiter in
      ((outcome, auth) :: outcomes, limiter')
  end.

End WithPlatform.

(** The periodic cleanup of the limiter: entries whose window is over at
    [now] are deleted. *)
Definition cleanup (now : Z) (loginRateLimiter : gmap string Entry)
  : gmap string Entry :=
  filter (λ kv, ¬ (resetAt kv.2 <= now)) loginRateLimiter.

End AuthTimingSafe.

(** ** server/websocket/broadcast *)
Module Broadcast.
Import Model.

Section WithSockets.
(** [ws.readyState] of the connection behind a handle. *)
Variable readyState : nat → Z.

(** [broadcastToZone(room, zone, message, excludeWs)]: the [send] calls it
    makes, in order, [payload] being [JSON.stringify(message)] and no
    [send] throwing. *)
Definition broadcastToZone (room : Room) (z : string) (payload : string)
    (excludeWs : option nat) : list (nat * string) :=
  (λ player, (ws player, payload)) <$>
    List.filter
      (λ player,
         negb (bool_decide (Some (ws player) = excludeWs))
         && bool_decide (readyState (ws player) = Lifecycle.OPEN)
         && bool_decide (zone player = z))
      (players room).

(** [broadcastToRoom(room, message, excludeWs)] *)
Definition broadcastToRoom (room : Room) (payload : string)
    (excludeWs : option nat) : list (nat * string) :=
  (λ player, (ws player, payload)) <$>
    List.filter
      (λ player,
         negb (bool_decide (Some (ws player) = excludeWs))
         && bool_decide (readyState (ws player) = Lifecycle.OPEN))
      (players room).

End WithSockets.

End Broadcast.

(** * Part II: properties *)

(** ** Sorting *)
Section SortFacts.
Context {A : Type} (compareFn : A → A → Z).

Lemma compare_refl `{!Consistent compareFn} a : compareFn a a <= 0.
Proof. destruct (compare_total compareFn a a); assumption. Qed.

Lemma sort_insert_elem x y l :
  y ∈ sort_insert compareFn x l ↔ y = x ∨ y ∈ l.
Proof.
  induction l as [|z l IH]; simpl.
  - rewrite list_elem_of_singleton, elem_of_nil. tauto.
  - destruct (compareFn x z <=? 0).
    + rewrite !elem_of_cons. tauto.
    + rewrite !elem_of_cons, IH. tauto.
Qed.

Lemma sort_elem y l : y ∈ sort compareFn l ↔ y ∈ l.
Proof.
  induction l as [|x l IH]; simpl; [tauto|].
  rewrite sort_insert_elem, elem_of_cons, IH. tauto.
Qed.

Lemma sort_nil_inv l : sort compareFn l = [] → l = [].
Proof.
  destruct l as [|x l]; [done|]. simpl.
  destruct (sort compareFn l) as [|y s]; simpl; [done|].
  destruct (compareFn x y <=? 0); done.
Qed.

Lemma sort_insert_head_least `{!Consistent compareFn} x l :
  head_least compareFn l → head_least compareFn (sort_insert compareFn x l).
Proof.
  destruct l as [|y l]; simpl.
  - intros _ q Hq. apply list_elem_of_singleton in Hq as ->.
    apply compare_refl.
  - intros Hy. destruct (compareFn x y <=? 0) eqn:Hxy.
    + apply Z.leb_le in Hxy. intros q Hq.
      apply elem_of_cons in Hq as [->|Hq]; [apply compare_refl|].
      apply (compare_trans compareFn) with y; [assumption|]. by apply Hy.
    + apply Z.leb_gt in Hxy. intros q Hq.
      apply elem_of_cons in Hq as [->|Hq]; [apply compare_refl|].
      apply sort_insert_elem in Hq as [->|Hq].
      * destruct (compare_total compareFn y x); [assumption|lia].
      * apply Hy. by right.
Qed.

Lemma sort_head_least `{!Consistent compareFn} l :
  head_least compareFn (sort compareFn l).
Proof.
  induction l as [|x l IH]; simpl; [done|].
  by apply sort_insert_head_least.
Qed.

(** [sort] rearranges its argument and leaves it in order. *)
Lemma sort_insert_Permutation x l : sort_insert compareFn x l ≡ₚ x :: l.
Proof.
  induction l as [|y l IH]; simpl; [done|].
  destruct (compareFn x y <=? 0); [done|].
  rewrite IH. apply Permutation_swap.
Qed.

Lemma sort_Permutation l : sort compareFn l ≡ₚ l.
Proof.
  induction l as [|x l IH]; simpl; [done|].
  by rewrite sort_insert_Permutation, IH.
Qed.

Lemma sort_insert_Sorted `{!Consistent compareFn} x l :
  Sorted (λ a b, compareFn a b <= 0) l →
  Sorted (λ a b, compareFn a b <= 0) (sort_insert compareFn x l).
Proof.
  induction 1 as [|y l Hl IH Hhd]; simpl.
  - by repeat constructor.
  - destruct (compareFn x y <=? 0) eqn:Hxy.
    + apply Z.leb_le in Hxy. by repeat constructor.
    + apply Z.leb_gt in Hxy. constructor; [done|].
      destruct Hhd as [|z l Hyz]; simpl.
      * constructor.
        destruct (compare_total compareFn y x); [assumption|lia].
      * destruct (compareFn x z <=? 0); constructor; [|done].
        destruct (compare_total compareFn y x); [assumption|lia].
Qed.

Lemma sort_Sorted `{!Consistent compareFn} l :
  Sorted (λ a b, compareFn a b <= 0) (sort compareFn l).
Proof.
  induction l as [|x l IH]; simpl; [constructor|].
  by apply sort_insert_Sorted.
Qed.

(** The first element of a sorted non-empty array exists, comes from the
    array and is least in it. *)
Lemma sort_head `{!Consistent compareFn} l :
  l ≠ [] →
  ∃ p, head (sort compareFn l) = Some p ∧ p ∈ l ∧
       ∀ q, q ∈ l → compareFn p q <= 0.
Proof.
  intros Hne. pose proof (sort_head_least l) as Hl.
  destruct (sort compareFn l) as [|p s] eqn:Hs.
  - by apply sort_nil_inv in Hs.
  - exists p. split; [done|]. split.
    + apply sort_elem. rewrite Hs. by left.
    + intros q Hq. apply Hl. by apply sort_elem in Hq; rewrite Hs in Hq.
Qed.
End SortFacts.

Lemma codeUnitCompare_le a b : codeUnitCompare a b <= 0 ↔ String.le a b.
Proof.
  unfold codeUnitCompare, String.le, String.leb.
  destruct (String.compare a b); simpl; split; try done; lia.
Qed.

#[global] Instance codeUnitCompare_consistent : Consistent codeUnitCompare.
Proof.
  split.
  - intros a b. rewrite !codeUnitCompare_le. apply total, _.
  - intros a b c. rewrite !codeUnitCompare_le. apply transitivity.
Qed.

(** ** Array.prototype.find

    [find] returns the first element that satisfies the predicate. *)
Lemma find_first {A} (f : A → bool) (before : list A) x after :
  f x = true →
  (∀ y, y ∈ before → f y = false) →
  List.find f (before ++ x :: after) = Some x.
Proof.
  intros Hx Hbefore. induction before as [|y before IH]; simpl.
  - by rewrite Hx.
  - rewrite (Hbefore y) by (by left). apply IH.
    intros y' Hy'. apply Hbefore. by right.
Qed.

Lemma find_Some_first {A} (f : A → bool) (l : list A) x :
  List.find f l = Some x →
  ∃ before after,
    l = before ++ x :: after ∧ f x = true ∧ ∀ y, y ∈ before → f y = false.
Proof.
  induction l as [|y l IH]; simpl; [done|].
  destruct (f y) eqn:Hy.
  - intros [= ->]. exists [], l. split; [done|]. split; [done|].
    intros y Hin. by apply elem_of_nil in Hin.
  - intros Hfind. destruct (IH Hfind) as (before & after & -> & Hx & Hbefore).
    exists (y :: before), after. split; [done|]. split; [done|].
    intros y' Hy'. apply elem_of_cons in Hy' as [->|Hy']; [done|].
    by apply Hbefore.
Qed.

(** ** Zone authority on the server *)
Module ZoneHostProofs.
Import Model ZoneHost.

Definition mkPlayer (i z : string) : Player :=
  {| id := i; username := i; zone := z; character := Some 1; ws := 0%nat |}.

(** The scenario of the zone-authority test: the host sits in [hub] and
    [p3], [p1], [p2] joined [archive] in that order. *)
Definition scenario : Room :=
  {| players := [mkPlayer "zz-host" "hub"; mkPlayer "p3" "archive";
                 mkPlayer "p1" "archive"; mkPlayer "p2" "archive"];
     hostId := Some "zz-host";
     started := false;
     zoneSessions := ∅ |}.

Example getZoneHost_archive :
  getZoneHost codeUnitCompare scenario "archive" = Some (mkPlayer "p1" "archive").
Proof. vm_compute. reflexivity. Qed.

Example getZoneHost_hub :
  getZoneHost codeUnitCompare scenario "hub" = Some (mkPlayer "zz-host" "hub").
Proof. vm_compute. reflexivity. Qed.

(** The host is authoritative for its zone whatever the ids there. *)
Example getZoneHost_host_before_smaller_id :
  getZoneHost codeUnitCompare
    {| players := [mkPlayer "aa" "hub"; mkPlayer "zz-host" "hub"];
       hostId := Some "zz-host"; started := false; zoneSessions := ∅ |}
    "hub"
  = Some (mkPlayer "zz-host" "hub").
Proof. vm_compute. reflexivity. Qed.

Example getZoneHost_vacant :
  getZoneHost codeUnitCompare scenario "gallery" = None.
Proof. vm_compute. reflexivity. Qed.

Section WithCollation.
Context (localeCompare : string → string → Z).

Lemma findHost_Some room h :
  findHost room = Some h → h ∈ players room ∧ hostId room = Some (id h).
Proof.
  unfold findHost. intros Hf. apply find_some in Hf as [Hin Hid].
  apply bool_decide_eq_true in Hid. split; [by apply list_elem_of_In|done].
Qed.

Lemma findHost_None room :
  findHost room = None → ∀ p, p ∈ players room → hostId room ≠ Some (id p).
Proof.
  unfold findHost. intros Hf p Hp Hid.
  apply list_elem_of_In in Hp.
  apply (find_none _ _ Hf) in Hp. apply bool_decide_eq_false in Hp. auto.
Qed.

Lemma elem_of_inZone (z : string) (l : list Player) p :
  p ∈ List.filter (λ p, bool_decide (zone p = z)) l ↔ p ∈ l ∧ zone p = z.
Proof.
  rewrite list_elem_of_In, filter_In, bool_decide_eq_true.
  by rewrite list_elem_of_In.
Qed.

#[local] Instance serverById_consistent `{!Consistent localeCompare} :
  Consistent (byId localeCompare).
Proof.
  split; unfold byId.
  - intros a b. apply (compare_total localeCompare).
  - intros a b c. apply (compare_trans localeCompare).
Qed.

(** [findHost] finds the first roster entry whose id is [room.hostId]. *)
Lemma findHost_first room before h after :
  players room = before ++ h :: after →
  hostId room = Some (id h) →
  (∀ p, p ∈ before → hostId room ≠ Some (id p)) →
  findHost room = Some h.
Proof.
  intros Hroster Hid Hbefore. unfold findHost. rewrite Hroster.
  apply find_first.
  - by apply bool_decide_eq_true.
  - intros p Hp. apply bool_decide_eq_false. intros Heq.
    by apply (Hbefore p Hp).
Qed.

Lemma findHost_Some_first room h :
  findHost room = Some h →
  ∃ before after,
    players room = before ++ h :: after ∧
    hostId room = Some (id h) ∧
    ∀ p, p ∈ before → hostId room ≠ Some (id p).
Proof.
  unfold findHost. intros Hfind.
  apply find_Some_first in Hfind as (before & after & Hroster & Hid & Hbefore).
  exists before, after. split; [done|]. split.
  - symmetry. by apply bool_decide_eq_true in Hid.
  - intros p Hp Heq. specialize (Hbefore p Hp).
    apply bool_decide_eq_false in Hbefore. by destruct Hbefore.
Qed.

(** The three ways out of [getZoneHost], by what [find] returned. *)
Lemma getZoneHost_cases `{!Consistent localeCompare} room z :
  (∀ h, findHost room = Some h → zone h = z →
        getZoneHost localeCompare room z = Some h) ∧
  ((∀ h, findHost room = Some h → zone h ≠ z) →
   (∃ q, q ∈ players room ∧ zone q = z) →
   ∃ p, getZoneHost localeCompare room z = Some p ∧
        p ∈ players room ∧ zone p = z ∧
        ∀ q, q ∈ players room → zone q = z →
             localeCompare (id p) (id q) <= 0) ∧
  ((∀ q, q ∈ players room → zone q ≠ z) →
   getZoneHost localeCompare room z = None).
Proof.
  unfold getZoneHost. split; [|split].
  - intros h Hf Hz. destruct (players room) eqn:Hp.
    + unfold findHost in Hf. rewrite Hp in Hf. discriminate.
    + rewrite Hf. by rewrite bool_decide_eq_true_2.
  - intros Hhost [q [Hq Hqz]].
    destruct (players room) as [|p0 ps] eqn:Hp; [by apply elem_of_nil in Hq|].
    assert (match findHost room with
            | Some h => bool_decide (zone h = z)
            | None => false
            end = false) as ->.
    { destruct (findHost room) as [h|] eqn:Hf; [|done].
      apply bool_decide_eq_false. by apply Hhost. }
    cbv beta iota zeta.
    destruct (sort_head (byId localeCompare)
                (List.filter (λ p, bool_decide (zone p = z)) (p0 :: ps)))
      as (p & Hhd & Hin & Hmin).
    { intros Hnil.
      assert (q ∈ List.filter (λ p, bool_decide (zone p = z)) (p0 :: ps))
        as Hq' by (by apply elem_of_inZone).
      rewrite Hnil in Hq'. by apply elem_of_nil in Hq'. }
    exists p. apply elem_of_inZone in Hin as [Hin Hpz].
    repeat split; try done.
    intros q' Hq' Hz'. apply Hmin. by apply elem_of_inZone.
  - intros Hnone. destruct (players room) as [|p0 ps] eqn:Hp; [done|].
    assert (match findHost room with
            | Some h => bool_decide (zone h = z)
            | None => false
            end = false) as ->.
    { destruct (findHost room) as [h|] eqn:Hf; [|done].
      apply bool_decide_eq_false. apply Hnone.
      apply findHost_Some in Hf as [Hin _]. by rewrite Hp in Hin. }
    cbv beta iota zeta.
    assert (List.filter (λ p, bool_decide (zone p = z)) (p0 :: ps) = [])
      as ->; [|done].
    destruct (List.filter _ _) as [|x l] eqn:Hfl; [done|].
    assert (x ∈ List.filter (λ p, bool_decide (zone p = z)) (p0 :: ps)) as Hx
      by (rewrite Hfl; by left).
    apply elem_of_inZone in Hx as [Hx Hxz]. by apply Hnone in Hx.
Qed.

(** C1. For every room and zone, [getZoneHost] answers as follows.  The
    room's current host is the roster entry that [room.hostId] designates:
    the first entry of [room.players] whose id is [room.hostId].  When that
    entry is in the queried zone, it is the answer, whatever the ids of the
    other players of the zone.  Otherwise (no entry has the host's id, or
    the one designated is in another zone) the answer is a player of the
    queried zone whose id is smallest in the collation order among all the
    players of that zone; and it is [null] when no player occupies the
    zone. *)
Theorem getZoneHost_authority `{!Consistent localeCompare} room z :
  (∀ before h after,
     players room = before ++ h :: after →
     hostId room = Some (id h) →
     (∀ p, p ∈ before → hostId room ≠ Some (id p)) →
     zone h = z →
     getZoneHost localeCompare room z = Some h) ∧
  ((∀ before h after,
      players room = before ++ h :: after →
      hostId room = Some (id h) →
      (∀ p, p ∈ before → hostId room ≠ Some (id p)) →
      zone h ≠ z) →
   (∃ q, q ∈ players room ∧ zone q = z) →
   ∃ p, getZoneHost localeCompare room z = Some p ∧
        p ∈ players room ∧ zone p = z ∧
        ∀ q, q ∈ players room → zone q = z →
             localeCompare (id p) (id q) <= 0) ∧
  ((∀ q, q ∈ players room → zone q ≠ z) →
   getZoneHost localeCompare room z = None).
Proof.
  destruct (getZoneHost_cases room z) as (Hhost & Hleast & Hnone).
  split; [|split; [|exact Hnone]].
  - intros before h after Hroster Hid Hbefore Hz.
    apply Hhost; [|done]. by apply (findHost_first room before h after).
  - intros Helsewhere Hoccupied. apply Hleast; [|done].
    intros h Hfind.
    apply findHost_Some_first in Hfind as (before & after & Hroster & Hid & Hb).
    by apply (Helsewhere before h after).
Qed.

End WithCollation.

(** The test scenario under code-unit collation: the host [zz-host] is the
    authority of [hub], where it is; [p1], the smallest id of [archive], is
    the authority there although [p3] joined first; and [gallery], where
    nobody is, has none. *)
Lemma getZoneHost_authority_witness :
  Consistent codeUnitCompare ∧
  getZoneHost codeUnitCompare scenario "hub" = Some (mkPlayer "zz-host" "hub") ∧
  (∃ p, getZoneHost codeUnitCompare scenario "archive" = Some p ∧
        p ∈ players scenario ∧ zone p = "archive" ∧
        ∀ q, q ∈ players scenario → zone q = "archive" →
             codeUnitCompare (id p) (id q) <= 0) ∧
  getZoneHost codeUnitCompare scenario "gallery" = None.
Proof.
  split; [exact codeUnitCompare_consistent|].
  destruct (getZoneHost_authority codeUnitCompare scenario "hub")
    as (Hhost & _ & _).
  destruct (getZoneHost_authority codeUnitCompare scenario "archive")
    as (_ & Hleast & _).
  destruct (getZoneHost_authority codeUnitCompare scenario "gallery")
    as (_ & _ & Hnone).
  split; [|split].
  - apply (Hhost [] (mkPlayer "zz-host" "hub")
             [mkPlayer "p3" "archive"; mkPlayer "p1" "archive";
              mkPlayer "p2" "archive"]); try reflexivity.
    intros p Hp. by apply elem_of_nil in Hp.
  - apply Hleast.
    + intros before h after Hroster Hid _.
      assert (h ∈ players scenario) as Hin.
      { rewrite Hroster. apply elem_of_app. right. by left. }
      simpl in Hin.
      repeat (apply elem_of_cons in Hin as [->|Hin]); try discriminate.
      by apply elem_of_nil in Hin.
    + exists (mkPlayer "p3" "archive"). split; [|reflexivity].
      simpl. right. by left.
  - apply Hnone. intros q Hq. simpl in Hq.
    repeat (apply elem_of_cons in Hq as [->|Hq]); try discriminate.
    by apply elem_of_nil in Hq.
Defined.

End ZoneHostProofs.

(** ** The per-address connection counter *)
Module ConnectionCapProofs.
Import Gateway.

(** Every stored count lies between 1 and the ceiling. *)
Definition counts_ok (m : gmap string Z) : Prop :=
  map_Forall (λ _ c, 1 <= c <= WS_MAX_CONNECTIONS_PER_IP) m.

Example register_six_times :
  ipCalls (replicate 6 (Register "10.0.0.1")) ∅ = {["10.0.0.1" := 5]}.
Proof. vm_compute. reflexivity. Qed.

Example unregister_last :
  ipCalls [Register "10.0.0.1"; Unregister "10.0.0.1"] ∅ = ∅.
Proof. vm_compute. reflexivity. Qed.

Lemma count_bounds (m : gmap string Z) ip :
  counts_ok m →
  0 <= default 0 (m !! ip) <= WS_MAX_CONNECTIONS_PER_IP.
Proof.
  intros Hok. destruct (m !! ip) as [c|] eqn:Hc; simpl.
  - apply Hok in Hc. lia.
  - unfold WS_MAX_CONNECTIONS_PER_IP. lia.
Qed.

Lemma registerWsConnection_ok m ip :
  counts_ok m → counts_ok (registerWsConnection ip m).2.
Proof.
  intros Hok. unfold registerWsConnection.
  pose proof (count_bounds m ip Hok) as Hb.
  destruct (WS_MAX_CONNECTIONS_PER_IP <=? default 0 (m !! ip)) eqn:Hfull;
    simpl; [done|].
  apply Z.leb_gt in Hfull. apply map_Forall_insert_2; [lia|done].
Qed.

Lemma unregisterWsConnection_ok m ip :
  counts_ok m → counts_ok (unregisterWsConnection ip m).
Proof.
  intros Hok. unfold unregisterWsConnection.
  pose proof (count_bounds m ip Hok) as Hb.
  destruct (default 0 (m !! ip) <=? 1) eqn:Hlast.
  - by apply map_Forall_delete.
  - apply Z.leb_gt in Hlast. apply map_Forall_insert_2; [lia|done].
Qed.

Lemma ipCalls_ok cs : ∀ m, counts_ok m → counts_ok (ipCalls cs m).
Proof.
  unfold ipCalls. induction cs as [|c cs IH]; intros m Hok; simpl; [done|].
  apply IH. destruct c; simpl.
  - by apply registerWsConnection_ok.
  - by apply unregisterWsConnection_ok.
Qed.

(** C10. After any sequence of [registerWsConnection] and
    [unregisterWsConnection] calls on the initially empty map, every stored
    count is between 1 and [WS_MAX_CONNECTIONS_PER_IP] = 5; registering an
    address whose count has reached the ceiling answers [false] and leaves
    the map as it is; and unregistering an address whose count is at most 1
    deletes its entry, so that whatever count remains stored for it is at
    least 1. *)
Theorem connection_counts_bounded (cs : list IpCall) :
  let m := ipCalls cs ∅ in
  (∀ ip c, m !! ip = Some c → 1 <= c <= 5) ∧
  (∀ ip c, m !! ip = Some c → 5 <= c →
           registerWsConnection ip m = (false, m)) ∧
  (∀ ip, default 0 (m !! ip) <= 1 →
         unregisterWsConnection ip m = delete ip m) ∧
  (∀ ip c, unregisterWsConnection ip m !! ip = Some c → 1 <= c).
Proof.
  intros m. assert (counts_ok m) as Hok.
  { apply ipCalls_ok. apply map_Forall_empty. }
  split; [|split; [|split]].
  - intros ip c Hc. by apply Hok in Hc.
  - intros ip c Hc Hfull. unfold registerWsConnection. rewrite Hc. simpl.
    unfold WS_MAX_CONNECTIONS_PER_IP. by rewrite (proj2 (Z.leb_le _ _) Hfull).
  - intros ip Hc. unfold unregisterWsConnection.
    by rewrite (proj2 (Z.leb_le _ _) Hc).
  - intros ip c Hc.
    apply (unregisterWsConnection_ok m ip Hok) in Hc. lia.
Qed.

End ConnectionCapProofs.

(** ** The message-rate limiter *)
Module RateLimitProofs.
Import Gateway.

(** Stand-ins for the platform on the frames used below: a [JSON.parse]
    that throws on every text that is not JSON, such as [not json], and a
    handler table without entries. *)
Definition throwsOn (_ : string) : option Json := None.
Definition noHandlers (_ : option Json) : bool := false.

(** A [JSON.parse] that knows the one frame [ping] stands for, and a
    handler table with the single kind [ping]. *)
Definition parsePing (s : string) : option Json :=
  if bool_decide (s = "ping") then Some (JObj [("type", JStr "ping")])
  else None.
Definition pingHandlers (k : option Json) : bool :=
  match k with
  | Some (JStr t) => bool_decide (t = "ping")
  | _ => false
  end.

Example first_frame_dispatched :
  onMessage parsePing pingHandlers 10 "ping" (accepted "203.0.113.7" 0)
  = ({| clientIp := "203.0.113.7"; messageCount := 1; lastReset := 0 |},
     [Dispatch (JObj [("type", JStr "ping")])]).
Proof. vm_compute. reflexivity. Qed.

Example frame_301_closes :
  onMessage parsePing pingHandlers 10 "ping"
    {| clientIp := "203.0.113.7"; messageCount := 300; lastReset := 0 |}
  = ({| clientIp := "203.0.113.7"; messageCount := 301; lastReset := 0 |},
     [Close 1008 "Rate limit exceeded"]).
Proof. vm_compute. reflexivity. Qed.

Example window_restarts :
  onMessage parsePing pingHandlers 10001 "ping"
    {| clientIp := "203.0.113.7"; messageCount := 300; lastReset := 0 |}
  = ({| clientIp := "203.0.113.7"; messageCount := 1; lastReset := 10001 |},
     [Dispatch (JObj [("type", JStr "ping")])]).
Proof. vm_compute. reflexivity. Qed.

Section WithPlatform.
Context (JSON_parse : string → option Json)
        (MESSAGE_HANDLERS : option Json → bool).

#[local] Abbreviation parseWsPayload := (parseWsPayload JSON_parse MESSAGE_HANDLERS).
#[local] Abbreviation onMessage := (onMessage JSON_parse MESSAGE_HANDLERS).
#[local] Abbreviation onMessages := (onMessages JSON_parse MESSAGE_HANDLERS).

(** What the handler does with a frame that passed the rate limiter: parse
    it and hand it to its handler, or drop it silently. *)
Definition parsedAndDispatched (message : string) : list Effect :=
  match parseWsPayload message with
  | None => []
  | Some data => [Dispatch data]
  end.

Definition bump (ws : WsConn) : WsConn :=
  {| clientIp := clientIp ws; messageCount := messageCount ws + 1;
     lastReset := lastReset ws |}.

Lemma onMessage_same_window now message ws :
  now - lastReset ws <= WS_RATE_LIMIT_WINDOW_MS →
  onMessage now message ws =
  (bump ws,
   if WS_RATE_LIMIT_MAX_MESSAGES <? messageCount ws + 1
   then [Close 1008 "Rate limit exceeded"]
   else parsedAndDispatched message).
Proof.
  intros Hin. unfold Gateway.onMessage, parsedAndDispatched, bump.
  rewrite (proj2 (Z.ltb_ge _ _) Hin). simpl.
  destruct (WS_RATE_LIMIT_MAX_MESSAGES <? messageCount ws + 1); [done|].
  by destruct (parseWsPayload message).
Qed.

(** A frame that arrives after the window has run out is handled like the
    first frame of a connection accepted at that moment. *)
Lemma onMessage_new_window now message ws :
  WS_RATE_LIMIT_WINDOW_MS < now - lastReset ws →
  onMessage now message ws = onMessage now message (accepted (clientIp ws) now).
Proof.
  intros Hout. unfold Gateway.onMessage, accepted.
  rewrite (proj2 (Z.ltb_lt _ _) Hout). simpl.
  replace (now - now) with 0 by lia. done.
Qed.

#[local] Ltac same_count :=
  match goal with
  | |- Some (if _ <? ?a then _ else _) = Some (if _ <? ?b then _ else _) =>
      replace a with b by lia; reflexivity
  end.

Lemma onMessages_same_window frames :
  ∀ ws,
  Forall (λ f, f.1 - lastReset ws <= WS_RATE_LIMIT_WINDOW_MS) frames →
  ∀ (i : nat) now message,
  frames !! i = Some (now, message) →
  (onMessages frames ws).2 !! i =
  Some (if WS_RATE_LIMIT_MAX_MESSAGES <? messageCount ws + Z.of_nat i + 1
        then [Close 1008 "Rate limit exceeded"]
        else parsedAndDispatched message).
Proof.
  induction frames as [|[t m] frames IH]; intros ws Hwin i now message Hi.
  - by rewrite lookup_nil in Hi.
  - apply Forall_cons in Hwin as [Ht Hwin]. simpl in Ht. simpl.
    rewrite (onMessage_same_window t m ws Ht).
    destruct (Gateway.onMessages JSON_parse MESSAGE_HANDLERS frames (bump ws))
      as [ws'' later] eqn:Hrest.
    destruct i as [|i]; simpl in *.
    + inversion Hi; subst. same_count.
    + specialize (IH (bump ws) Hwin i now message Hi).
      rewrite Hrest in IH. simpl in IH. rewrite IH. same_count.
Qed.


(** X20. The limiter forgets: a frame that arrives more than 10000 ms
    after the running window began begins a new window, whatever the count
    had reached, also above the ceiling; it and the frames of the next
    10000 ms are treated like those of a new connection, the first 300 of
    them parsed and dispatched. *)
Lemma rate_limit_later_window ws t0 m0 rest :
  WS_RATE_LIMIT_WINDOW_MS < t0 - lastReset ws →
  Forall (λ f, f.1 - t0 <= WS_RATE_LIMIT_WINDOW_MS) rest →
  ∀ (i : nat) now message,
  ((t0, m0) :: rest) !! i = Some (now, message) →
  (onMessages ((t0, m0) :: rest) ws).2 !! i =
  Some (if bool_decide (i < 300)%nat
        then parsedAndDispatched message
        else [Close 1008 "Rate limit exceeded"]).
Proof.
  intros Hnew Hwin i now message Hi.
  assert (onMessages ((t0, m0) :: rest) ws =
          onMessages ((t0, m0) :: rest) (accepted (clientIp ws) t0)) as ->.
  { simpl. by rewrite (onMessage_new_window t0 m0 ws Hnew). }
  rewrite (onMessages_same_window ((t0, m0) :: rest)
             (accepted (clientIp ws) t0)) with (now := now) (message := message);
    [|constructor; simpl; [unfold WS_RATE_LIMIT_WINDOW_MS; lia|done]|done].
  simpl. unfold WS_RATE_LIMIT_MAX_MESSAGES. case_bool_decide.
  - by rewrite (proj2 (Z.ltb_ge _ _)) by lia.
  - by rewrite (proj2 (Z.ltb_lt _ _)) by lia.
Qed.

(** How many of the frames arrive in the 10000 ms that begin at [lo]. *)
Fixpoint arrivals (lo : Z) (frames : list (Z * string)) : Z :=
  match frames with
  | [] => 0
  | f :: rest =>
      (if (lo <=? f.1) && (f.1 <=? lo + WS_RATE_LIMIT_WINDOW_MS)
       then 1 else 0) + arrivals lo rest
  end.

(** The frames arrive in order, none before [t]. *)
Fixpoint inOrderFrom (t : Z) (frames : list (Z * string)) : Prop :=
  match frames with
  | [] => True
  | f :: rest => t <= f.1 ∧ inOrderFrom f.1 rest
  end.

Lemma arrivals_nonneg lo frames : 0 <= arrivals lo frames.
Proof.
  induction frames as [|f rest IH]; simpl; [lia|].
  destruct ((lo <=? f.1) && (f.1 <=? lo + WS_RATE_LIMIT_WINDOW_MS)); lia.
Qed.

Lemma inOrderFrom_earlier t t' frames :
  t' <= t → inOrderFrom t frames → inOrderFrom t' frames.
Proof. destruct frames as [|f rest]; simpl; [done|]. intros ? [? ?]. split; [lia|done]. Qed.

Lemma under_ceiling_all_dispatched frames :
  ∀ ws,
  inOrderFrom (lastReset ws) frames →
  0 <= messageCount ws →
  messageCount ws + arrivals (lastReset ws) frames
    <= WS_RATE_LIMIT_MAX_MESSAGES →
  (∀ lo, arrivals lo frames <= WS_RATE_LIMIT_MAX_MESSAGES) →
  (onMessages frames ws).2 = (λ f, parsedAndDispatched f.2) <$> frames.
Proof.
  induction frames as [|[t m] rest IH]; intros ws Hord Hpos Hcur Hall;
    [done|].
  simpl in Hord, Hcur. destruct Hord as [Ht Hord].
  assert (∀ lo, arrivals lo rest <= WS_RATE_LIMIT_MAX_MESSAGES) as Hall'.
  { intros lo. specialize (Hall lo). simpl in Hall.
    destruct ((lo <=? t) && (t <=? lo + WS_RATE_LIMIT_WINDOW_MS)); lia. }
  pose proof (arrivals_nonneg (lastReset ws) rest) as Hnn.
  simpl. destruct (decide (t - lastReset ws <= WS_RATE_LIMIT_WINDOW_MS))
    as [Hin|Hout].
  - rewrite (onMessage_same_window t m ws Hin).
    assert ((lastReset ws <=? t)
            && (t <=? lastReset ws + WS_RATE_LIMIT_WINDOW_MS) = true) as Hhit.
    { apply andb_true_iff. split; apply Z.leb_le; lia. }
    rewrite Hhit in Hcur.
    rewrite (proj2 (Z.ltb_ge _ _)) by lia.
    specialize (IH (bump ws)). simpl in IH.
    destruct (Gateway.onMessages JSON_parse MESSAGE_HANDLERS rest (bump ws))
      as [ws'' later] eqn:Hrest.
    simpl. f_equal. apply IH; [|lia|lia|done].
    by apply inOrderFrom_earlier with t.
  - rewrite (onMessage_new_window t m ws) by lia.
    rewrite (onMessage_same_window t m (accepted (clientIp ws) t))
      by (simpl; unfold WS_RATE_LIMIT_WINDOW_MS; lia).
    change (WS_RATE_LIMIT_MAX_MESSAGES <?
              messageCount (accepted (clientIp ws) t) + 1) with false.
    specialize (IH (bump (accepted (clientIp ws) t))). simpl in IH.
    destruct (Gateway.onMessages JSON_parse MESSAGE_HANDLERS rest
                (bump (accepted (clientIp ws) t))) as [ws'' later] eqn:Hrest.
    simpl. f_equal. apply IH; [done|lia| |done].
    specialize (Hall t). simpl in Hall.
    assert ((t <=? t) && (t <=? t + WS_RATE_LIMIT_WINDOW_MS) = true) as Hhit.
    { apply andb_true_iff. unfold WS_RATE_LIMIT_WINDOW_MS.
      split; apply Z.leb_le; lia. }
    rewrite Hhit in Hall. lia.
Qed.

(** X21. Over the whole life of a connection: if the frames arrive in
    order and no stretch of 10000 ms holds more than 300 of them, every
    frame is parsed and dispatched and the limiter never closes the
    connection. *)
Lemma sliding_ceiling_never_closes ip t0 frames :
  inOrderFrom t0 frames →
  (∀ lo, arrivals lo frames <= WS_RATE_LIMIT_MAX_MESSAGES) →
  (onMessages frames (accepted ip t0)).2
  = (λ f, parsedAndDispatched f.2) <$> frames.
Proof.
  intros Hord Hall. apply under_ceiling_all_dispatched; simpl;
    [done|lia| |done].
  apply Hall.
Qed.

(** C7, as the code has it: the counter counts every inbound frame, before
    the frame is parsed; whether the frame is later discarded or dispatched
    plays no part. *)
Theorem counter_counts_every_frame now message ws :
  messageCount (onMessage now message ws).1 =
  (if WS_RATE_LIMIT_WINDOW_MS <? now - lastReset ws
   then 0 else messageCount ws) + 1.
Proof.
  unfold Gateway.onMessage.
  destruct (WS_RATE_LIMIT_WINDOW_MS <? now - lastReset ws); simpl;
    repeat case_match; reflexivity.
Qed.

End WithPlatform.

(** A connection that was over the ceiling, one window later. *)
Lemma rate_limit_later_window_witness :
  let ws := {| clientIp := "203.0.113.7"; messageCount := 301;
               lastReset := 0 |} in
  WS_RATE_LIMIT_WINDOW_MS < 10001 - lastReset ws ∧
  Forall (λ f : Z * string, f.1 - 10001 <= WS_RATE_LIMIT_WINDOW_MS)
    [(10002, "ping")] ∧
  [(10001, "ping"); (10002, "ping")] !! 1%nat = Some (10002, "ping") ∧
  (onMessages parsePing pingHandlers [(10001, "ping"); (10002, "ping")] ws).2
    !! 1%nat
  = Some (parsedAndDispatched parsePing pingHandlers "ping").
Proof.
  intros ws.
  assert (WS_RATE_LIMIT_WINDOW_MS < 10001 - lastReset ws) as Hnew
    by (vm_compute; reflexivity).
  assert (Forall (λ f : Z * string, f.1 - 10001 <= WS_RATE_LIMIT_WINDOW_MS)
            [(10002, "ping")]) as Hwin.
  { constructor; [vm_compute; discriminate|constructor]. }
  split; [exact Hnew|]. split; [exact Hwin|]. split; [reflexivity|].
  exact (rate_limit_later_window parsePing pingHandlers ws 10001 "ping"
           [(10002, "ping")] Hnew Hwin 1%nat 10002 "ping" eq_refl).
Defined.

(** Two frames, 10 ms apart. *)
Lemma sliding_ceiling_never_closes_witness :
  let frames := [(10, "ping"); (20, "ping")] in
  inOrderFrom 0 frames ∧
  (∀ lo, arrivals lo frames <= WS_RATE_LIMIT_MAX_MESSAGES) ∧
  (onMessages parsePing pingHandlers frames (accepted "203.0.113.7" 0)).2
  = (λ f, parsedAndDispatched parsePing pingHandlers f.2) <$> frames.
Proof.
  intros frames.
  assert (inOrderFrom 0 frames) as Hord by (simpl; lia).
  assert (∀ lo, arrivals lo frames <= WS_RATE_LIMIT_MAX_MESSAGES) as Hall.
  { intros lo. unfold frames, WS_RATE_LIMIT_MAX_MESSAGES. simpl.
    destruct (_ && _); destruct (_ && _); lia. }
  split; [exact Hord|]. split; [exact Hall|].
  exact (sliding_ceiling_never_closes parsePing pingHandlers
           "203.0.113.7" 0 frames Hord Hall).
Defined.


(** C7 as the specification words it does not hold: a frame that cannot
    be parsed is dropped, and it has been counted all the same. *)
Lemma discarded_frame_is_counted :
  let ws := accepted "203.0.113.7" 0 in
  let after := onMessage throwsOn noHandlers 10 "not json" ws in
  parseWsPayload throwsOn noHandlers "not json" = None ∧
  after.2 = [] ∧
  messageCount ws = 0 ∧
  messageCount after.1 = 1.
Proof. vm_compute. repeat split. Qed.

End RateLimitProofs.

(** ** The origin check of the upgrade handler *)
Module OriginProofs.
Import Gateway.

(** Stand-ins for the platform on the headers used below.  On a string
    without surrounding or repeated blanks [normalizeSafeString] returns
    its argument; [new URL(s).host] of an origin [scheme://host:port] with
    a port that is not the scheme's default is [host:port]. *)
Definition normalizeClean (s : string) : string := s.
Definition hostOfLocalOrigin (s : string) : option string :=
  if bool_decide (s = "http://localhost:3000") then Some "localhost:3000"
  else None.

Definition sameHostRequest : Request :=
  {| origin := Some "http://localhost:3000";
     host := Some "localhost:3000";
     sessionAuthenticated := true |}.

Example same_host_allowed_without_configuration :
  onUpgrade normalizeClean hostOfLocalOrigin None sameHostRequest
  = HandleUpgrade.
Proof. vm_compute. reflexivity. Qed.

Example no_origin_header_passes :
  onUpgrade normalizeClean hostOfLocalOrigin (Some "https://strict.example")
    {| origin := None; host := Some "localhost:3000";
       sessionAuthenticated := true |}
  = HandleUpgrade.
Proof. vm_compute. reflexivity. Qed.

Section WithPlatform.
Context (normalizeSafeString : string → string)
        (URL_host : string → option string)
        (APP_ORIGIN : option string).

#[local] Abbreviation isAllowedWsOrigin :=
  (isAllowedWsOrigin normalizeSafeString URL_host APP_ORIGIN).
#[local] Abbreviation onUpgrade :=
  (onUpgrade normalizeSafeString URL_host APP_ORIGIN).

(** The configured origin and the request's host, as the check sees them. *)
Definition configuredOrigin : string :=
  normalizeSafeString (orElse APP_ORIGIN "").
Definition requestHost (request : Request) : string :=
  normalizeSafeString (orElse (host request) "").

(** When an origin is configured only that origin is allowed; the request's
    host is consulted only when none is configured. *)
Definition originAccepted (o : string) (request : Request) : Prop :=
  (configuredOrigin ≠ "" ∧ o = configuredOrigin) ∨
  (configuredOrigin = "" ∧ requestHost request ≠ "" ∧
   URL_host o = Some (requestHost request)).

Lemma isAllowedWsOrigin_spec o request :
  isAllowedWsOrigin o request = true ↔ originAccepted o request.
Proof.
  unfold Gateway.isAllowedWsOrigin, getAllowedOrigins, originAccepted.
  fold configuredOrigin. fold (requestHost request).
  destruct (decide (configuredOrigin = "")) as [He|Hne].
  - rewrite (bool_decide_eq_true_2 _ He), size_empty.
    rewrite (bool_decide_eq_false_2 (0 < 0)%nat) by lia.
    destruct (decide (requestHost request = "")) as [Hh|Hh].
    + rewrite (bool_decide_eq_true_2 _ Hh). split; [done|].
      intros [[? ?]|(_ & ? & _)]; done.
    + rewrite (bool_decide_eq_false_2 _ Hh).
      destruct (URL_host o) as [h|].
      * rewrite bool_decide_eq_true. split.
        -- intros ->. right. done.
        -- intros [[? ?]|(_ & _ & Hu)]; [done|]. by inversion Hu.
      * split; [done|]. intros [[? ?]|(_ & _ & ?)]; done.
  - rewrite (bool_decide_eq_false_2 _ Hne), size_singleton.
    rewrite (bool_decide_eq_true_2 (0 < 1)%nat) by lia.
    rewrite bool_decide_eq_true, elem_of_singleton. split.
    + intros ->. by left.
    + intros [[_ ?]|(? & _)]; done.
Qed.

(** C8, as the code has it: an upgrade request is rejected with 403
    exactly when it carries a non-empty [Origin] that is not accepted,
    where an [Origin] is accepted if an origin is configured and the header
    equals it, or if none is configured and the host of the [Origin] URL
    equals the request's non-empty [Host]; a request without an [Origin]
    header, or with an empty one, is never rejected by this check. *)
Theorem origin_check request :
  (onUpgrade request = Forbidden403 ↔
   ∃ o, origin request = Some o ∧ o ≠ "" ∧ ¬ originAccepted o request) ∧
  (origin request = None ∨ origin request = Some "" →
   onUpgrade request ≠ Forbidden403).
Proof.
  assert (onUpgrade request = Forbidden403 ↔
          ∃ o, origin request = Some o ∧ o ≠ "" ∧ ¬ originAccepted o request)
    as Hiff.
  { unfold Gateway.onUpgrade. destruct (origin request) as [o|].
    - destruct (decide (o = "")) as [->|Hne].
      + rewrite bool_decide_eq_true_2 by done. simpl. split.
        * by destruct (sessionAuthenticated request).
        * intros (o & Ho & Hne & _). by inversion Ho.
      + rewrite bool_decide_eq_false_2 by done. simpl.
        destruct (isAllowedWsOrigin o request) eqn:Hal; simpl.
        * apply isAllowedWsOrigin_spec in Hal. split.
          -- by destruct (sessionAuthenticated request).
          -- intros (o' & Ho & _ & Hno). by inversion Ho; subst.
        * split; [|done]. intros _. exists o. repeat split; try done.
          intros Hacc. apply isAllowedWsOrigin_spec in Hacc. congruence.
    - split.
      + by destruct (sessionAuthenticated request).
      + intros (o & Ho & _). done. }
  split; [exact Hiff|].
  intros Hnone Hforb. apply Hiff in Hforb as (o & Ho & Hne & _).
  destruct Hnone as [Hn|Hn]; rewrite Hn in Ho; [done|]. by inversion Ho.
Qed.

End WithPlatform.

(** A request without [Origin] while an origin is configured. *)
Lemma origin_check_witness :
  origin {| origin := None; host := Some "localhost:3000";
            sessionAuthenticated := false |} = None ∧
  onUpgrade normalizeClean hostOfLocalOrigin (Some "https://strict.example")
    {| origin := None; host := Some "localhost:3000";
       sessionAuthenticated := false |} ≠ Forbidden403.
Proof.
  split; [reflexivity|].
  apply (origin_check normalizeClean hostOfLocalOrigin
           (Some "https://strict.example")).
  left. reflexivity.
Defined.

(** C8 as the specification words it does not hold: with an origin
    configured, a request whose [Origin] is its own host is rejected. *)
Lemma own_host_rejected_when_origin_configured :
  origin sameHostRequest = Some "http://localhost:3000" ∧
  hostOfLocalOrigin "http://localhost:3000"
  = Some (normalizeClean (orElse (host sameHostRequest) "")) ∧
  onUpgrade normalizeClean hostOfLocalOrigin (Some "https://strict.example")
    sameHostRequest = Forbidden403.
Proof. vm_compute. repeat split. Qed.

End OriginProofs.

(** ** Zone-host status on the client *)
Module GameStateProofs.
Import GameState.

Definition entry (i z : string) : RosterPlayer :=
  {| id := i; username := i; zone := z; character := 1 |}.

(** The local player [p1] is in [archive] with [p3] and [p2]; the main
    host is in [hub]. *)
Definition guestInArchive : State :=
  {| game := Some {| isHost := false; isZoneHost := false;
                     zoneId := Some "archive" |};
     networkManager := Some {| playerId := Some "p1" |};
     currentRoomPlayers := [entry "zz-host" "hub"; entry "p3" "archive";
                            entry "p1" "archive"; entry "p2" "archive"];
     currentHostId := Some "zz-host";
     onZoneHostChange := true |}.

Example guest_becomes_zone_host :
  updateZoneHostStatus codeUnitCompare guestInArchive
  = (setIsZoneHost true guestInArchive, Some (true, false)).
Proof. vm_compute. reflexivity. Qed.

(** The main host itself, even when a stale flag says otherwise. *)
Definition hostWithStaleFlag : State :=
  {| game := Some {| isHost := true; isZoneHost := true;
                     zoneId := Some "archive" |};
     networkManager := Some {| playerId := Some "p1" |};
     currentRoomPlayers := [entry "p1" "archive"; entry "p2" "archive"];
     currentHostId := Some "p1";
     onZoneHostChange := true |}.

Example host_flag_cleared :
  updateZoneHostStatus codeUnitCompare hostWithStaleFlag
  = (setIsZoneHost false hostWithStaleFlag, None).
Proof. vm_compute. reflexivity. Qed.

(** The same game when the network manager is gone. *)
Definition hostWithoutNetwork : State :=
  {| game := Some {| isHost := true; isZoneHost := true;
                     zoneId := Some "archive" |};
     networkManager := None;
     currentRoomPlayers := [entry "p1" "archive"; entry "p2" "archive"];
     currentHostId := Some "p1";
     onZoneHostChange := true |}.

(** The local player [p1] has no [zoneId] yet, so it is in [hub], with
    [p2]; the main host is in [archive]. *)
Definition guestInHub : State :=
  {| game := Some {| isHost := false; isZoneHost := false; zoneId := None |};
     networkManager := Some {| playerId := Some "p1" |};
     currentRoomPlayers := [entry "zz-host" "archive"; entry "p2" "hub";
                            entry "p1" "hub"];
     currentHostId := Some "zz-host";
     onZoneHostChange := true |}.

Example guest_in_hub_becomes_zone_host :
  updateZoneHostStatus codeUnitCompare guestInHub
  = (setIsZoneHost true guestInHub, Some (true, false)).
Proof. vm_compute. reflexivity. Qed.

Section WithCollation.
Context (localeCompare : string → string → Z).

#[local] Instance clientById_consistent `{!Consistent localeCompare} :
  Consistent (byId localeCompare).
Proof.
  split; unfold byId.
  - intros a b. apply (compare_total localeCompare).
  - intros a b c. apply (compare_trans localeCompare).
Qed.

(** A candidate for zone host of [lz]: in the zone and not the main host. *)
Definition candidate (s : State) (lz : string) (p : RosterPlayer) : Prop :=
  p ∈ currentRoomPlayers s ∧ zone p = lz ∧ Some (id p) ≠ currentHostId s.

Lemma elem_of_candidates s lz p :
  p ∈ List.filter
        (λ p, bool_decide (zone p = lz)
              && negb (bool_decide (Some (id p) = currentHostId s)))
        (currentRoomPlayers s)
  ↔ candidate s lz p.
Proof.
  unfold candidate.
  rewrite list_elem_of_In, filter_In, andb_true_iff, negb_true_iff.
  rewrite bool_decide_eq_true, bool_decide_eq_false, list_elem_of_In.
  tauto.
Qed.

(** The id chosen as zone host is the id of a candidate that is smallest
    among the candidates; there is none exactly when there is no
    candidate. *)
Lemma zoneHostId_spec `{!Consistent localeCompare} s lz :
  match zoneHostId localeCompare s lz with
  | Some i =>
      ∃ p, id p = i ∧ candidate s lz p ∧
           ∀ q, candidate s lz q → localeCompare i (id q) <= 0
  | None => ∀ q, ¬ candidate s lz q
  end.
Proof.
  unfold zoneHostId, playersInMyZone.
  set (cands := List.filter _ (currentRoomPlayers s)).
  destruct (decide (cands = [])) as [Hnil|Hne].
  - rewrite Hnil. simpl. intros q Hq.
    apply elem_of_candidates in Hq. fold cands in Hq.
    rewrite Hnil in Hq. by apply elem_of_nil in Hq.
  - destruct (sort_head (byId localeCompare) cands Hne)
      as (p & Hhd & Hin & Hmin).
    destruct (sort (byId localeCompare) cands) as [|p' rest];
      simpl in Hhd; [done|]. inversion Hhd; subst p'.
    exists p. split; [done|]. split.
    + by apply elem_of_candidates.
    + intros q Hq. apply (Hmin q). by apply elem_of_candidates.
Qed.

(** [hostZone] is the zone of the first roster entry whose id is
    [currentHostId], and [hub] when no entry has that id. *)
Lemma hostZone_spec s hz :
  (∃ before h after,
     currentRoomPlayers s = before ++ h :: after ∧
     currentHostId s = Some (id h) ∧
     (∀ p, p ∈ before → currentHostId s ≠ Some (id p)) ∧
     zone h = hz) ∨
  ((∀ p, p ∈ currentRoomPlayers s → currentHostId s ≠ Some (id p)) ∧
   hz = "hub") →
  hostZone s = hz.
Proof.
  unfold hostZone, hostPlayer.
  intros [(before & h & after & Hroster & Hid & Hbefore & Hzone)|[Hnone ->]].
  - rewrite Hroster, (find_first _ before h after); [done|..].
    + by apply bool_decide_eq_true.
    + intros p Hp. apply bool_decide_eq_false. intros Heq.
      by apply (Hbefore p Hp).
  - destruct (List.find _ _) as [h|] eqn:Hfind; [|done].
    apply find_some in Hfind as [Hin Hid].
    apply bool_decide_eq_true in Hid. apply list_elem_of_In in Hin.
    by destruct (Hnone h Hin).
Qed.

(** [localZone] is [game.zoneId], and [hub] when that is absent or empty. *)
Lemma localZone_spec g lz :
  (zoneId g = Some lz ∧ lz ≠ "") ∨
  ((zoneId g = None ∨ zoneId g = Some "") ∧ lz = "hub") →
  localZone g = lz.
Proof.
  unfold localZone, orElse. intros [[-> Hne]|[[->| ->] ->]]; try done.
  by rewrite bool_decide_eq_false_2.
Qed.

(** C9, as amended.  [updateZoneHostStatus] begins with a guard: without a
    game or without a network manager it returns at once and changes
    nothing, so that flags set earlier stay as they are.  When both are
    present it leaves [isHost] alone and a player flagged as main host is
    not flagged as zone host afterwards.  For a player that is not the
    main host: let the main host's zone be the zone of the first roster
    entry whose id is [currentHostId] ([hub] when no entry has that id),
    and the local zone be [game.zoneId] ([hub] when that is absent or
    empty); when the two differ, the zone host is the smallest id, in the
    collation order, among the roster entries of the local zone other than
    the main host ([null] when there is none), and the local player is
    flagged exactly when that choice [===] its own [playerId]. *)
Theorem updateZoneHostStatus_roles `{!Consistent localeCompare} s :
  (game s = None ∨ networkManager s = None →
   updateZoneHostStatus localeCompare s = (s, None)) ∧
  (∀ g nm,
     game s = Some g →
     networkManager s = Some nm →
     ∃ g', game (updateZoneHostStatus localeCompare s).1 = Some g' ∧
           isHost g' = isHost g ∧
           (isHost g' = true → isZoneHost g' = false) ∧
           (isHost g = false →
            ∀ hz lz,
              (∃ before h after,
                 currentRoomPlayers s = before ++ h :: after ∧
                 currentHostId s = Some (id h) ∧
                 (∀ p, p ∈ before → currentHostId s ≠ Some (id p)) ∧
                 zone h = hz) ∨
              ((∀ p, p ∈ currentRoomPlayers s →
                     currentHostId s ≠ Some (id p)) ∧
               hz = "hub") →
              (zoneId g = Some lz ∧ lz ≠ "") ∨
              ((zoneId g = None ∨ zoneId g = Some "") ∧ lz = "hub") →
              hz ≠ lz →
              isZoneHost g' =
                bool_decide (zoneHostId localeCompare s lz = playerId nm) ∧
              match zoneHostId localeCompare s lz with
              | Some i =>
                  ∃ p, id p = i ∧
                       (p ∈ currentRoomPlayers s ∧ zone p = lz ∧
                        Some (id p) ≠ currentHostId s) ∧
                       ∀ q, q ∈ currentRoomPlayers s → zone q = lz →
                            Some (id q) ≠ currentHostId s →
                            localeCompare i (id q) <= 0
              | None =>
                  ∀ q, q ∈ currentRoomPlayers s → zone q = lz →
                       Some (id q) = currentHostId s
              end)).
Proof.
  split.
  - unfold updateZoneHostStatus. intros [-> | ->]; [done|].
    by destruct (game s).
  - intros g nm Hg Hnm. unfold updateZoneHostStatus. rewrite Hg, Hnm.
    destruct (isHost g) eqn:Hhost.
    + eexists. unfold setIsZoneHost. rewrite Hg. simpl.
      split; [reflexivity|]. simpl. repeat split; try done.
    + cbv zeta. eexists. unfold setIsZoneHost. rewrite Hg. simpl.
      split; [reflexivity|]. simpl. split; [done|]. split.
      * rewrite Hhost. discriminate.
      * intros _ hz lz Hhz Hlz Hzone.
        rewrite (hostZone_spec s hz Hhz), (localZone_spec g lz Hlz).
        rewrite (bool_decide_eq_false_2 _ Hzone).
        split; [done|].
        pose proof (zoneHostId_spec s lz) as Hspec.
        destruct (zoneHostId localeCompare s lz) as [i|].
        -- destruct Hspec as (p & Hid & Hcand & Hmin).
           exists p. split; [done|]. split; [exact Hcand|].
           intros q Hq Hqz Hqh. apply Hmin. by repeat split.
        -- intros q Hq Hqz.
           destruct (decide (Some (id q) = currentHostId s)) as [|Hne];
             [done|].
           destruct (Hspec q). by repeat split.
Qed.

(** X10. Once [updateZoneHostStatus] has run after [setHostId], in a state
    with a game and a network manager, the two roles exclude each other:
    the player is not flagged main host and zone host at once, whatever
    the flags were before. *)
Lemma roles_exclusive_after_update s hostId g' :
  is_Some (game s) → is_Some (networkManager s) →
  game (updateZoneHostStatus localeCompare (setHostId hostId s)).1 = Some g' →
  ¬ (isHost g' = true ∧ isZoneHost g' = true).
Proof.
  intros [g Hg] [nm Hnm]. unfold updateZoneHostStatus, setHostId.
  rewrite Hg, Hnm. simpl.
  destruct (bool_decide (playerId nm = hostId)); simpl.
  - intros Hg' [_ Hz]. inversion Hg'; subst g'. discriminate.
  - intros Hg' [Hh _]. inversion Hg'; subst g'. discriminate.
Qed.

End WithCollation.

(** A player with a stale zone-host flag is told that it is the host. *)
Lemma roles_exclusive_after_update_witness :
  is_Some (game hostWithStaleFlag) ∧
  is_Some (networkManager hostWithStaleFlag) ∧
  game (updateZoneHostStatus codeUnitCompare
          (setHostId (Some "p1") hostWithStaleFlag)).1
  = Some {| isHost := true; isZoneHost := false; zoneId := Some "archive" |} ∧
  ¬ (isHost {| isHost := true; isZoneHost := false;
               zoneId := Some "archive" |} = true ∧
     isZoneHost {| isHost := true; isZoneHost := false;
                   zoneId := Some "archive" |} = true).
Proof.
  assert (is_Some (game hostWithStaleFlag)) as Hg by (simpl; eauto).
  assert (is_Some (networkManager hostWithStaleFlag)) as Hnm by (simpl; eauto).
  split; [exact Hg|]. split; [exact Hnm|]. split; [reflexivity|].
  exact (roles_exclusive_after_update codeUnitCompare hostWithStaleFlag
           (Some "p1") _ Hg Hnm eq_refl).
Defined.

(** The guest [p1] in [hub], the main host being in [archive]: [p1] is
    the smallest id of [hub] and is flagged. *)
Lemma updateZoneHostStatus_roles_witness :
  Consistent codeUnitCompare ∧
  ∃ g', game (updateZoneHostStatus codeUnitCompare guestInHub).1 = Some g' ∧
        isHost g' = false ∧
        isZoneHost g' = true.
Proof.
  split; [exact codeUnitCompare_consistent|].
  destruct (updateZoneHostStatus_roles codeUnitCompare guestInHub)
    as [_ Hrun].
  destruct (Hrun {| isHost := false; isZoneHost := false; zoneId := None |}
              {| playerId := Some "p1" |} eq_refl eq_refl)
    as (g' & Hg' & Hhost & _ & Hchoice).
  exists g'. split; [exact Hg'|]. split; [exact Hhost|].
  destruct (Hchoice eq_refl "archive" "hub") as [Hflag _].
  - left. exists [], (entry "zz-host" "archive"),
             [entry "p2" "hub"; entry "p1" "hub"].
    split; [reflexivity|]. split; [reflexivity|]. split; [|reflexivity].
    intros p Hp. by apply elem_of_nil in Hp.
  - right. split; [by left|reflexivity].
  - discriminate.
  - rewrite Hflag. reflexivity.
Defined.

(** Without a network manager the guard returns before the flag is looked
    at: the game stays flagged as main host and as zone host. *)
Lemma main_host_stays_zone_host_without_network_manager :
  let after := (updateZoneHostStatus codeUnitCompare hostWithoutNetwork).1 in
  (isHost <$> game hostWithoutNetwork) = Some true ∧
  (isHost <$> game after) = Some true ∧
  (isZoneHost <$> game after) = Some true.
Proof. vm_compute. repeat split. Qed.

End GameStateProofs.

(** ** The room registry *)
Module RoomsProofs.
Import Model Rooms.

Definition member (i : string) (handle : nat) : Player :=
  {| id := i; username := i; zone := "hub"; character := Some 1;
     ws := handle |}.

(** The scenarios of the RoomManager tests, with a party size of 4. *)
Definition three : gmap string Room :=
  run 4 true [CreateRoom "room1"; AddPlayer "room1" (member "p1" 1);
              AddPlayer "room1" (member "p2" 2);
              AddPlayer "room1" (member "p3" 3)].

Example host_is_first_player :
  hostId <$> three !! "room1" = Some (Some "p1").
Proof. vm_compute. reflexivity. Qed.

Example host_leaves :
  (λ r, (newHostId r, id <$> players (room r)))
    <$> (removePlayer "room1" "p1" three).1.1
  = Some (Some "p2", ["p2"; "p3"]).
Proof. vm_compute. reflexivity. Qed.

Example guest_leaves :
  (λ r, (newHostId r, hostId (room r), id <$> players (room r)))
    <$> (removePlayer "room1" "p3" three).1.1
  = Some (None, Some "p1", ["p1"; "p2"]).
Proof. vm_compute. reflexivity. Qed.

Example duplicate_rejected :
  addPlayer 4 "room1" (member "p1" 9) three = (false, three).
Proof. vm_compute. reflexivity. Qed.

Example last_player_leaves :
  removePlayer "room1" "p1"
    (run 4 true [CreateRoom "room1"; AddPlayer "room1" (member "p1" 1)])
  = (None, ∅, []).
Proof. vm_compute. reflexivity. Qed.

Example by_ws_unknown :
  removePlayerByWs "room1" 7 three = (None, three, []).
Proof. vm_compute. reflexivity. Qed.

Section WithCapacity.
Context (MAX_PARTY_SIZE : nat) (resetOnDuplicate : bool).

#[local] Abbreviation createRoom := (createRoom resetOnDuplicate).
#[local] Abbreviation addPlayer := (addPlayer MAX_PARTY_SIZE).
#[local] Abbreviation run := (run MAX_PARTY_SIZE resetOnDuplicate).
#[local] Abbreviation step := (step MAX_PARTY_SIZE resetOnDuplicate).

(** *** Removing an entry from a roster keeps the order of the others *)

Lemma roster_split (l : list Player) i removed :
  l !! i = Some removed →
  l = take i l ++ removed :: drop (S i) l ∧
  delete i l = take i l ++ drop (S i) l.
Proof.
  intros Hi. split.
  - symmetry. by apply take_drop_middle.
  - apply delete_take_drop.
Qed.

Lemma found_by_id (l : list Player) playerId :
  playerId ∈ id <$> l →
  ∃ i removed, list_find (λ p, id p = playerId) l = Some (i, removed).
Proof.
  intros Hin. apply list_elem_of_fmap in Hin as (p & -> & Hp).
  destruct (list_find (λ q, id q = id p) l) as [[i removed]|] eqn:Hf.
  - by exists i, removed.
  - apply list_find_None in Hf. rewrite Forall_forall in Hf.
    by destruct (Hf p Hp).
Qed.

(** *** C2: host succession *)

(** C2. In a room with at least two players, [removePlayer] of a player of
    the roster removes the first roster entry with that id and keeps the
    others in their order; if the removed player was the host, the first
    remaining player becomes host and is returned as [newHostId]; if not,
    [hostId] stays as it was and [newHostId] is [null]. *)
Theorem removePlayer_succession rooms roomId r playerId :
  rooms !! roomId = Some r →
  (2 ≤ length (players r))%nat →
  playerId ∈ id <$> players r →
  ∃ before removed after first,
    players r = before ++ removed :: after ∧
    id removed = playerId ∧
    (playerId ∉ id <$> before) ∧
    head (before ++ after) = Some first ∧
    let r' newHost :=
      {| players := before ++ after; hostId := newHost;
         started := started r; zoneSessions := zoneSessions r |} in
    ((hostId r = Some playerId →
     removePlayer roomId playerId rooms =
     (Some {| room := r' (Some (id first)); newHostId := Some (id first) |},
      <[roomId := r' (Some (id first))]> rooms, [])) ∧
    (hostId r ≠ Some playerId →
     removePlayer roomId playerId rooms =
     (Some {| room := r' (hostId r); newHostId := None |},
      <[roomId := r' (hostId r)]> rooms, []))).
Proof.
  intros Hr Hlen Hin.
  destruct (found_by_id _ _ Hin) as (i & removed & Hf).
  pose proof Hf as Hfind.
  apply list_find_Some in Hf as (Hi & Hid & Hfirst).
  destruct (roster_split _ _ _ Hi) as [Hsplit Hdel].
  set (before := take i (players r)) in *.
  set (after := drop (S i) (players r)) in *.
  assert (length (before ++ after) = pred (length (players r))) as Hl.
  { pose proof (f_equal length Hsplit) as E.
    rewrite length_app in E. simpl in E. rewrite length_app. lia. }
  destruct (before ++ after) as [|first rest] eqn:Hrem;
    [simpl in Hl; lia|].
  exists before, removed, after, first.
  split; [done|]. split; [done|]. split.
  { intros Hb. apply list_elem_of_fmap in Hb as (q & Hq & Hqb).
    apply list_elem_of_lookup in Hqb as [j Hj].
    unfold before in Hj. apply lookup_take_Some in Hj as [Hj Hlt].
    by apply (Hfirst j q Hj Hlt). }
  split; [by rewrite Hrem|].
  unfold removePlayer. rewrite Hr, Hfind. unfold removeFound.
  rewrite Hdel, Hrem, Hid. split.
  - intros Hhost. by rewrite (bool_decide_eq_true_2 _ Hhost).
  - intros Hhost. by rewrite (bool_decide_eq_false_2 _ Hhost).
Qed.

(** *** C3: the host invariant *)

Definition room_ok (r : Room) : Prop :=
  (hostId r = None ↔ players r = []) ∧
  (∀ h, hostId r = Some h → h ∈ id <$> players r).

Definition registry_ok (rooms : gmap string Room) : Prop :=
  map_Forall (λ _ r, room_ok r) rooms.

Lemma emptyRoom_ok : room_ok emptyRoom.
Proof. split; [done|]. intros h Hh. discriminate. Qed.

Lemma createRoom_ok rooms roomId :
  registry_ok rooms → registry_ok (createRoom roomId rooms).
Proof.
  intros Hok. unfold Rooms.createRoom.
  destruct (rooms !! roomId); [destruct resetOnDuplicate|];
    try done; apply map_Forall_insert_2; auto using emptyRoom_ok.
Qed.

Lemma addPlayer_ok rooms roomId playerRecord :
  registry_ok rooms → registry_ok (addPlayer roomId playerRecord rooms).2.
Proof.
  intros Hok. unfold Rooms.addPlayer.
  destruct (rooms !! roomId) as [r|] eqn:Hr; [|done].
  repeat case_bool_decide; try done. simpl.
  apply map_Forall_insert_2; [|done].
  apply Hok in Hr as [Hnone Hsome]. split; simpl.
  - split.
    + destruct (players r) as [|p0 ps]; [done|].
      intros Hh. by apply Hnone in Hh.
    + intros Happ. by apply app_nil in Happ as [_ ?].
  - intros h Hh. rewrite fmap_app. apply elem_of_app.
    destruct (players r) as [|p0 ps] eqn:Hp.
    + right. inversion Hh. simpl. by left.
    + left. by apply Hsome.
Qed.

Lemma removeFound_ok rooms roomId r i removed :
  registry_ok rooms →
  rooms !! roomId = Some r →
  players r !! i = Some removed →
  registry_ok (removeFound roomId r i removed rooms).1.2.
Proof.
  intros Hok Hr Hi. unfold removeFound.
  destruct (roster_split _ _ _ Hi) as [Hsplit Hdel].
  destruct (delete i (players r)) as [|first rest] eqn:Hrem.
  - unfold deleteRoom. rewrite Hr. simpl. by apply map_Forall_delete.
  - simpl. apply map_Forall_insert_2; [|done].
    apply Hok in Hr as [Hnone Hsome]. split; simpl.
    + split; [|done]. case_bool_decide; [done|].
      intros Hh. apply Hnone in Hh. rewrite Hh in Hi.
      by rewrite lookup_nil in Hi.
    + intros h Hh. case_bool_decide as Hhost.
      * inversion Hh. simpl. by left.
      * apply Hsome in Hh as Hin.
        change (h ∈ id <$> (first :: rest)). rewrite Hdel.
        rewrite Hsplit in Hin. rewrite fmap_app, fmap_cons in Hin.
        rewrite fmap_app. apply elem_of_app.
        apply elem_of_app in Hin as [Hin|Hin]; [by left|].
        apply elem_of_cons in Hin as [Hin|Hin]; [|by right].
        congruence.
Qed.

Lemma removePlayer_ok rooms roomId playerId :
  registry_ok rooms → registry_ok (removePlayer roomId playerId rooms).1.2.
Proof.
  intros Hok. unfold removePlayer.
  destruct (rooms !! roomId) as [r|] eqn:Hr; [|done].
  destruct (list_find _ (players r)) as [[i removed]|] eqn:Hf; [|done].
  apply list_find_Some in Hf as (Hi & _ & _). by apply removeFound_ok.
Qed.

Lemma removePlayerByWs_ok rooms roomId connectionHandle :
  registry_ok rooms →
  registry_ok (removePlayerByWs roomId connectionHandle rooms).1.2.
Proof.
  intros Hok. unfold removePlayerByWs.
  destruct (rooms !! roomId) as [r|] eqn:Hr; [|done].
  destruct (list_find _ (players r)) as [[i removed]|] eqn:Hf; [|done].
  apply list_find_Some in Hf as (Hi & _ & _). by apply removeFound_ok.
Qed.

Lemma step_ok rooms op : registry_ok rooms → registry_ok (step rooms op).
Proof.
  destruct op; simpl;
    auto using createRoom_ok, addPlayer_ok, removePlayer_ok,
               removePlayerByWs_ok.
Qed.

Lemma steps_ok ops :
  ∀ rooms, registry_ok rooms → registry_ok (foldl step rooms ops).
Proof.
  induction ops as [|op ops IH]; intros rooms Hok; simpl; [done|].
  by apply IH, step_ok.
Qed.

(** C3. In every room of the registry reached by any sequence of
    [createRoom], [addPlayer], [removePlayer] and [removePlayerByWs] on a
    new RoomManager, [hostId] is [null] if and only if the roster is empty,
    and otherwise [hostId] is the id of a player of the roster. *)
Theorem host_invariant ops roomId r :
  run ops !! roomId = Some r →
  (hostId r = None ↔ players r = []) ∧
  (∀ h, hostId r = Some h → ∃ p, p ∈ players r ∧ id p = h).
Proof.
  intros Hr.
  assert (registry_ok (run ops)) as Hok.
  { apply steps_ok, map_Forall_empty. }
  apply Hok in Hr as [Hnone Hsome]. split; [done|].
  intros h Hh. apply Hsome in Hh.
  apply list_elem_of_fmap in Hh as (p & -> & Hp). by exists p.
Qed.

(** *** C4: deleting a room *)

(** C4. Deleting a registered room removes it from the registry, so that
    [hasRoom] answers [false], and calls [shutdown()] exactly once on each
    zone session registered for the room; removing the last player of a
    room, by id or by connection handle, deletes the room in this way and
    returns [null]. *)
Theorem room_deletion rooms roomId r :
  rooms !! roomId = Some r →
  let shutdowns := (deleteRoom roomId rooms).2 in
  (deleteRoom roomId rooms).1 = delete roomId rooms ∧
  hasRoom roomId (deleteRoom roomId rooms).1 = false ∧
  NoDup shutdowns ∧
  (∀ z session, (z, session) ∈ shutdowns ↔ zoneSessions r !! z = Some session) ∧
  (∀ p, players r = [p] →
        removePlayer roomId (id p) rooms =
          (None, delete roomId rooms, shutdowns) ∧
        removePlayerByWs roomId (ws p) rooms =
          (None, delete roomId rooms, shutdowns)).
Proof.
  intros Hr. unfold deleteRoom. rewrite Hr. simpl.
  split; [done|]. split.
  { unfold hasRoom. apply bool_decide_eq_false.
    rewrite lookup_delete_eq. by intros [? ?]. }
  split; [apply NoDup_map_to_list|]. split.
  { intros z session. apply elem_of_map_to_list. }
  intros p Hp. unfold removePlayer, removePlayerByWs.
  rewrite Hr, Hp. simpl. rewrite !decide_True by done. simpl.
  unfold removeFound. rewrite Hp. simpl. unfold deleteRoom. by rewrite Hr.
Qed.

(** *** C5: joining a room *)

(** C5. [addPlayer] answers [false] exactly when the room does not exist,
    the room already holds the maximum party size, or the id is already in
    the room, and then the registry, and with it every roster, is
    unchanged; when it answers [true] it has appended the player to the end
    of the roster and, if the roster was empty, made that player host,
    leaving the host alone otherwise. *)
Theorem addPlayer_outcome rooms roomId playerRecord :
  ((addPlayer roomId playerRecord rooms).1 = false ↔
   rooms !! roomId = None ∨
   ∃ r, rooms !! roomId = Some r ∧
        ((MAX_PARTY_SIZE ≤ length (players r))%nat ∨
         id playerRecord ∈ id <$> players r)) ∧
  ((addPlayer roomId playerRecord rooms).1 = false →
   (addPlayer roomId playerRecord rooms).2 = rooms) ∧
  (∀ r, rooms !! roomId = Some r →
        (addPlayer roomId playerRecord rooms).1 = true →
        ∃ r', (addPlayer roomId playerRecord rooms).2 = <[roomId := r']> rooms ∧
              players r' = players r ++ [playerRecord] ∧
              hostId r' = (if bool_decide (players r = [])
                           then Some (id playerRecord) else hostId r) ∧
              started r' = started r ∧
              zoneSessions r' = zoneSessions r).
Proof.
  unfold Rooms.addPlayer.
  destruct (rooms !! roomId) as [r|] eqn:Hr.
  - case_bool_decide as Hfull; [|case_bool_decide as Hdup]; simpl.
    + split; [|split]; try done.
      split; [|done]. intros _. right. exists r. auto.
    + split; [|split]; try done.
      split; [|done]. intros _. right. exists r. auto.
    + split; [|split]; try done.
      * split; [done|]. intros [?|(r0 & Hr0 & [?|?])]; [done| |];
          inversion Hr0; subst; done.
      * intros r0 Hr0 _. inversion Hr0; subst r0. eexists.
        split; [reflexivity|]. simpl. repeat split.
        destruct (players r); by simpl.
  - simpl. split; [|split]; try done.
    split; [|done]. intros _. by left.
Qed.


End WithCapacity.

(** The room of the scenario [three]. *)
Definition threeRoom : Room :=
  {| players := [member "p1" 1; member "p2" 2; member "p3" 3];
     hostId := Some "p1"; started := false; zoneSessions := ∅ |}.

(** A registry with one room that holds one player and two zone
    sessions. *)
Definition lastOne : Room :=
  {| players := [member "p1" 1]; hostId := Some "p1"; started := true;
     zoneSessions := {["hub" := 11%nat; "archive" := 12%nat]} |}.

Example last_player_shuts_sessions_down :
  removePlayer "room1" "p1" {["room1" := lastOne]}
  = (None, ∅, [("hub", 11%nat); ("archive", 12%nat)])
  ∨ removePlayer "room1" "p1" {["room1" := lastOne]}
  = (None, ∅, [("archive", 12%nat); ("hub", 11%nat)]).
Proof. vm_compute. auto. Qed.

(** The host [p1] leaves the room of three. *)
Lemma removePlayer_succession_witness :
  three !! "room1" = Some threeRoom ∧
  (2 ≤ length (players threeRoom))%nat ∧
  "p1" ∈ id <$> players threeRoom ∧
  ∃ before removed after first,
    players threeRoom = before ++ removed :: after ∧
    id removed = "p1" ∧
    ("p1" ∉ id <$> before) ∧
    head (before ++ after) = Some first ∧
    let r' newHost :=
      {| players := before ++ after; hostId := newHost;
         started := started threeRoom;
         zoneSessions := zoneSessions threeRoom |} in
    ((hostId threeRoom = Some "p1" →
      removePlayer "room1" "p1" three =
      (Some {| room := r' (Some (id first)); newHostId := Some (id first) |},
       <["room1" := r' (Some (id first))]> three, [])) ∧
     (hostId threeRoom ≠ Some "p1" →
      removePlayer "room1" "p1" three =
      (Some {| room := r' (hostId threeRoom); newHostId := None |},
       <["room1" := r' (hostId threeRoom)]> three, []))).
Proof.
  assert (three !! "room1" = Some threeRoom) as Hr by (vm_compute; reflexivity).
  assert (2 ≤ length (players threeRoom))%nat as Hlen by (simpl; lia).
  assert ("p1" ∈ id <$> players threeRoom) as Hin by (simpl; left).
  split; [exact Hr|]. split; [exact Hlen|]. split; [exact Hin|].
  exact (removePlayer_succession three "room1" threeRoom "p1" Hr Hlen Hin).
Defined.

(** The room of three, as reached from a new registry. *)
Lemma host_invariant_witness :
  run 4 true [CreateRoom "room1"; AddPlayer "room1" (member "p1" 1);
              AddPlayer "room1" (member "p2" 2);
              AddPlayer "room1" (member "p3" 3)] !! "room1"
  = Some threeRoom ∧
  (hostId threeRoom = None ↔ players threeRoom = []) ∧
  (∀ h, hostId threeRoom = Some h → ∃ p, p ∈ players threeRoom ∧ id p = h).
Proof.
  assert (run 4 true
            [CreateRoom "room1"; AddPlayer "room1" (member "p1" 1);
             AddPlayer "room1" (member "p2" 2);
             AddPlayer "room1" (member "p3" 3)] !! "room1"
          = Some threeRoom) as Hr by (vm_compute; reflexivity).
  split; [exact Hr|].
  exact (host_invariant 4 true _ "room1" threeRoom Hr).
Defined.

(** A room with one player and two zone sessions. *)
Lemma room_deletion_witness :
  let rooms : gmap string Room := {["room1" := lastOne]} in
  rooms !! "room1" = Some lastOne ∧
  let shutdowns := (deleteRoom "room1" rooms).2 in
  (deleteRoom "room1" rooms).1 = delete "room1" rooms ∧
  hasRoom "room1" (deleteRoom "room1" rooms).1 = false ∧
  NoDup shutdowns ∧
  (∀ z session,
     (z, session) ∈ shutdowns ↔ zoneSessions lastOne !! z = Some session) ∧
  (∀ p, players lastOne = [p] →
        removePlayer "room1" (id p) rooms =
          (None, delete "room1" rooms, shutdowns) ∧
        removePlayerByWs "room1" (ws p) rooms =
          (None, delete "room1" rooms, shutdowns)).
Proof.
  intros rooms.
  assert (rooms !! "room1" = Some lastOne) as Hr by (vm_compute; reflexivity).
  split; [exact Hr|].
  exact (room_deletion rooms "room1" lastOne Hr).
Defined.

End RoomsProofs.

(** * Part III: further properties of the code *)

(** ** Zone authority on the server, continued *)
Module ZoneHostMore.
Import Model ZoneHost.

(** [room.players.find(p => p.id === playerId)] *)
Definition playerById (room : Room) (playerId : string) : option Player :=
  List.find (λ p, bool_decide (id p = playerId)) (players room).

Lemma find_elem_of {A} (f : A → bool) (l : list A) x :
  x ∈ l → f x = true → is_Some (List.find f l).
Proof.
  induction 1 as [x l|x y l Hin IH]; simpl; intros Hf.
  - rewrite Hf. eauto.
  - destruct (f y); eauto.
Qed.

Lemma playerById_Some room playerId p :
  playerById room playerId = Some p → p ∈ players room ∧ id p = playerId.
Proof.
  unfold playerById. intros Hf. apply find_some in Hf as [Hin Hid].
  apply bool_decide_eq_true in Hid. split; [by apply list_elem_of_In|done].
Qed.

Lemma playerById_host room playerId :
  hostId room = Some playerId → findHost room = playerById room playerId.
Proof.
  intros Hh. unfold findHost, playerById. rewrite Hh.
  induction (players room) as [|p l IH]; simpl; [done|].
  rewrite IH. destruct (decide (id p = playerId)) as [He|Hne].
  - by rewrite !bool_decide_eq_true_2 by congruence.
  - by rewrite !bool_decide_eq_false_2 by congruence.
Qed.

(** Entries of a roster without duplicate ids are told apart by their id. *)
Lemma same_id_same_player (l : list Player) p q :
  NoDup (id <$> l) → p ∈ l → q ∈ l → id p = id q → p = q.
Proof.
  induction l as [|x l IH]; intros Hnd Hp Hq Hid; [by apply elem_of_nil in Hp|].
  rewrite fmap_cons in Hnd. apply NoDup_cons in Hnd as [Hx Hnd].
  apply elem_of_cons in Hp as [->|Hp]; apply elem_of_cons in Hq as [->|Hq].
  - done.
  - destruct Hx. rewrite Hid. by apply list_elem_of_fmap_2.
  - destruct Hx. rewrite <- Hid. by apply list_elem_of_fmap_2.
  - by apply IH.
Qed.

Section WithCollation.
Context (localeCompare : string → string → Z).

Lemma getZoneHost_in_zone room z p :
  getZoneHost localeCompare room z = Some p → p ∈ players room ∧ zone p = z.
Proof.
  unfold getZoneHost. destruct (players room) as [|p0 ps] eqn:Hp; [done|].
  destruct (findHost room) as [h|] eqn:Hf.
  - case_bool_decide as Hz.
    + intros [= ->]. apply ZoneHostProofs.findHost_Some in Hf as [Hin _].
      by rewrite Hp in Hin.
    + cbv beta iota zeta. intros Hhd. apply head_Some_elem_of in Hhd.
      apply sort_elem, ZoneHostProofs.elem_of_inZone in Hhd. done.
  - cbv beta iota zeta. intros Hhd. apply head_Some_elem_of in Hhd.
    apply sort_elem, ZoneHostProofs.elem_of_inZone in Hhd. done.
Qed.

Lemma getZoneHost_occupied room q :
  q ∈ players room → is_Some (getZoneHost localeCompare room (zone q)).
Proof.
  intros Hq. unfold getZoneHost.
  destruct (players room) as [|p0 ps] eqn:Hp; [by apply elem_of_nil in Hq|].
  assert (is_Some (head (sort (byId localeCompare)
            (List.filter (λ p, bool_decide (zone p = zone q)) (p0 :: ps)))))
    as Hfallback.
  { destruct (sort _ _) as [|x s] eqn:Hs; [|by eauto].
    apply sort_nil_inv in Hs.
    assert (q ∈ List.filter (λ p, bool_decide (zone p = zone q)) (p0 :: ps))
      as Hin by (by apply ZoneHostProofs.elem_of_inZone).
    rewrite Hs in Hin. by apply elem_of_nil in Hin. }
  destruct (findHost room) as [h|]; [|done].
  case_bool_decide; [eauto|done].
Qed.

(** X1. The authority [getZoneHost] names for a zone is always a player of
    the roster who is in that zone: never an outsider, never a player of
    another zone. *)
Theorem zone_authority_is_occupant room z :
  match getZoneHost localeCompare room z with
  | Some p => p ∈ players room ∧ zone p = z
  | None => True
  end.
Proof.
  destruct (getZoneHost localeCompare room z) as [p|] eqn:Hg; [|done].
  by apply getZoneHost_in_zone.
Qed.

Lemma isPlayerZoneHost_host room playerId :
  hostId room = Some playerId →
  playerId ∈ id <$> players room →
  isPlayerZoneHost localeCompare room playerId = true.
Proof.
  intros Hh Hin. unfold isPlayerZoneHost. fold (playerById room playerId).
  apply list_elem_of_fmap in Hin as (p & -> & Hp).
  destruct (find_elem_of (λ q, bool_decide (id q = id p)) (players room) p)
    as [me Hme]; [done|by apply bool_decide_eq_true|].
  fold (playerById room (id p)) in Hme. rewrite Hme.
  pose proof (playerById_Some _ _ _ Hme) as [Hin Hid].
  unfold getZoneHost. destruct (players room) as [|p0 ps] eqn:Hps;
    [by apply elem_of_nil in Hin|].
  rewrite (playerById_host room (id p) Hh), Hme.
  rewrite bool_decide_eq_true_2 by done.
  by apply bool_decide_eq_true.
Qed.

(** X2. The main host, when it is in the roster, is zone host of the zone
    it is in: [isPlayerZoneHost] answers [true] for [room.hostId]. *)
Theorem main_host_is_zone_host room playerId :
  hostId room = Some playerId →
  playerId ∈ id <$> players room →
  isPlayerZoneHost localeCompare room playerId = true.
Proof. apply isPlayerZoneHost_host. Qed.

(** X3. A zone has at most one zone host: two players of the same zone for
    whom [isPlayerZoneHost] answers [true] have the same id. *)
Theorem at_most_one_zone_host room a b pa pb :
  playerById room a = Some pa →
  playerById room b = Some pb →
  zone pa = zone pb →
  isPlayerZoneHost localeCompare room a = true →
  isPlayerZoneHost localeCompare room b = true →
  a = b.
Proof.
  intros Ha Hb Hz. unfold isPlayerZoneHost.
  fold (playerById room a). fold (playerById room b). rewrite Ha, Hb, Hz.
  destruct (getZoneHost localeCompare room (zone pb)) as [h|]; [|done].
  intros Hha%bool_decide_eq_true Hhb%bool_decide_eq_true. congruence.
Qed.

(** X4. In a roster without duplicate ids every occupied zone has a zone
    host: some player of the zone is answered [true] by
    [isPlayerZoneHost]. *)
Theorem occupied_zone_has_zone_host room q :
  NoDup (id <$> players room) →
  q ∈ players room →
  ∃ p, p ∈ players room ∧ zone p = zone q ∧
       isPlayerZoneHost localeCompare room (id p) = true.
Proof.
  intros Hnd Hq.
  destruct (getZoneHost_occupied room q Hq) as [p Hp].
  pose proof (getZoneHost_in_zone _ _ _ Hp) as [Hin Hz].
  exists p. split; [done|]. split; [done|].
  unfold isPlayerZoneHost. fold (playerById room (id p)).
  destruct (find_elem_of (λ x, bool_decide (id x = id p)) (players room) p)
    as [me Hme]; [done|by apply bool_decide_eq_true|].
  fold (playerById room (id p)) in Hme. rewrite Hme.
  pose proof (playerById_Some _ _ _ Hme) as [Hmein Hid].
  assert (me = p) as -> by (by apply (same_id_same_player (players room))).
  rewrite Hz, Hp. by apply bool_decide_eq_true.
Qed.

(** X5. [getMainHostZone] reports a zone exactly when the main host is in
    the roster, and the authority of the zone it reports is the main host;
    it reports [null] exactly when no roster entry has the host's id. *)
Theorem main_host_zone_authority room :
  (∀ z, getMainHostZone room = Some z →
        ∃ h, getZoneHost localeCompare room z = Some h ∧
             hostId room = Some (id h) ∧ zone h = z) ∧
  (getMainHostZone room = None ↔
   ∀ p, p ∈ players room → hostId room ≠ Some (id p)).
Proof.
  unfold getMainHostZone. split.
  - intros z Hz. destruct (findHost room) as [h|] eqn:Hf; [|done].
    simpl in Hz. injection Hz as <-. exists h.
    pose proof (ZoneHostProofs.findHost_Some _ _ Hf) as [Hin Hid].
    split; [|done]. unfold getZoneHost.
    destruct (players room) as [|p0 ps] eqn:Hps; [by apply elem_of_nil in Hin|].
    rewrite Hf. by rewrite bool_decide_eq_true_2.
  - destruct (findHost room) as [h|] eqn:Hf; simpl.
    + split; [done|]. intros Hno.
      pose proof (ZoneHostProofs.findHost_Some _ _ Hf) as [Hin Hid].
      by destruct (Hno h Hin).
    + split; [|done]. intros _. by apply ZoneHostProofs.findHost_None.
Qed.

(** *** The join order does not matter *)

Lemma find_unique_Permutation {A} (f : A → bool) (l l' : list A) :
  l ≡ₚ l' →
  (∀ x y, x ∈ l → y ∈ l → f x = true → f y = true → x = y) →
  List.find f l = List.find f l'.
Proof.
  intros Hperm Huniq.
  destruct (List.find f l) as [x|] eqn:Hx; destruct (List.find f l') as [y|] eqn:Hy;
    try done.
  - apply find_some in Hx as [Hxin Hfx]. apply find_some in Hy as [Hyin Hfy].
    apply list_elem_of_In in Hxin, Hyin. rewrite <- Hperm in Hyin.
    f_equal. by apply Huniq.
  - apply find_some in Hx as [Hxin Hfx]. apply list_elem_of_In in Hxin.
    rewrite Hperm in Hxin. apply list_elem_of_In in Hxin.
    apply (find_none _ _ Hy) in Hxin. congruence.
  - apply find_some in Hy as [Hyin Hfy]. apply list_elem_of_In in Hyin.
    rewrite <- Hperm in Hyin. apply list_elem_of_In in Hyin.
    apply (find_none _ _ Hx) in Hyin. congruence.
Qed.

Lemma inZone_Permutation (z : string) (l l' : list Player) :
  l ≡ₚ l' →
  List.filter (λ p, bool_decide (zone p = z)) l
  ≡ₚ List.filter (λ p, bool_decide (zone p = z)) l'.
Proof.
  induction 1 as [|x l l' Hp IH|x y l|l l' l'' _ IH1 _ IH2]; simpl.
  - done.
  - destruct (bool_decide (zone x = z)); by rewrite IH.
  - destruct (bool_decide (zone x = z)), (bool_decide (zone y = z));
      try done. apply Permutation_swap.
  - by rewrite IH1.
Qed.

(** X6. With a collation that is a total order on ids and a roster without
    duplicate ids, the authority of a zone does not depend on the order of
    the roster: two rooms with the same host and the same players, joined
    in any order, have the same authority for every zone. *)
Theorem zone_host_independent_of_join_order
    `{!Consistent localeCompare} room room' z :
  (∀ a b, localeCompare a b <= 0 → localeCompare b a <= 0 → a = b) →
  NoDup (id <$> players room) →
  players room ≡ₚ players room' →
  hostId room = hostId room' →
  getZoneHost localeCompare room z = getZoneHost localeCompare room' z.
Proof.
  intros Hanti Hnd Hperm Hhost.
  assert (findHost room = findHost room') as Hfind.
  { unfold findHost. rewrite <- Hhost.
    apply find_unique_Permutation; [done|].
    intros x y Hx Hy Hfx%bool_decide_eq_true Hfy%bool_decide_eq_true.
    apply (same_id_same_player (players room)); congruence. }
  unfold getZoneHost. rewrite <- Hfind.
  destruct (players room) as [|p0 ps] eqn:Hps.
  { apply Permutation_nil_l in Hperm. by rewrite <- Hperm. }
  destruct (players room') as [|p0' ps'] eqn:Hps'.
  { by apply Permutation_nil_r in Hperm. }
  destruct (match findHost room with
            | Some h => bool_decide (zone h = z)
            | None => false
            end); [done|].
  cbv beta iota zeta.
  pose proof (inZone_Permutation z _ _ Hperm) as Hfperm.
  set (F := List.filter (λ p, bool_decide (zone p = z)) (p0 :: ps)) in *.
  set (F' := List.filter (λ p, bool_decide (zone p = z)) (p0' :: ps')) in *.
  destruct (decide (F = [])) as [Hnil|Hne].
  { rewrite Hnil in Hfperm. apply Permutation_nil_l in Hfperm.
    by rewrite Hnil, <- Hfperm. }
  assert (F' ≠ []) as Hne'.
  { intros Hnil. rewrite Hnil in Hfperm. by apply Permutation_nil_r in Hfperm. }
  pose proof (ZoneHostProofs.serverById_consistent localeCompare) as Hcons.
  destruct (sort_head (byId localeCompare) F Hne) as (p & -> & Hin & Hmin).
  destruct (sort_head (byId localeCompare) F' Hne') as (p' & -> & Hin' & Hmin').
  f_equal. apply (same_id_same_player (p0 :: ps)).
  - exact Hnd.
  - unfold F in Hin. by apply ZoneHostProofs.elem_of_inZone in Hin as [? _].
  - unfold F' in Hin'. apply ZoneHostProofs.elem_of_inZone in Hin' as [? _].
    by rewrite Hperm.
  - apply Hanti.
    + apply (Hmin p'). by rewrite Hfperm.
    + apply (Hmin' p). by rewrite <- Hfperm.
Qed.

End WithCollation.

Lemma codeUnitCompare_antisym a b :
  codeUnitCompare a b <= 0 → codeUnitCompare b a <= 0 → a = b.
Proof.
  rewrite !codeUnitCompare_le. intros Hab Hba.
  by apply (anti_symm String.le).
Qed.

(** The scenario of the zone-authority test (host in [hub]; [p3], [p1],
    [p2] in [archive]) and the same room with the roster reversed. *)
Definition hostInHub : Room := ZoneHostProofs.scenario.
Definition hostInHubReversed : Room :=
  {| players := reverse (players hostInHub); hostId := hostId hostInHub;
     started := started hostInHub; zoneSessions := zoneSessions hostInHub |}.

Lemma hostInHub_ids_NoDup : NoDup (id <$> players hostInHub).
Proof. exact (bool_decide_unpack (NoDup (id <$> players hostInHub)) I). Qed.

(** The main host of the test scenario. *)
Lemma main_host_is_zone_host_witness :
  hostId hostInHub = Some "zz-host" ∧
  "zz-host" ∈ id <$> players hostInHub ∧
  isPlayerZoneHost codeUnitCompare hostInHub "zz-host" = true.
Proof.
  assert ("zz-host" ∈ id <$> players hostInHub) as Hin by (simpl; left).
  split; [reflexivity|]. split; [exact Hin|].
  exact (main_host_is_zone_host codeUnitCompare hostInHub "zz-host"
           eq_refl Hin).
Defined.

(** [p1] is zone host of [archive], so [p1] is the only one. *)
Lemma at_most_one_zone_host_witness :
  playerById hostInHub "p1" = Some (ZoneHostProofs.mkPlayer "p1" "archive") ∧
  isPlayerZoneHost codeUnitCompare hostInHub "p1" = true ∧
  "p1" = "p1".
Proof.
  split; [reflexivity|]. split; [reflexivity|].
  exact (at_most_one_zone_host codeUnitCompare hostInHub "p1" "p1"
           (ZoneHostProofs.mkPlayer "p1" "archive")
           (ZoneHostProofs.mkPlayer "p1" "archive")
           eq_refl eq_refl eq_refl eq_refl eq_refl).
Defined.

(** The zone of [p3] in the test scenario. *)
Lemma occupied_zone_has_zone_host_witness :
  NoDup (id <$> players hostInHub) ∧
  ZoneHostProofs.mkPlayer "p3" "archive" ∈ players hostInHub ∧
  ∃ p, p ∈ players hostInHub ∧
       zone p = zone (ZoneHostProofs.mkPlayer "p3" "archive") ∧
       isPlayerZoneHost codeUnitCompare hostInHub (id p) = true.
Proof.
  assert (ZoneHostProofs.mkPlayer "p3" "archive" ∈ players hostInHub) as Hin
    by (simpl; right; left).
  split; [exact hostInHub_ids_NoDup|]. split; [exact Hin|].
  exact (occupied_zone_has_zone_host codeUnitCompare hostInHub _
           hostInHub_ids_NoDup Hin).
Defined.

(** The test scenario and its reversal, queried for [archive]. *)
Lemma zone_host_independent_of_join_order_witness :
  Consistent codeUnitCompare ∧
  (∀ a b, codeUnitCompare a b <= 0 → codeUnitCompare b a <= 0 → a = b) ∧
  NoDup (id <$> players hostInHub) ∧
  players hostInHub ≡ₚ players hostInHubReversed ∧
  hostId hostInHub = hostId hostInHubReversed ∧
  getZoneHost codeUnitCompare hostInHub "archive"
  = getZoneHost codeUnitCompare hostInHubReversed "archive".
Proof.
  assert (players hostInHub ≡ₚ players hostInHubReversed) as Hperm.
  { symmetry. apply reverse_Permutation. }
  split; [exact codeUnitCompare_consistent|].
  split; [exact codeUnitCompare_antisym|].
  split; [exact hostInHub_ids_NoDup|]. split; [exact Hperm|].
  split; [reflexivity|].
  exact (zone_host_independent_of_join_order codeUnitCompare
           hostInHub hostInHubReversed "archive"
           codeUnitCompare_antisym hostInHub_ids_NoDup Hperm eq_refl).
Defined.

End ZoneHostMore.

(** ** Zone-host status on the client, continued *)
Module GameStateMore.
Import GameState.

Section WithCollation.
Context (localeCompare : string → string → Z).

#[local] Abbreviation updateZoneHostStatus :=
  (updateZoneHostStatus localeCompare).

(** The flag after an update, [undefined] without a game. *)
Definition flagAfter (s : State) : option bool :=
  isZoneHost <$> game (updateZoneHostStatus s).1.

(** X7. [updateZoneHostStatus] is idempotent: run a second time on the
    state it produced, it changes nothing and calls [onZoneHostChange] no
    more. *)
Theorem updateZoneHostStatus_idempotent s :
  updateZoneHostStatus (updateZoneHostStatus s).1
  = ((updateZoneHostStatus s).1, None).
Proof.
  destruct s as [[[h zh zid]|] [nm|] roster hid cb];
    unfold GameState.updateZoneHostStatus; simpl; try done.
  destruct h; simpl; [done|].
  unfold hostZone, hostPlayer, zoneHostId, playersInMyZone, localZone; simpl.
  repeat case_bool_decide; simpl; rewrite ?andb_false_r; done.
Qed.


End WithCollation.

(** *** The client and the server agree *)

(** Two arrays that look the same through projections [πa] and [πb] are
    searched, filtered and sorted alike by functions that only look
    through the projections. *)
Section Projections.
Context {A B C : Type} (πa : A → C) (πb : B → C).

Lemma find_projected (P : C → bool) (la : list A) :
  ∀ lb : list B,
  πa <$> la = πb <$> lb →
  πa <$> List.find (λ x, P (πa x)) la = πb <$> List.find (λ y, P (πb y)) lb.
Proof.
  induction la as [|a la IH]; intros [|b lb] Heq; simpl in *; try done.
  injection Heq as Hab Hrest. rewrite Hab.
  destruct (P (πb b)); simpl; [by rewrite Hab|by apply IH].
Qed.

Lemma filter_projected (P : C → bool) (la : list A) :
  ∀ lb : list B,
  πa <$> la = πb <$> lb →
  πa <$> List.filter (λ x, P (πa x)) la
  = πb <$> List.filter (λ y, P (πb y)) lb.
Proof.
  induction la as [|a la IH]; intros [|b lb] Heq; simpl in *; try done.
  injection Heq as Hab Hrest. rewrite Hab.
  destruct (P (πb b)); simpl; [rewrite Hab; f_equal|]; by apply IH.
Qed.

Lemma sort_insert_projected (cmp : C → C → Z) a b (la : list A) :
  ∀ lb : list B,
  πa a = πb b →
  πa <$> la = πb <$> lb →
  πa <$> sort_insert (λ x x', cmp (πa x) (πa x')) a la
  = πb <$> sort_insert (λ y y', cmp (πb y) (πb y')) b lb.
Proof.
  induction la as [|a' la IH]; intros [|b' lb] Hab Heq; simpl in *; try done.
  - by rewrite Hab.
  - injection Heq as Hab' Hrest. rewrite Hab, Hab'.
    destruct (cmp (πb b) (πb b') <=? 0); simpl.
    + by rewrite Hab, Hab', Hrest.
    + rewrite Hab'. f_equal. by apply IH.
Qed.

Lemma sort_projected (cmp : C → C → Z) (la : list A) :
  ∀ lb : list B,
  πa <$> la = πb <$> lb →
  πa <$> sort (λ x x', cmp (πa x) (πa x')) la
  = πb <$> sort (λ y y', cmp (πb y) (πb y')) lb.
Proof.
  induction la as [|a la IH]; intros [|b lb] Heq; simpl in *; try done.
  injection Heq as Hab Hrest. apply sort_insert_projected; [done|by apply IH].
Qed.
End Projections.

(** What the client sees of a player: its id and its zone. *)
Definition seenOnClient (p : RosterPlayer) : string * string := (id p, zone p).
Definition seenOnServer (p : Model.Player) : string * string :=
  (Model.id p, Model.zone p).

(** The client's roster lists the players of the room, with their zones,
    in the order of the server's roster. *)
Definition sameRoster (room : Model.Room) (s : State) : Prop :=
  seenOnClient <$> currentRoomPlayers s = seenOnServer <$> Model.players room.

Section Agreement.
Context (localeCompare : string → string → Z).
Context (room : Model.Room) (s : State).
Hypothesis Hroster : sameRoster room s.
Hypothesis Hhost : currentHostId s = Model.hostId room.

Lemma hostPlayer_server :
  seenOnClient <$> hostPlayer s = seenOnServer <$> ZoneHost.findHost room.
Proof.
  unfold hostPlayer, ZoneHost.findHost. rewrite Hhost.
  exact (find_projected seenOnClient seenOnServer
           (λ c, bool_decide (Some c.1 = Model.hostId room))
           (currentRoomPlayers s) (Model.players room) Hroster).
Qed.

Lemma playersInMyZone_server lz :
  seenOnClient <$> playersInMyZone localeCompare s lz
  = seenOnServer <$>
      sort (ZoneHost.byId localeCompare)
        (List.filter
           (λ p, bool_decide (Model.zone p = lz)
                 && negb (bool_decide (Some (Model.id p) = Model.hostId room)))
           (Model.players room)).
Proof.
  unfold playersInMyZone. rewrite Hhost.
  apply (sort_projected seenOnClient seenOnServer
           (λ c c', localeCompare c.1 c'.1)).
  exact (filter_projected seenOnClient seenOnServer
           (λ c, bool_decide (c.2 = lz)
                 && negb (bool_decide (Some c.1 = Model.hostId room)))
           (currentRoomPlayers s) (Model.players room) Hroster).
Qed.

End Agreement.

Lemma playerById_unique room (me : Model.Player) :
  NoDup (Model.id <$> Model.players room) →
  me ∈ Model.players room →
  ZoneHostMore.playerById room (Model.id me) = Some me.
Proof.
  intros Hnd Hme.
  destruct (ZoneHostMore.find_elem_of
              (λ x, bool_decide (Model.id x = Model.id me))
              (Model.players room) me) as [me' Hfind];
    [done|by apply bool_decide_eq_true|].
  fold (ZoneHostMore.playerById room (Model.id me)) in Hfind.
  pose proof (ZoneHostMore.playerById_Some _ _ _ Hfind) as [Hin Hid].
  rewrite Hfind. f_equal.
  by apply (ZoneHostMore.same_id_same_player (Model.players room)).
Qed.

Lemma findHost_unique room (h : Model.Player) :
  NoDup (Model.id <$> Model.players room) →
  h ∈ Model.players room →
  Model.hostId room = Some (Model.id h) →
  ZoneHost.findHost room = Some h.
Proof.
  intros Hnd Hin Hid.
  rewrite (ZoneHostMore.playerById_host room (Model.id h) Hid).
  by apply playerById_unique.
Qed.

(** Agreement when the client and the server run the same collation. *)
Lemma same_collation_agrees
    (localeCompare : string → string → Z) room s0 g nm pid me :
  game s0 = Some g →
  networkManager s0 = Some nm →
  playerId nm = Some pid →
  sameRoster room s0 →
  NoDup (Model.id <$> Model.players room) →
  (∃ h, h ∈ Model.players room ∧ Model.hostId room = Some (Model.id h)) →
  me ∈ Model.players room →
  Model.id me = pid →
  Model.zone me = localZone g →
  isAuthoritative
    (updateZoneHostStatus localeCompare (setHostId (Model.hostId room) s0)).1
  = ZoneHost.isPlayerZoneHost localeCompare room pid.
Proof.
  intros Hg Hnm Hpid Hroster Hnd (h & Hh & Hhid) Hme Hmeid Hzone.
  set (s := setHostId (Model.hostId room) s0).
  assert (sameRoster room s) as Hroster' by done.
  assert (currentHostId s = Model.hostId room) as Hhost' by done.
  assert (game s = Some {| isHost := bool_decide (Some pid = Model.hostId room);
                           isZoneHost := isZoneHost g; zoneId := zoneId g |})
    as Hgs.
  { unfold s, setHostId. simpl. by rewrite Hg, Hnm, Hpid. }
  assert (networkManager s = Some nm) as Hnms by done.
  (* the server's side *)
  unfold ZoneHost.isPlayerZoneHost.
  fold (ZoneHostMore.playerById room pid).
  rewrite <- Hmeid, (playerById_unique room me Hnd Hme), Hmeid.
  pose proof (findHost_unique room h Hnd Hh Hhid) as Hfind.
  (* the client's side *)
  unfold updateZoneHostStatus. rewrite Hgs, Hnms. simpl.
  destruct (decide (Some pid = Model.hostId room)) as [Hishost|Hguest].
  - rewrite (bool_decide_eq_true_2 _ Hishost). simpl.
    unfold isAuthoritative, setIsZoneHost. rewrite Hgs. simpl.
    rewrite (bool_decide_eq_true_2 _ Hishost). simpl.
    assert (h = me) as ->.
    { apply (ZoneHostMore.same_id_same_player (Model.players room));
        [done..|congruence]. }
    unfold ZoneHost.getZoneHost.
    destruct (Model.players room) as [|p0 ps] eqn:Hps;
      [by apply elem_of_nil in Hme|].
    rewrite Hfind. rewrite bool_decide_eq_true_2 by done.
    symmetry. by apply bool_decide_eq_true.
  - rewrite (bool_decide_eq_false_2 _ Hguest). simpl.
    unfold isAuthoritative, setIsZoneHost. rewrite Hgs. simpl.
    rewrite (bool_decide_eq_false_2 _ Hguest). simpl.
    change (localZone {| isHost := false; isZoneHost := isZoneHost g;
                         zoneId := zoneId g |}) with (localZone g).
    rewrite <- Hzone, Hpid.
    (* the host as the client sees it *)
    pose proof (hostPlayer_server room s Hroster' Hhost') as Hhp.
    rewrite Hfind in Hhp. unfold hostZone.
    destruct (hostPlayer s) as [hc|]; [|done].
    injection Hhp as Hhcid Hhczone. rewrite Hhczone.
    unfold ZoneHost.getZoneHost.
    destruct (Model.players room) as [|p0 ps] eqn:Hps;
      [by apply elem_of_nil in Hme|].
    rewrite Hfind.
    destruct (decide (Model.zone h = Model.zone me)) as [Hsame|Hother].
    + rewrite !(bool_decide_eq_true_2 _ Hsame).
      symmetry. apply bool_decide_eq_false. congruence.
    + rewrite !(bool_decide_eq_false_2 _ Hother). cbv beta iota zeta.
      pose proof (playersInMyZone_server localeCompare room s Hroster' Hhost'
                    (Model.zone me)) as Hsorted.
      rewrite Hps in Hsorted.
      assert (List.filter
                (λ p, bool_decide (Model.zone p = Model.zone me)
                      && negb (bool_decide
                                 (Some (Model.id p) = Model.hostId room)))
                (p0 :: ps)
              = List.filter
                  (λ p, bool_decide (Model.zone p = Model.zone me))
                  (p0 :: ps)) as Hfilter.
      { apply filter_ext_in. intros p Hp. apply list_elem_of_In in Hp.
        destruct (decide (Model.zone p = Model.zone me)) as [Hpz|Hpz];
          [|by rewrite (bool_decide_eq_false_2 _ Hpz)].
        rewrite (bool_decide_eq_true_2 _ Hpz). simpl.
        rewrite bool_decide_eq_false_2; [done|].
        intros Hphost. destruct Hother. rewrite <- Hpz. f_equal.
        apply (ZoneHostMore.same_id_same_player (p0 :: ps));
          [assumption..|congruence]. }
      rewrite Hfilter in Hsorted. unfold zoneHostId.
      destruct (playersInMyZone localeCompare s (Model.zone me)) as [|pc pcs];
        destruct (sort _ _) as [|ps0 pss]; simpl in *; try done.
      injection Hsorted as Hid _ _.
      rewrite Hid. destruct (decide (Model.id ps0 = pid)) as [He|Hne].
      * by rewrite !bool_decide_eq_true_2 by congruence.
      * by rewrite !bool_decide_eq_false_2 by congruence.
Qed.

(** Sorting looks at the comparator on the elements of the array only. *)
Lemma sort_insert_ext_in {A} (f g : A → A → Z) x (l : list A) :
  (∀ y, y ∈ l → (f x y <= 0 ↔ g x y <= 0)) →
  sort_insert f x l = sort_insert g x l.
Proof.
  induction l as [|y l IH]; intros Hfg; simpl; [done|].
  assert ((f x y <=? 0) = (g x y <=? 0)) as ->.
  { pose proof (Hfg y (list_elem_of_here _ _)) as Hy.
    destruct (g x y <=? 0) eqn:Hg.
    - apply Z.leb_le. apply Hy. by apply Z.leb_le.
    - apply Z.leb_gt. apply Z.leb_gt in Hg. lia. }
  destruct (g x y <=? 0); [done|]. f_equal. apply IH.
  intros y' Hy'. apply Hfg. by right.
Qed.

Lemma sort_ext_in {A} (f g : A → A → Z) (l : list A) :
  (∀ x y, x ∈ l → y ∈ l → (f x y <= 0 ↔ g x y <= 0)) →
  sort f l = sort g l.
Proof.
  induction l as [|x l IH]; intros Hfg; simpl; [done|].
  rewrite IH by (intros y y' Hy Hy'; apply Hfg; by right).
  apply sort_insert_ext_in. intros y Hy. apply sort_elem in Hy.
  apply Hfg; [by left|by right].
Qed.

(** [updateZoneHostStatus] looks at the collation on the ids of the roster
    only. *)
Lemma updateZoneHostStatus_collation
    (clientCompare serverCompare : string → string → Z) s :
  (∀ a b, a ∈ id <$> currentRoomPlayers s → b ∈ id <$> currentRoomPlayers s →
          (clientCompare a b <= 0 ↔ serverCompare a b <= 0)) →
  updateZoneHostStatus clientCompare s = updateZoneHostStatus serverCompare s.
Proof.
  intros Hsame.
  assert (∀ lz, zoneHostId clientCompare s lz = zoneHostId serverCompare s lz)
    as Hchoice.
  { intros lz. unfold zoneHostId, playersInMyZone.
    rewrite (sort_ext_in (byId clientCompare) (byId serverCompare)); [done|].
    intros p q Hp Hq. unfold byId.
    apply list_elem_of_In, filter_In in Hp as [Hp%list_elem_of_In _].
    apply list_elem_of_In, filter_In in Hq as [Hq%list_elem_of_In _].
    apply Hsame; by apply list_elem_of_fmap_2. }
  unfold updateZoneHostStatus.
  destruct (game s) as [g|]; [|done].
  destruct (networkManager s) as [nm|]; [|done].
  destruct (isHost g); [done|]. cbv zeta. by rewrite Hchoice.
Qed.

(** X9. The client and the server agree on who is authoritative, as long
    as their collations do.  The two sides sort ids with the
    [localeCompare] of their own platform; let the client's order any two
    ids of the roster as the server's does.  Let the client hold the
    server's roster (same ids and zones, same order) and let it have been
    told the room's host id by [setHostId]; let the roster have no
    duplicate ids and contain the host and the local player, the latter in
    the zone the client is in.  Then, after [updateZoneHostStatus],
    [isAuthoritative] on the client is what [isPlayerZoneHost] answers for
    the local player on the server. *)
Theorem client_agrees_with_server
    (clientCompare serverCompare : string → string → Z) room s0 g nm pid me :
  (∀ a b, a ∈ Model.id <$> Model.players room →
          b ∈ Model.id <$> Model.players room →
          (clientCompare a b <= 0 ↔ serverCompare a b <= 0)) →
  game s0 = Some g →
  networkManager s0 = Some nm →
  playerId nm = Some pid →
  sameRoster room s0 →
  NoDup (Model.id <$> Model.players room) →
  (∃ h, h ∈ Model.players room ∧ Model.hostId room = Some (Model.id h)) →
  me ∈ Model.players room →
  Model.id me = pid →
  Model.zone me = localZone g →
  isAuthoritative
    (updateZoneHostStatus clientCompare (setHostId (Model.hostId room) s0)).1
  = ZoneHost.isPlayerZoneHost serverCompare room pid.
Proof.
  intros Hsame Hg Hnm Hpid Hroster Hnd Hh Hme Hmeid Hzone.
  rewrite (updateZoneHostStatus_collation clientCompare serverCompare).
  - by apply (same_collation_agrees serverCompare room s0 g nm pid me).
  - assert (id <$> currentRoomPlayers (setHostId (Model.hostId room) s0)
            = Model.id <$> Model.players room) as ->; [|done].
    change (currentRoomPlayers (setHostId (Model.hostId room) s0))
      with (currentRoomPlayers s0).
    unfold sameRoster in Hroster.
    apply (f_equal (fmap fst)) in Hroster.
    by rewrite <- !list_fmap_compose in Hroster.
Qed.

(** A collation that orders as [codeUnitCompare] does and returns other
    numbers, as the engines of two platforms may. *)
Definition widerCompare (a b : string) : Z := 2 * codeUnitCompare a b.

(** The test scenario seen from the client of [p1], before it is told who
    the host is. *)
Lemma client_agrees_with_server_witness :
  let s0 := GameStateProofs.guestInArchive in
  let g := {| isHost := false; isZoneHost := false;
              zoneId := Some "archive" |} in
  let nm := {| playerId := Some "p1" |} in
  let me := ZoneHostProofs.mkPlayer "p1" "archive" in
  (∀ a b, a ∈ Model.id <$> Model.players ZoneHostMore.hostInHub →
          b ∈ Model.id <$> Model.players ZoneHostMore.hostInHub →
          (widerCompare a b <= 0 ↔ codeUnitCompare a b <= 0)) ∧
  game s0 = Some g ∧
  networkManager s0 = Some nm ∧
  playerId nm = Some "p1" ∧
  sameRoster ZoneHostMore.hostInHub s0 ∧
  NoDup (Model.id <$> Model.players ZoneHostMore.hostInHub) ∧
  (∃ h, h ∈ Model.players ZoneHostMore.hostInHub ∧
        Model.hostId ZoneHostMore.hostInHub = Some (Model.id h)) ∧
  me ∈ Model.players ZoneHostMore.hostInHub ∧
  Model.id me = "p1" ∧
  Model.zone me = localZone g ∧
  isAuthoritative
    (updateZoneHostStatus widerCompare
       (setHostId (Model.hostId ZoneHostMore.hostInHub) s0)).1
  = ZoneHost.isPlayerZoneHost codeUnitCompare ZoneHostMore.hostInHub "p1".
Proof.
  intros s0 g nm me.
  assert (∀ a b, a ∈ Model.id <$> Model.players ZoneHostMore.hostInHub →
                 b ∈ Model.id <$> Model.players ZoneHostMore.hostInHub →
                 (widerCompare a b <= 0 ↔ codeUnitCompare a b <= 0))
    as Hsame by (intros a b _ _; unfold widerCompare; lia).
  assert (∃ h, h ∈ Model.players ZoneHostMore.hostInHub ∧
               Model.hostId ZoneHostMore.hostInHub = Some (Model.id h)) as Hh.
  { exists (ZoneHostProofs.mkPlayer "zz-host" "hub"). split; [by left|done]. }
  assert (me ∈ Model.players ZoneHostMore.hostInHub) as Hme
    by (simpl; right; right; left).
  split; [exact Hsame|].
  split; [reflexivity|]. split; [reflexivity|]. split; [reflexivity|].
  split; [reflexivity|]. split; [exact ZoneHostMore.hostInHub_ids_NoDup|].
  split; [exact Hh|]. split; [exact Hme|]. split; [reflexivity|].
  split; [reflexivity|].
  exact (client_agrees_with_server widerCompare codeUnitCompare
           ZoneHostMore.hostInHub s0 g nm "p1" me Hsame eq_refl eq_refl
           eq_refl eq_refl ZoneHostMore.hostInHub_ids_NoDup Hh Hme eq_refl
           eq_refl).
Defined.

(** The condition on the collations is needed: a client that sorts the
    ids of the same roster the other way round picks [p3] for [archive]
    and does not take itself for authoritative, while the server names
    [p1]. *)
Example collations_must_agree :
  isAuthoritative
    (updateZoneHostStatus (λ a b, codeUnitCompare b a)
       (setHostId (Model.hostId ZoneHostMore.hostInHub)
          GameStateProofs.guestInArchive)).1 = false ∧
  ZoneHost.isPlayerZoneHost codeUnitCompare ZoneHostMore.hostInHub "p1" = true.
Proof. vm_compute. split; reflexivity. Qed.

Section ZonePlayers.
Context (localeCompare : string → string → Z).

(** X11. A player flagged zone host by [updateZoneHostStatus] is one of
    [getZonePlayers], the roster entries of the zone the client is in, and
    is not the main host. *)
Theorem zone_host_is_among_zone_players s g nm pid :
  game s = Some g →
  networkManager s = Some nm →
  playerId nm = Some pid →
  flagAfter localeCompare s = Some true →
  Some pid ≠ currentHostId s ∧
  ∃ p, p ∈ getZonePlayers s ∧ id p = pid.
Proof.
  intros Hg Hnm Hpid. unfold flagAfter, updateZoneHostStatus, getZonePlayers.
  rewrite Hg, Hnm. destruct (isHost g).
  { unfold setIsZoneHost. rewrite Hg. simpl. done. }
  cbv zeta. unfold setIsZoneHost. rewrite Hg. simpl.
  case_bool_decide as Hz; [done|]. intros [= Hflag].
  apply bool_decide_eq_true in Hflag. rewrite Hpid in Hflag.
  pose proof (GameStateProofs.elem_of_candidates localeCompare s (localZone g))
    as Hcand.
  unfold zoneHostId, playersInMyZone in Hflag.
  destruct (sort _ _) as [|p rest] eqn:Hs; [done|].
  injection Hflag as Hid.
  assert (p ∈ sort (byId localeCompare)
                (List.filter
                   (λ p, bool_decide (zone p = localZone g)
                         && negb (bool_decide (Some (id p) = currentHostId s)))
                   (currentRoomPlayers s))) as Hin
    by (rewrite Hs; by left).
  apply sort_elem, Hcand in Hin as (Hroster & Hzone & Hnothost).
  split; [congruence|]. exists p. split; [|done].
  apply list_elem_of_In, filter_In. split; [by apply list_elem_of_In|].
  by apply bool_decide_eq_true.
Qed.

End ZonePlayers.

(** The guest [p1], who becomes zone host of [archive]. *)
Lemma zone_host_is_among_zone_players_witness :
  let s := GameStateProofs.guestInArchive in
  game s = Some {| isHost := false; isZoneHost := false;
                   zoneId := Some "archive" |} ∧
  networkManager s = Some {| playerId := Some "p1" |} ∧
  flagAfter codeUnitCompare s = Some true ∧
  Some "p1" ≠ currentHostId s ∧
  ∃ p, p ∈ getZonePlayers s ∧ id p = "p1".
Proof.
  intros s. split; [reflexivity|]. split; [reflexivity|].
  split; [reflexivity|].
  exact (zone_host_is_among_zone_players codeUnitCompare s _
           {| playerId := Some "p1" |} "p1" eq_refl eq_refl eq_refl eq_refl).
Defined.

End GameStateMore.

(** ** The life of a connection *)
Module LifecycleProofs.
Import Gateway.

(** Stand-ins for the platform on the headers used below: neither header
    has blanks to normalise or to trim. *)
Definition normalizeClean (s : string) : string := s.
Definition trimClean (s : string) : string := s.

Definition fromSocket (address : string) : Lifecycle.ConnRequest :=
  {| Lifecycle.sessionAuthenticated := true;
     Lifecycle.forwardedFor := None;
     Lifecycle.remoteAddress := Some address |}.

Example forwarded_first_entry :
  Lifecycle.getClientIp normalizeClean trimClean
    {| Lifecycle.sessionAuthenticated := true;
       Lifecycle.forwardedFor := Some "198.51.100.4,10.0.0.1";
       Lifecycle.remoteAddress := Some "10.0.0.1" |}
  = "198.51.100.4".
Proof. vm_compute. reflexivity. Qed.

Example sixth_connection_turned_away :
  Lifecycle.onConnection normalizeClean trimClean 7 (fromSocket "10.0.0.1")
    {["10.0.0.1" := 5]}
  = (None, {["10.0.0.1" := 5]}, [Close 1008 "Too many connections"]).
Proof. vm_compute. reflexivity. Qed.

Example connect_then_close :
  Lifecycle.serve normalizeClean trimClean
    [Lifecycle.Connect 1 (fromSocket "10.0.0.1");
     Lifecycle.Connect 2 (fromSocket "10.0.0.1");
     Lifecycle.Disconnect 0]
  = ({["10.0.0.1" := 1]}, [accepted "10.0.0.1" 2]).
Proof. vm_compute. reflexivity. Qed.

(** X12. Registering a connection and unregistering it again is a round
    trip: on every map that calls of the two functions can produce, a
    successful [registerWsConnection] followed by [unregisterWsConnection]
    for the same address gives the map back. *)
Theorem register_unregister_round_trip (cs : list IpCall) ip :
  (registerWsConnection ip (ipCalls cs ∅)).1 = true →
  unregisterWsConnection ip (registerWsConnection ip (ipCalls cs ∅)).2
  = ipCalls cs ∅.
Proof.
  assert (ConnectionCapProofs.counts_ok (ipCalls cs ∅)) as Hok.
  { apply ConnectionCapProofs.ipCalls_ok, map_Forall_empty. }
  generalize dependent (ipCalls cs ∅). intros m Hok.
  unfold registerWsConnection, unregisterWsConnection.
  destruct (WS_MAX_CONNECTIONS_PER_IP <=? default 0 (m !! ip)); [done|].
  intros _. simpl. rewrite lookup_insert_eq. simpl.
  destruct (m !! ip) as [c|] eqn:Hc; simpl.
  - apply Hok in Hc as Hb. simpl in Hb.
    rewrite (proj2 (Z.leb_gt _ _)) by lia.
    rewrite insert_insert_eq. replace (c + 1 - 1) with c by lia.
    by apply insert_id.
  - by apply delete_insert_id.
Qed.

Lemma register_unregister_round_trip_witness :
  (registerWsConnection "10.0.0.1"
     (ipCalls [Register "10.0.0.1"; Register "10.0.0.2"] ∅)).1 = true ∧
  unregisterWsConnection "10.0.0.1"
    (registerWsConnection "10.0.0.1"
       (ipCalls [Register "10.0.0.1"; Register "10.0.0.2"] ∅)).2
  = ipCalls [Register "10.0.0.1"; Register "10.0.0.2"] ∅.
Proof.
  split; [reflexivity|].
  exact (register_unregister_round_trip
           [Register "10.0.0.1"; Register "10.0.0.2"] "10.0.0.1" eq_refl).
Defined.

(** *** Live connections and their counts *)

(** How many of the live connections are registered under [ip]. *)
Fixpoint liveAt (ip : string) (live : list WsConn) : Z :=
  match live with
  | [] => 0
  | ws :: rest => (if bool_decide (clientIp ws = ip) then 1 else 0)
                  + liveAt ip rest
  end.

Lemma liveAt_nonneg ip live : 0 <= liveAt ip live.
Proof. induction live; simpl; [lia|]. case_bool_decide; lia. Qed.

Lemma liveAt_app ip l1 l2 : liveAt ip (l1 ++ l2) = liveAt ip l1 + liveAt ip l2.
Proof. induction l1; simpl; [lia|]. case_bool_decide; lia. Qed.

Lemma liveAt_delete ip live i ws :
  live !! i = Some ws →
  liveAt ip (delete i live)
  = liveAt ip live - (if bool_decide (clientIp ws = ip) then 1 else 0).
Proof.
  intros Hi. rewrite <- (take_drop_middle live i ws Hi) at 2.
  rewrite delete_take_drop, !liveAt_app. simpl. lia.
Qed.

Section WithPlatform.
Context (normalizeSafeString trim : string → string).

#[local] Abbreviation getClientIp :=
  (Lifecycle.getClientIp normalizeSafeString trim).
#[local] Abbreviation onConnection :=
  (Lifecycle.onConnection normalizeSafeString trim).
#[local] Abbreviation handle := (Lifecycle.handle normalizeSafeString trim).
#[local] Abbreviation serve := (Lifecycle.serve normalizeSafeString trim).

(** The counts are exact: each address is stored with the number of its
    live connections, and no live connection has the empty address. *)
Definition exact (st : gmap string Z * list WsConn) : Prop :=
  ConnectionCapProofs.counts_ok st.1 ∧
  (∀ ip, default 0 (st.1 !! ip) = liveAt ip st.2) ∧
  Forall (λ ws, clientIp ws ≠ "") st.2.

(** The requests of the events have an address. *)
Definition addressed (evs : list Lifecycle.Event) : Prop :=
  ∀ now request, Lifecycle.Connect now request ∈ evs → getClientIp request ≠ "".

Lemma handle_exact st ev :
  exact st →
  (∀ now request, ev = Lifecycle.Connect now request →
                  getClientIp request ≠ "") →
  exact (handle st ev).
Proof.
  destruct st as [m live]. intros (Hok & Hcount & Hne) Hev.
  simpl in Hok, Hcount, Hne.
  destruct ev as [now request|i]; simpl.
  - unfold Lifecycle.onConnection.
    destruct (Lifecycle.sessionAuthenticated request); simpl; [|done].
    pose proof (ConnectionCapProofs.registerWsConnection_ok m
                  (getClientIp request) Hok) as Hok'.
    unfold registerWsConnection in *.
    destruct (WS_MAX_CONNECTIONS_PER_IP <=? _) eqn:Hfull; simpl; [done|].
    split; [done|]. simpl. split.
    + intros ip. rewrite liveAt_app. simpl.
      destruct (decide (getClientIp request = ip)) as [<-|Hother].
      * rewrite lookup_insert_eq, bool_decide_eq_true_2 by done. simpl.
        rewrite <- Hcount. simpl. lia.
      * rewrite lookup_insert_ne, bool_decide_eq_false_2 by done.
        rewrite Hcount. simpl. lia.
    + apply Forall_app. split; [done|]. constructor; [|done].
      simpl. by apply (Hev now request).
  - destruct (live !! i) as [ws|] eqn:Hi; simpl; [|done].
    assert (clientIp ws ≠ "") as Hip.
    { rewrite Forall_forall in Hne. apply Hne.
      by apply list_elem_of_lookup_2 in Hi. }
    unfold Lifecycle.onClose, orElse.
    rewrite bool_decide_eq_false_2 by done.
    split; [by apply ConnectionCapProofs.unregisterWsConnection_ok|].
    simpl. split; [|by apply Forall_delete].
    intros ip. rewrite (liveAt_delete ip live i ws Hi).
    pose proof (liveAt_delete (clientIp ws) live i ws Hi) as Hself.
    rewrite bool_decide_eq_true_2 in Hself by done.
    pose proof (liveAt_nonneg (clientIp ws) (delete i live)) as Hnn.
    pose proof (Hcount (clientIp ws)) as Hc. simpl in Hc.
    unfold unregisterWsConnection.
    destruct (default 0 (m !! clientIp ws) <=? 1) eqn:Hlast.
    + apply Z.leb_le in Hlast.
      destruct (decide (clientIp ws = ip)) as [<-|Hother].
      * rewrite lookup_delete_eq, bool_decide_eq_true_2 by done. simpl. lia.
      * rewrite lookup_delete_ne, bool_decide_eq_false_2 by done.
        rewrite <- (Hcount ip). simpl. lia.
    + apply Z.leb_gt in Hlast.
      destruct (decide (clientIp ws = ip)) as [<-|Hother].
      * rewrite lookup_insert_eq, bool_decide_eq_true_2 by done. simpl. lia.
      * rewrite lookup_insert_ne, bool_decide_eq_false_2 by done.
        rewrite <- (Hcount ip). simpl. lia.
Qed.

Lemma serve_exact evs : addressed evs → exact (serve evs).
Proof.
  unfold Lifecycle.serve. intros Haddr.
  assert (exact (∅, [])) as Hinit.
  { split; [apply map_Forall_empty|]. split; [done|constructor]. }
  generalize dependent (∅ : gmap string Z, [] : list WsConn).
  induction evs as [|ev evs IH]; intros st Hst; simpl; [done|].
  apply IH.
  - intros now request Hin. apply (Haddr now request). by right.
  - apply handle_exact; [done|]. intros now request ->.
    apply (Haddr now request). by left.
Qed.

(** X13. The ceiling bounds the live connections.  After any sequence of
    connections and disconnections in which every accepted request has a
    (non-empty) address, the count stored for an address is the number of
    its live connections, and no address has more than
    [WS_MAX_CONNECTIONS_PER_IP] = 5 of them. *)
Theorem live_connections_capped evs ip :
  addressed evs →
  liveAt ip (serve evs).2 = default 0 ((serve evs).1 !! ip) ∧
  liveAt ip (serve evs).2 <= 5.
Proof.
  intros Haddr. destruct (serve_exact evs Haddr) as (Hok & Hcount & _).
  rewrite <- Hcount. split; [done|].
  destruct ((serve evs).1 !! ip) as [c|] eqn:Hc; simpl; [|lia].
  apply Hok in Hc. simpl in Hc. unfold WS_MAX_CONNECTIONS_PER_IP in Hc. lia.
Qed.

(** X14. A connection accepted under the empty address is not released
    when it closes.  The first entry of an [x-forwarded-for] header that
    begins with a comma is empty; the connection is registered under the
    empty address; and the close handler, which reads
    [ws.clientIp || 'unknown'], unregisters [unknown] instead, so that the
    count of the empty address stays as registered. *)
Theorem empty_address_not_released now request fwd rest m :
  Lifecycle.sessionAuthenticated request = true →
  Lifecycle.forwardedFor request = Some fwd →
  normalizeSafeString fwd = String Lifecycle.comma rest →
  trim "" = "" →
  default 0 (m !! "") < WS_MAX_CONNECTIONS_PER_IP →
  ∃ ws m',
    onConnection now request m = (Some ws, m', []) ∧
    clientIp ws = "" ∧
    m' !! "" = Some (default 0 (m !! "") + 1) ∧
    Lifecycle.onClose ws m' !! "" = m' !! "".
Proof.
  intros Hauth Hfwd Hnorm Htrim Hroom.
  assert (getClientIp request = "") as Hip.
  { unfold Lifecycle.getClientIp. rewrite Hfwd.
    assert (orElse (Some fwd) "" = fwd) as ->.
    { unfold orElse. by case_bool_decide. }
    rewrite Hnorm. rewrite bool_decide_eq_false_2 by done.
    change (Lifecycle.firstField (String Lifecycle.comma rest)) with "".
    exact Htrim. }
  unfold Lifecycle.onConnection. rewrite Hauth, Hip. simpl.
  unfold registerWsConnection.
  rewrite (proj2 (Z.leb_gt _ _) Hroom).
  eexists _, _. split; [reflexivity|]. split; [done|].
  split; [by rewrite lookup_insert_eq|].
  unfold Lifecycle.onClose, orElse. simpl.
  unfold unregisterWsConnection.
  destruct (default 0 (_ !! "unknown") <=? 1).
  - by rewrite lookup_delete_ne.
  - by rewrite (lookup_insert_ne _ "unknown" "").
Qed.

End WithPlatform.

(** The client of a proxy that sends a header beginning with a comma. *)
Lemma empty_address_not_released_witness :
  let request :=
    {| Lifecycle.sessionAuthenticated := true;
       Lifecycle.forwardedFor := Some ",10.0.0.1";
       Lifecycle.remoteAddress := Some "10.0.0.1" |} in
  Lifecycle.sessionAuthenticated request = true ∧
  Lifecycle.forwardedFor request = Some ",10.0.0.1" ∧
  normalizeClean ",10.0.0.1" = String Lifecycle.comma "10.0.0.1" ∧
  trimClean "" = "" ∧
  default 0 ((∅ : gmap string Z) !! "") < WS_MAX_CONNECTIONS_PER_IP ∧
  ∃ ws m',
    Lifecycle.onConnection normalizeClean trimClean 7 request ∅
    = (Some ws, m', []) ∧
    clientIp ws = "" ∧
    m' !! "" = Some (default 0 ((∅ : gmap string Z) !! "") + 1) ∧
    Lifecycle.onClose ws m' !! "" = m' !! "".
Proof.
  intros request.
  split; [reflexivity|]. split; [reflexivity|]. split; [reflexivity|].
  split; [reflexivity|]. split; [reflexivity|].
  exact (empty_address_not_released normalizeClean trimClean 7 request
           ",10.0.0.1" "10.0.0.1" ∅ eq_refl eq_refl eq_refl eq_refl eq_refl).
Defined.

(** Two connections from one address, of which the first closes. *)
Definition twoThenClose : list Lifecycle.Event :=
  [Lifecycle.Connect 1 (fromSocket "10.0.0.1");
   Lifecycle.Connect 2 (fromSocket "10.0.0.1");
   Lifecycle.Disconnect 0].

Lemma twoThenClose_addressed : addressed normalizeClean trimClean twoThenClose.
Proof.
  intros now request Hin. unfold twoThenClose in Hin.
  repeat (apply elem_of_cons in Hin as [Heq|Hin];
          [inversion Heq; subst; vm_compute; discriminate|]).
  by apply elem_of_nil in Hin.
Qed.

Lemma live_connections_capped_witness :
  addressed normalizeClean trimClean twoThenClose ∧
  liveAt "10.0.0.1" (Lifecycle.serve normalizeClean trimClean twoThenClose).2
  = default 0
      ((Lifecycle.serve normalizeClean trimClean twoThenClose).1 !! "10.0.0.1") ∧
  liveAt "10.0.0.1" (Lifecycle.serve normalizeClean trimClean twoThenClose).2
  <= 5.
Proof.
  split; [exact twoThenClose_addressed|].
  exact (live_connections_capped normalizeClean trimClean twoThenClose
           "10.0.0.1" twoThenClose_addressed).
Defined.

(** *** The periodic reconciliation *)

(** How many of the sockets are open and have the address [ip]. *)
Fixpoint openAt (ip : string) (clients : list Lifecycle.Client) : Z :=
  match clients with
  | [] => 0
  | client :: rest =>
      (if bool_decide (Lifecycle.readyState client = Lifecycle.OPEN)
          && bool_decide (Lifecycle.clientIp client = Some ip)
       then 1 else 0) + openAt ip rest
  end.

Lemma openAt_nonneg ip clients : 0 <= openAt ip clients.
Proof. induction clients; simpl; [lia|]. destruct (_ && _); lia. Qed.

Lemma actualCounts_from (counts : gmap string Z) clients ip :
  default 0
    (foldl
       (λ (counts : gmap string Z) client,
          match Lifecycle.clientIp client with
          | Some ip =>
              if bool_decide (Lifecycle.readyState client = Lifecycle.OPEN)
                 && negb (bool_decide (ip = ""))
              then <[ip := default 0 (counts !! ip) + 1]> counts
              else counts
          | None => counts
          end) counts clients !! ip)
  = default 0 (counts !! ip)
    + (if bool_decide (ip = "") then 0 else openAt ip clients).
Proof.
  revert counts. induction clients as [|client rest IH]; intros counts; simpl.
  { case_bool_decide; lia. }
  rewrite IH. destruct client as [state [cip|]]; simpl;
    repeat case_bool_decide; simplify_eq/=;
    rewrite ?lookup_insert_eq; rewrite ?lookup_insert_ne by congruence;
    simpl; lia.
Qed.

Lemma actualCounts_openAt clients ip :
  default 0 (Lifecycle.actualCounts clients !! ip)
  = if bool_decide (ip = "") then 0 else openAt ip clients.
Proof.
  unfold Lifecycle.actualCounts. rewrite actualCounts_from.
  rewrite lookup_empty. simpl. lia.
Qed.

Lemma reconcile_exact_lookup clients (m : gmap string Z) ip c :
  Lifecycle.reconcile clients m !! ip = Some c ↔
  is_Some (m !! ip) ∧ ip ≠ "" ∧ c = openAt ip clients ∧ 1 <= c.
Proof.
  unfold Lifecycle.reconcile. rewrite map_lookup_imap.
  rewrite actualCounts_openAt.
  pose proof (openAt_nonneg ip clients) as Hnn.
  destruct (m !! ip) as [old|]; simpl.
  - destruct (decide (ip = "")) as [->|Hne].
    + rewrite (bool_decide_eq_true_2 ("" = "")) by done. simpl.
      split; [done|]. intros (_ & ? & _). done.
    + rewrite (bool_decide_eq_false_2 (ip = "")) by done.
      case_bool_decide as Hzero.
      * split; [done|]. intros (_ & _ & -> & ?). lia.
      * split.
        -- intros [= <-]. repeat split; eauto; lia.
        -- intros (_ & _ & -> & _). done.
  - split; [done|]. intros ([? ?] & _). done.
Qed.

(** X15. After the periodic reconciliation every address still stored has
    a non-empty name and is stored with the number of open sockets that
    have it, at least one; an address stays exactly when it was stored
    and has an open socket, and none is added. *)
Theorem reconcile_exact clients (m : gmap string Z) ip c :
  Lifecycle.reconcile clients m !! ip = Some c ↔
  is_Some (m !! ip) ∧ ip ≠ "" ∧ c = openAt ip clients ∧ 1 <= c.
Proof. apply reconcile_exact_lookup. Qed.

(** X16. Reconciling twice against the same sockets is reconciling once. *)
Theorem reconcile_idempotent clients (m : gmap string Z) :
  Lifecycle.reconcile clients (Lifecycle.reconcile clients m)
  = Lifecycle.reconcile clients m.
Proof.
  apply map_eq. intros ip. apply option_eq. intros c.
  rewrite !reconcile_exact_lookup. split.
  - intros ([c' Hc'] & Hne & -> & Hpos).
    apply reconcile_exact_lookup in Hc' as (Hin & _). done.
  - intros (Hin & Hne & -> & Hpos). split; [|done].
    exists (openAt ip clients). by apply reconcile_exact_lookup.
Qed.

(** *** Reconciliation when no close event was missed *)

(** A live connection as a socket of [wss.clients]: open, with its
    address. *)
Definition asOpen (ws : WsConn) : Lifecycle.Client :=
  {| Lifecycle.readyState := Lifecycle.OPEN;
     Lifecycle.clientIp := Some (clientIp ws) |}.

Lemma openAt_asOpen ip live : openAt ip (asOpen <$> live) = liveAt ip live.
Proof.
  induction live as [|ws live IH]; [done|].
  rewrite fmap_cons. cbn [openAt liveAt]. rewrite IH.
  unfold asOpen at 1 2. cbn [Lifecycle.readyState Lifecycle.clientIp].
  rewrite (bool_decide_eq_true_2 (Lifecycle.OPEN = Lifecycle.OPEN)) by done.
  simpl. destruct (decide (clientIp ws = ip)) as [->|Hne].
  - by rewrite !bool_decide_eq_true_2.
  - by rewrite !bool_decide_eq_false_2 by congruence.
Qed.

(** X17. As long as every connection has an address and no close event is
    missed, the periodic reconciliation has nothing to heal: run against
    the live connections after any sequence of connections and
    disconnections, it leaves the counts as they are. *)
Theorem reconcile_changes_nothing
    (normalizeSafeString trim : string → string) evs :
  addressed normalizeSafeString trim evs →
  Lifecycle.reconcile
    (asOpen <$> (Lifecycle.serve normalizeSafeString trim evs).2)
    (Lifecycle.serve normalizeSafeString trim evs).1
  = (Lifecycle.serve normalizeSafeString trim evs).1.
Proof.
  intros Haddr.
  destruct (serve_exact _ _ evs Haddr) as (Hok & Hcount & Hne).
  destruct (Lifecycle.serve normalizeSafeString trim evs) as [m live].
  cbn [fst snd] in *. apply map_eq. intros ip. apply option_eq. intros c.
  rewrite reconcile_exact_lookup, openAt_asOpen.
  specialize (Hcount ip). split.
  - intros ([c' Hc'] & Hip & -> & Hpos). rewrite Hc' in Hcount |- *.
    simpl in Hcount. by rewrite Hcount.
  - intros Hc. rewrite Hc in Hcount. simpl in Hcount.
    apply Hok in Hc as Hb. simpl in Hb. split; [by rewrite Hc; eauto|].
    split; [|split; [done|lia]].
    intros ->. assert (liveAt "" live = 0); [|lia].
    clear -Hne. induction Hne as [|ws live Hws _ IH]; simpl; [done|].
    by rewrite bool_decide_eq_false_2, IH.
Qed.

Lemma reconcile_changes_nothing_witness :
  addressed normalizeClean trimClean twoThenClose ∧
  Lifecycle.reconcile
    (asOpen <$> (Lifecycle.serve normalizeClean trimClean twoThenClose).2)
    (Lifecycle.serve normalizeClean trimClean twoThenClose).1
  = (Lifecycle.serve normalizeClean trimClean twoThenClose).1.
Proof.
  split; [exact twoThenClose_addressed|].
  exact (reconcile_changes_nothing normalizeClean trimClean twoThenClose
           twoThenClose_addressed).
Defined.

End LifecycleProofs.

(** ** What the message handler dispatches *)
Module MessageProofs.
Import Gateway.

Section WithPlatform.
Context (JSON_parse : string → option Json)
        (MESSAGE_HANDLERS : option Json → bool).

#[local] Abbreviation parseWsPayload :=
  (parseWsPayload JSON_parse MESSAGE_HANDLERS).
#[local] Abbreviation onMessage := (onMessage JSON_parse MESSAGE_HANDLERS).
#[local] Abbreviation onMessages := (onMessages JSON_parse MESSAGE_HANDLERS).

(** What a frame may cause: nothing, the limiter's close, or the dispatch
    of the object it parses to, whose [type] has a handler. *)
Definition lawful (message : string) (effects : list Effect) : Prop :=
  effects = [] ∨
  effects = [Close 1008 "Rate limit exceeded"] ∨
  ∃ fields, effects = [Dispatch (JObj fields)] ∧
            JSON_parse message = Some (JObj fields) ∧
            MESSAGE_HANDLERS (fieldOf "type" fields) = true.

Lemma parseWsPayload_Some message data :
  parseWsPayload message = Some data →
  ∃ fields, data = JObj fields ∧
            JSON_parse message = Some (JObj fields) ∧
            MESSAGE_HANDLERS (fieldOf "type" fields) = true.
Proof.
  unfold Gateway.parseWsPayload.
  destruct (JSON_parse message) as [[| | | | |fields]|]; try done.
  destruct (MESSAGE_HANDLERS (fieldOf "type" fields)) eqn:Hh; [|done].
  intros [= <-]. eauto.
Qed.

Lemma onMessage_lawful now message ws : lawful message (onMessage now message ws).2.
Proof.
  unfold Gateway.onMessage. cbv zeta.
  destruct (WS_RATE_LIMIT_MAX_MESSAGES <? _); simpl; [right; by left|].
  destruct (parseWsPayload message) as [data|] eqn:Hp; simpl; [|by left].
  apply parseWsPayload_Some in Hp as (fields & -> & Hparse & Hh).
  right. right. eauto.
Qed.

(** X18. Whatever arrives on a connection, each frame causes at most one
    effect, and the only thing ever handed to a handler is the object the
    frame parses to, with a [type] for which a handler is registered:
    arrays, strings, numbers, [null], unparseable text and objects of an
    unknown kind are never dispatched. *)
Theorem only_registered_objects_dispatched frames :
  ∀ ws,
  Forall2 lawful (snd <$> frames) (onMessages frames ws).2.
Proof.
  induction frames as [|[now message] frames IH]; intros ws; simpl;
    [constructor|].
  pose proof (onMessage_lawful now message ws) as Hlaw.
  destruct (onMessage now message ws) as [ws' effects].
  specialize (IH ws').
  destruct (onMessages frames ws') as [ws'' later]. simpl in *.
  by constructor.
Qed.

End WithPlatform.

End MessageProofs.

(** ** The upgrade handler as a whole *)
Module UpgradeProofs.
Import Gateway.

Section WithPlatform.
Context (normalizeSafeString : string → string)
        (URL_host : string → option string)
        (APP_ORIGIN : option string).

#[local] Abbreviation onUpgrade :=
  (onUpgrade normalizeSafeString URL_host APP_ORIGIN).
#[local] Abbreviation originAccepted :=
  (OriginProofs.originAccepted normalizeSafeString URL_host APP_ORIGIN).

(** The origin check lets the request pass. *)
Definition originPasses (request : Request) : Prop :=
  ∀ o, origin request = Some o → o ≠ "" → originAccepted o request.

(** X19. An upgrade is handed to the WebSocket server exactly when the
    session is authenticated and the origin check lets the request pass;
    it is answered 401 exactly when the origin check lets it pass and the
    session is not authenticated.  So no connection is ever made without
    an authenticated session, and a refused origin is answered 403 before
    the session is looked at. *)
Theorem upgrade_needs_session_and_origin request :
  (onUpgrade request = HandleUpgrade ↔
   sessionAuthenticated request = true ∧ originPasses request) ∧
  (onUpgrade request = Unauthorized401 ↔
   sessionAuthenticated request = false ∧ originPasses request).
Proof.
  unfold Gateway.onUpgrade.
  set (refused := match origin request with
                  | Some o => negb (bool_decide (o = ""))
                              && negb (isAllowedWsOrigin normalizeSafeString
                                         URL_host APP_ORIGIN o request)
                  | None => false
                  end).
  assert (refused = false ∧ originPasses request ∨
          refused = true ∧ ¬ originPasses request) as Hcases.
  { unfold refused, originPasses. destruct (origin request) as [o|].
    - destruct (decide (o = "")) as [->|Hne].
      + left. rewrite bool_decide_eq_true_2 by done.
        split; [done|]. by intros ? [= <-].
      + rewrite bool_decide_eq_false_2 by done. simpl.
        destruct (isAllowedWsOrigin _ _ _ o request) eqn:Hal; simpl.
        * left. split; [done|]. intros ? [= <-] _.
          by apply OriginProofs.isAllowedWsOrigin_spec.
        * right. split; [done|]. intros Hpass.
          specialize (Hpass o eq_refl Hne).
          apply OriginProofs.isAllowedWsOrigin_spec in Hpass. congruence.
    - left. split; [done|]. by intros ? [=]. }
  destruct Hcases as [[-> Hpass]|[-> Hno]];
    destruct (sessionAuthenticated request); simpl; intuition congruence.
Qed.

End WithPlatform.

End UpgradeProofs.

(** ** The login route *)
Module AuthProofs.
Import Auth.

#[global] Instance Response_eq_dec : EqDecision Response.
Proof. solve_decision. Defined.

(** Stand-ins for the platform on the passwords used below, which have no
    blanks to normalise and no upper-case letters. *)
Definition normalizeClean (s : string) : string := s.
Definition lowerClean (s : string) : string := s.

Example tenth_wrong_attempt :
  login (foldedMatch normalizeClean lowerClean (Some "hunter2")) 5000 (Some "10.0.0.1")
    (Some "guess") {["10.0.0.1" := {| count := 9; resetAt := 60000 |}]} false
  = (IncorrectPassword,
     {["10.0.0.1" := {| count := 10; resetAt := 60000 |}]}, false).
Proof. vm_compute. reflexivity. Qed.

Example eleventh_attempt_with_the_password :
  login (foldedMatch normalizeClean lowerClean (Some "hunter2")) 5001 (Some "10.0.0.1")
    (Some "hunter2") {["10.0.0.1" := {| count := 10; resetAt := 60000 |}]}
    false
  = (TooManyAttempts 55,
     {["10.0.0.1" := {| count := 11; resetAt := 60000 |}]}, false).
Proof. vm_compute. reflexivity. Qed.

Example the_password_clears_the_entry :
  login (foldedMatch normalizeClean lowerClean (Some "hunter2")) 5000 (Some "10.0.0.1")
    (Some "hunter2") {["10.0.0.1" := {| count := 9; resetAt := 60000 |}]}
    false
  = (LoggedIn, ∅, true).
Proof. vm_compute. reflexivity. Qed.

Section WithComparison.
Context (passwordsMatch : option string → bool).

#[local] Abbreviation login := (login passwordsMatch).
#[local] Abbreviation logins := (logins passwordsMatch).

(** The address has used up its attempts: it has an entry whose window is
    running and which already counts the maximum. *)
Definition lockedOut (now : Z) (reqIp : option string)
    (m : gmap string Entry) : Prop :=
  ∃ entry, m !! orElse reqIp "unknown" = Some entry ∧
           now < resetAt entry ∧ LOGIN_RATE_LIMIT_MAX <= count entry.

Lemma login_running now reqIp password (m : gmap string Entry) auth entry :
  m !! orElse reqIp "unknown" = Some entry →
  now < resetAt entry →
  login now reqIp password m auth =
  let ip := orElse reqIp "unknown" in
  let m' := <[ip := {| count := count entry + 1;
                       resetAt := resetAt entry |}]> m in
  if LOGIN_RATE_LIMIT_MAX <=? count entry
  then (TooManyAttempts (ceilSeconds (resetAt entry - now)), m', auth)
  else if passwordsMatch password then (LoggedIn, delete ip m', true)
       else (IncorrectPassword, m', auth).
Proof.
  intros Hentry Hrun. unfold Auth.login. cbv zeta. rewrite Hentry.
  rewrite (proj2 (Z.ltb_lt _ _) Hrun). simpl.
  unfold LOGIN_RATE_LIMIT_MAX.
  destruct (10 <=? count entry) eqn:Hfull.
  - apply Z.leb_le in Hfull. by rewrite (proj2 (Z.ltb_lt _ _)) by lia.
  - apply Z.leb_gt in Hfull. by rewrite (proj2 (Z.ltb_ge _ _)) by lia.
Qed.

Lemma login_new_window now reqIp password (m : gmap string Entry) auth :
  (∀ entry, m !! orElse reqIp "unknown" = Some entry → resetAt entry <= now) →
  login now reqIp password m auth =
  let ip := orElse reqIp "unknown" in
  let m' := <[ip := {| count := 1;
                       resetAt := now + LOGIN_RATE_LIMIT_WINDOW_MS |}]> m in
  if passwordsMatch password then (LoggedIn, delete ip m', true)
  else (IncorrectPassword, m', auth).
Proof.
  intros Hover. unfold Auth.login. cbv zeta.
  destruct (m !! orElse reqIp "unknown") as [entry|] eqn:Hentry; [|done].
  by rewrite (proj2 (Z.ltb_ge _ _) (Hover entry eq_refl)).
Qed.

Lemma login_outcome now reqIp password (m : gmap string Entry) auth :
  ((login now reqIp password m auth).1.1 = LoggedIn ↔
   passwordsMatch password = true ∧ ¬ lockedOut now reqIp m) ∧
  ((login now reqIp password m auth).1.1 = LoggedIn →
   (login now reqIp password m auth).1.2 !! orElse reqIp "unknown" = None) ∧
  (login now reqIp password m auth).2
  = auth || bool_decide ((login now reqIp password m auth).1.1 = LoggedIn).
Proof.
  destruct (m !! orElse reqIp "unknown") as [entry|] eqn:Hentry.
  - destruct (decide (now < resetAt entry)) as [Hrun|Hover].
    + rewrite (login_running now reqIp password m auth entry Hentry Hrun).
      cbv zeta. destruct (LOGIN_RATE_LIMIT_MAX <=? count entry) eqn:Hfull.
      * apply Z.leb_le in Hfull. simpl. split; [|split; [done|]].
        -- split; [done|]. intros [_ Hno]. destruct Hno. by exists entry.
        -- by rewrite orb_false_r.
      * apply Z.leb_gt in Hfull.
        assert (¬ lockedOut now reqIp m) as Hfree.
        { intros (e & He & _ & Hmax). rewrite Hentry in He.
          injection He as <-. lia. }
        destruct (passwordsMatch password) eqn:Hpw; simpl.
        -- split; [done|]. split; [|by rewrite orb_true_r].
           intros _. by rewrite lookup_delete_eq.
        -- split; [by split; [|intros [? _]]|]. split; [done|].
           by rewrite orb_false_r.
    + rewrite (login_new_window now reqIp password m auth).
      2:{ intros e He. rewrite Hentry in He. injection He as <-. lia. }
      assert (¬ lockedOut now reqIp m) as Hfree.
      { intros (e & He & Hrun & _). rewrite Hentry in He.
        injection He as <-. lia. }
      cbv zeta. destruct (passwordsMatch password) eqn:Hpw; simpl.
      * split; [done|]. split; [|by rewrite orb_true_r].
        intros _. by rewrite lookup_delete_eq.
      * split; [by split; [|intros [? _]]|]. split; [done|].
        by rewrite orb_false_r.
  - rewrite (login_new_window now reqIp password m auth).
    2:{ intros e He. rewrite Hentry in He. done. }
    assert (¬ lockedOut now reqIp m) as Hfree.
    { intros (e & He & _). rewrite Hentry in He. done. }
    cbv zeta. destruct (passwordsMatch password) eqn:Hpw; simpl.
    + split; [done|]. split; [|by rewrite orb_true_r].
      intros _. by rewrite lookup_delete_eq.
    + split; [by split; [|intros [? _]]|]. split; [done|].
      by rewrite orb_false_r.
Qed.

(** *** Locked out *)

Lemma logins_running requests :
  ∀ (m : gmap string Entry) auth reqIp entry,
  m !! orElse reqIp "unknown" = Some entry →
  Forall (λ r : Z * option string * option string,
            r.1.2 = reqIp ∧ r.1.1 < resetAt entry) requests →
  (∀ (i : nat) r, requests !! i = Some r →
                  count entry + Z.of_nat i < LOGIN_RATE_LIMIT_MAX →
                  passwordsMatch r.2 = false) →
  (logins requests m auth).2 = auth ∧
  ∀ (i : nat) r,
    requests !! i = Some r →
    (logins requests m auth).1.1 !! i =
    Some (if count entry + Z.of_nat i <? LOGIN_RATE_LIMIT_MAX
          then IncorrectPassword
          else TooManyAttempts (ceilSeconds (resetAt entry - r.1.1))).
Proof.
  induction requests as [|[[now ip] password] requests IH];
    intros m auth reqIp entry Hentry Hwin Hwrong.
  { split; [done|]. intros i r Hi. by rewrite lookup_nil in Hi. }
  apply Forall_cons in Hwin as [[Hip Hrun] Hwin]. simpl in Hip, Hrun.
  subst ip. simpl.
  rewrite (login_running now reqIp password m auth entry Hentry Hrun).
  cbv zeta.
  set (entry' := {| count := count entry + 1; resetAt := resetAt entry |}).
  set (m' := <[orElse reqIp "unknown" := entry']> m).
  assert (m' !! orElse reqIp "unknown" = Some entry') as Hentry'
    by apply lookup_insert_eq.
  assert ((if LOGIN_RATE_LIMIT_MAX <=? count entry
           then (TooManyAttempts (ceilSeconds (resetAt entry - now)), m', auth)
           else if passwordsMatch password
                then (LoggedIn, delete (orElse reqIp "unknown") m', true)
                else (IncorrectPassword, m', auth))
          = (if count entry + 0 <? LOGIN_RATE_LIMIT_MAX
             then IncorrectPassword
             else TooManyAttempts (ceilSeconds (resetAt entry - now)),
             m', auth)) as ->.
  { destruct (LOGIN_RATE_LIMIT_MAX <=? count entry) eqn:Hfull.
    - apply Z.leb_le in Hfull. by rewrite (proj2 (Z.ltb_ge _ _)) by lia.
    - apply Z.leb_gt in Hfull. rewrite (proj2 (Z.ltb_lt _ _)) by lia.
      pose proof (Hwrong 0%nat (now, reqIp, password) eq_refl) as Hw.
      simpl in Hw. by rewrite Hw by lia. }
  destruct (IH m' auth reqIp entry' Hentry' Hwin) as [Hauth Hresp].
  { intros i r Hi Hlt. apply (Hwrong (S i) r Hi). simpl in Hlt. lia. }
  destruct (logins requests m' auth) as [[responses m''] auth''].
  simpl in *. split; [done|]. intros [|i] r Hi; simpl in *.
  - by injection Hi as <-.
  - rewrite (Hresp i r Hi).
    by replace (count entry + 1 + Z.of_nat i)
      with (count entry + Z.pos (Pos.of_succ_nat i)) by lia.
Qed.

(** *** The [Retry-After] header *)

Lemma ceilSeconds_bounds d :
  0 < d <= LOGIN_RATE_LIMIT_WINDOW_MS → 1 <= ceilSeconds d <= 60.
Proof.
  unfold LOGIN_RATE_LIMIT_WINDOW_MS, ceilSeconds. intros [Hpos Hle].
  assert (- d / 1000 < 0) by (apply Z.div_lt_upper_bound; lia).
  assert (- 60 <= - d / 1000) by (apply Z.div_le_lower_bound; lia).
  lia.
Qed.

(** No window of the limiter ends later than one window after [t]. *)
Definition endsBy (t : Z) (m : gmap string Entry) : Prop :=
  map_Forall (λ _ entry, resetAt entry <= t + LOGIN_RATE_LIMIT_WINDOW_MS) m.

(** The requests arrive in order, none before [t]. *)
Fixpoint inOrderFrom (t : Z)
    (requests : list (Z * option string * option string)) : Prop :=
  match requests with
  | [] => True
  | r :: rest => t <= r.1.1 ∧ inOrderFrom r.1.1 rest
  end.

(** A 429 carries between 1 and 60 seconds. *)
Definition retryAfterInRange (response : Response) : Prop :=
  match response with
  | TooManyAttempts retryAfter => 1 <= retryAfter <= 60
  | _ => True
  end.

Lemma login_endsBy t now reqIp password (m : gmap string Entry) auth :
  endsBy t m → t <= now →
  retryAfterInRange (login now reqIp password m auth).1.1 ∧
  endsBy now (login now reqIp password m auth).1.2.
Proof.
  intros Hends Hle.
  assert (endsBy now m) as Hends'.
  { intros ip e He. apply Hends in He. simpl in *. lia. }
  destruct (m !! orElse reqIp "unknown") as [entry|] eqn:Hentry.
  - destruct (decide (now < resetAt entry)) as [Hrun|Hover].
    + rewrite (login_running now reqIp password m auth entry Hentry Hrun).
      cbv zeta. apply Hends in Hentry as Hb. simpl in Hb.
      assert (endsBy now
                (<[orElse reqIp "unknown" :=
                     {| count := count entry + 1; resetAt := resetAt entry |}]>
                   m)) as Hins.
      { apply map_Forall_insert_2; [simpl; lia|done]. }
      destruct (LOGIN_RATE_LIMIT_MAX <=? count entry); simpl.
      * split; [|done]. apply ceilSeconds_bounds. lia.
      * destruct (passwordsMatch password); simpl; split; try done.
        by apply map_Forall_delete.
    + rewrite (login_new_window now reqIp password m auth).
      2:{ intros e He. rewrite Hentry in He. injection He as <-. lia. }
      cbv zeta.
      assert (endsBy now
                (<[orElse reqIp "unknown" :=
                     {| count := 1;
                        resetAt := now + LOGIN_RATE_LIMIT_WINDOW_MS |}]> m))
        as Hins.
      { apply map_Forall_insert_2; [simpl; lia|done]. }
      destruct (passwordsMatch password); simpl; split; try done.
      by apply map_Forall_delete.
  - rewrite (login_new_window now reqIp password m auth).
    2:{ intros e He. rewrite Hentry in He. done. }
    cbv zeta.
    assert (endsBy now
              (<[orElse reqIp "unknown" :=
                   {| count := 1;
                      resetAt := now + LOGIN_RATE_LIMIT_WINDOW_MS |}]> m))
      as Hins.
    { apply map_Forall_insert_2; [simpl; lia|done]. }
    destruct (passwordsMatch password); simpl; split; try done.
    by apply map_Forall_delete.
Qed.

Lemma logins_retryAfter requests :
  ∀ t (m : gmap string Entry) auth,
  endsBy t m → inOrderFrom t requests →
  Forall retryAfterInRange (logins requests m auth).1.1.
Proof.
  induction requests as [|[[now ip] password] requests IH];
    intros t m auth Hends Hord; simpl; [constructor|].
  simpl in Hord. destruct Hord as [Hle Hord].
  destruct (login_endsBy t now ip password m auth Hends Hle) as [Hresp Hends'].
  destruct (login now ip password m auth) as [[response m'] auth'].
  simpl in *. specialize (IH now m' auth' Hends' Hord).
  destruct (logins requests m' auth') as [[responses m''] auth''].
  simpl in *. by constructor.
Qed.

(** *** What an answer depends on *)

(** The entries whose window is running at [t]. *)
Definition live (t : Z) (m : gmap string Entry) : gmap string Entry :=
  filter (λ kv, t < resetAt kv.2) m.

Lemma live_lookup t (m : gmap string Entry) ip entry :
  live t m !! ip = Some entry ↔ m !! ip = Some entry ∧ t < resetAt entry.
Proof. unfold live. by rewrite map_lookup_filter_Some. Qed.

Lemma live_later t t' (m1 m2 : gmap string Entry) :
  t <= t' → live t m1 = live t m2 → live t' m1 = live t' m2.
Proof.
  intros Hle Heq. apply map_eq. intros ip. apply option_eq. intros e.
  rewrite !live_lookup. split; intros [Hm Hrun]; (split; [|done]).
  - assert (live t m1 !! ip = Some e) as Hl by (apply live_lookup; split; [done|lia]).
    rewrite Heq in Hl. by apply live_lookup in Hl as [? _].
  - assert (live t m2 !! ip = Some e) as Hl by (apply live_lookup; split; [done|lia]).
    rewrite <- Heq in Hl. by apply live_lookup in Hl as [? _].
Qed.

Lemma live_cleanup now t (m : gmap string Entry) :
  now <= t → live t (AuthTimingSafe.cleanup now m) = live t m.
Proof.
  intros Hle. apply map_eq. intros ip. apply option_eq. intros e.
  rewrite !live_lookup. unfold AuthTimingSafe.cleanup.
  rewrite map_lookup_filter_Some.
  simpl. split; [by intros [[? _] ?]|]. intros [? ?]. repeat split; [done|lia|done].
Qed.

(** How a request is answered depends on the running entries only. *)
Lemma login_live now reqIp password (m1 m2 : gmap string Entry) auth :
  live now m1 = live now m2 →
  (login now reqIp password m1 auth).1.1 = (login now reqIp password m2 auth).1.1 ∧
  (login now reqIp password m1 auth).2 = (login now reqIp password m2 auth).2 ∧
  live now (login now reqIp password m1 auth).1.2
  = live now (login now reqIp password m2 auth).1.2.
Proof.
  intros Heq. set (ip := orElse reqIp "unknown").
  assert (∀ m : gmap string Entry,
            (∃ entry, m !! ip = Some entry ∧ now < resetAt entry ∧
                      live now m !! ip = Some entry) ∨
            ((∀ entry, m !! ip = Some entry → resetAt entry <= now) ∧
             live now m !! ip = None)) as Hcase.
  { intros m. destruct (m !! ip) as [e|] eqn:He.
    - destruct (decide (now < resetAt e)) as [Hrun|Hover].
      + left. exists e. repeat split; [done|]. by apply live_lookup.
      + right. split; [intros ? [= <-]; lia|].
        apply eq_None_not_Some. intros [e' He'].
        apply live_lookup in He' as [He' ?]. rewrite He in He'.
        injection He' as <-. lia.
    - right. split; [done|]. apply eq_None_not_Some. intros [e' He'].
      apply live_lookup in He' as [He' ?]. by rewrite He in He'. }
  assert (∀ (m : gmap string Entry) e,
            now < resetAt e → live now (<[ip := e]> m) = <[ip := e]> (live now m))
    as Hins.
  { intros m e Hrun. unfold live. by rewrite map_filter_insert_True. }
  assert (∀ m : gmap string Entry,
            live now (delete ip m) = delete ip (live now m)) as Hdel.
  { intros m. unfold live. by rewrite map_filter_delete. }
  destruct (Hcase m1) as [(e1 & He1 & Hrun1 & Hl1)|[Hover1 Hl1]];
    destruct (Hcase m2) as [(e2 & He2 & Hrun2 & Hl2)|[Hover2 Hl2]];
    rewrite Heq in Hl1; rewrite Hl1 in Hl2; try done.
  - injection Hl2 as <-.
    rewrite (login_running now reqIp password m1 auth e1 He1 Hrun1).
    rewrite (login_running now reqIp password m2 auth e1 He2 Hrun1).
    cbv zeta. fold ip.
    destruct (LOGIN_RATE_LIMIT_MAX <=? count e1); simpl;
      [|destruct (passwordsMatch password); simpl];
      repeat split; rewrite ?Hdel, !Hins by (simpl; lia); by rewrite Heq.
  - rewrite (login_new_window now reqIp password m1 auth Hover1).
    rewrite (login_new_window now reqIp password m2 auth Hover2).
    cbv zeta. fold ip. unfold LOGIN_RATE_LIMIT_WINDOW_MS.
    destruct (passwordsMatch password); simpl;
      repeat split; rewrite ?Hdel, !Hins by (simpl; lia); by rewrite Heq.
Qed.

End WithComparison.

(** X22. With the comparison that folds case, the route logs in exactly
    when the address is not locked out and the password, normalised and
    lower-cased, is not empty and is the configured one: an empty password
    never logs in.  A login removes the address's entry from the limiter,
    and the session is authenticated afterwards exactly if it was before
    or the answer is a login: neither a 401 nor a 429 ever
    authenticates. *)
Theorem login_succeeds_iff
    (normalizeSafeString toLowerCase : string → string) APP_PASSWORD
    now reqIp password (m : gmap string Entry) auth :
  let matches := foldedMatch normalizeSafeString toLowerCase APP_PASSWORD in
  let provided := toLowerCase (normalizeSafeString (orElse password "")) in
  ((login matches now reqIp password m auth).1.1 = LoggedIn ↔
   (provided ≠ "" ∧
    provided = PASSWORD normalizeSafeString toLowerCase APP_PASSWORD) ∧
   ¬ lockedOut now reqIp m) ∧
  ((login matches now reqIp password m auth).1.1 = LoggedIn →
   (login matches now reqIp password m auth).1.2 !! orElse reqIp "unknown"
   = None) ∧
  (login matches now reqIp password m auth).2
  = auth
    || bool_decide ((login matches now reqIp password m auth).1.1 = LoggedIn).
Proof.
  intros matches provided.
  destruct (login_outcome matches now reqIp password m auth)
    as (Hiff & Hgone & Hauth).
  split; [|by split]. rewrite Hiff. unfold matches, foldedMatch.
  fold provided. rewrite andb_true_iff, negb_true_iff.
  by rewrite bool_decide_eq_false, bool_decide_eq_true.
Qed.

(** X23. In the version that folds case: while the window of an address
    is running, the route checks at most [LOGIN_RATE_LIMIT_MAX] = 10
    passwords for it.  Once the entry counts ten attempts, every further
    request of the window is answered 429, with the seconds left in
    [Retry-After], whatever password it brings, the right one too, and the
    session is not authenticated. *)
Theorem login_lockout
    (normalizeSafeString toLowerCase : string → string) APP_PASSWORD
    requests (m : gmap string Entry) auth reqIp entry :
  m !! orElse reqIp "unknown" = Some entry →
  Forall (λ r : Z * option string * option string,
            r.1.2 = reqIp ∧ r.1.1 < resetAt entry) requests →
  (∀ (i : nat) r,
     requests !! i = Some r →
     count entry + Z.of_nat i < LOGIN_RATE_LIMIT_MAX →
     foldedMatch normalizeSafeString toLowerCase APP_PASSWORD r.2 = false) →
  (logins (foldedMatch normalizeSafeString toLowerCase APP_PASSWORD)
     requests m auth).2 = auth ∧
  ∀ (i : nat) r,
    requests !! i = Some r →
    (logins (foldedMatch normalizeSafeString toLowerCase APP_PASSWORD)
       requests m auth).1.1 !! i =
    Some (if count entry + Z.of_nat i <? LOGIN_RATE_LIMIT_MAX
          then IncorrectPassword
          else TooManyAttempts (ceilSeconds (resetAt entry - r.1.1))).
Proof. apply logins_running. Qed.

(** X24. In the version that folds case: when the requests arrive in
    order, every 429 the route gives since the server started carries a
    [Retry-After] between 1 and 60 seconds: never zero or negative, never
    more than the window. *)
Theorem retry_after_in_range
    (normalizeSafeString toLowerCase : string → string) APP_PASSWORD
    t requests auth :
  inOrderFrom t requests →
  Forall retryAfterInRange
    (logins (foldedMatch normalizeSafeString toLowerCase APP_PASSWORD)
       requests ∅ auth).1.1.
Proof. apply logins_retryAfter. apply map_Forall_empty. Qed.

(** Nine wrong guesses and then the password, in the window of an address
    that has made one attempt. *)
Definition guesses : list (Z * option string * option string) :=
  replicate 9 (1000, Some "10.0.0.1", Some "guess")
  ++ [(2000, Some "10.0.0.1", Some "hunter2")].

Lemma login_lockout_witness :
  let m : gmap string Entry :=
    {["10.0.0.1" := {| count := 1; resetAt := 60000 |}]} in
  let entry := {| count := 1; resetAt := 60000 |} in
  m !! orElse (Some "10.0.0.1") "unknown" = Some entry ∧
  Forall (λ r : Z * option string * option string,
            r.1.2 = Some "10.0.0.1" ∧ r.1.1 < resetAt entry) guesses ∧
  (∀ (i : nat) r, guesses !! i = Some r →
                  count entry + Z.of_nat i < LOGIN_RATE_LIMIT_MAX →
                  foldedMatch normalizeClean lowerClean (Some "hunter2") r.2
                  = false) ∧
  (logins (foldedMatch normalizeClean lowerClean (Some "hunter2")) guesses m false).2
  = false ∧
  ∀ (i : nat) r,
    guesses !! i = Some r →
    (logins (foldedMatch normalizeClean lowerClean (Some "hunter2")) guesses m false).1.1
      !! i =
    Some (if count entry + Z.of_nat i <? LOGIN_RATE_LIMIT_MAX
          then IncorrectPassword
          else TooManyAttempts (ceilSeconds (resetAt entry - r.1.1))).
Proof.
  intros m entry.
  assert (Forall (λ r : Z * option string * option string,
                    r.1.2 = Some "10.0.0.1" ∧ r.1.1 < resetAt entry) guesses)
    as Hwin.
  { apply Forall_app. split.
    - apply Forall_replicate. split; [done|]. vm_compute. reflexivity.
    - constructor; [|constructor]. split; [done|]. vm_compute. reflexivity. }
  assert (∀ (i : nat) r,
            guesses !! i = Some r →
            count entry + Z.of_nat i < LOGIN_RATE_LIMIT_MAX →
            foldedMatch normalizeClean lowerClean (Some "hunter2") r.2
            = false) as Hwrong.
  { intros i r Hi Hlt. unfold LOGIN_RATE_LIMIT_MAX in Hlt. simpl in Hlt.
    unfold guesses in Hi. rewrite lookup_app_l in Hi
      by (rewrite length_replicate; lia).
    apply lookup_replicate in Hi as [-> _]. vm_compute. reflexivity. }
  split; [reflexivity|]. split; [exact Hwin|]. split; [exact Hwrong|].
  exact (login_lockout normalizeClean lowerClean (Some "hunter2") guesses m
           false (Some "10.0.0.1") entry eq_refl Hwin Hwrong).
Defined.

Example locked_out_with_the_password :
  (logins (foldedMatch normalizeClean lowerClean (Some "hunter2")) guesses
     {["10.0.0.1" := {| count := 1; resetAt := 60000 |}]} false).1.1
  !! 9%nat
  = Some (TooManyAttempts 58).
Proof. vm_compute. reflexivity. Qed.

(** Twelve wrong guesses of an address the limiter does not know: ten at
    1000 ms, which open a window that ends at 61000 ms, one in the middle
    of the window and one in its last millisecond. *)
Definition hammering : list (Z * option string * option string) :=
  replicate 10 (1000, Some "10.0.0.1", Some "guess")
  ++ [(30500, Some "10.0.0.1", Some "guess");
      (60999, Some "10.0.0.1", Some "guess")].

Lemma retry_after_in_range_witness :
  inOrderFrom 0 hammering ∧
  (logins (foldedMatch normalizeClean lowerClean (Some "hunter2"))
     hammering ∅ false).1.1
  = replicate 10 IncorrectPassword ++ [TooManyAttempts 31; TooManyAttempts 1] ∧
  Forall retryAfterInRange
    (logins (foldedMatch normalizeClean lowerClean (Some "hunter2"))
       hammering ∅ false).1.1.
Proof.
  assert (inOrderFrom 0 hammering) as Hord
    by (vm_compute; intuition discriminate).
  split; [exact Hord|]. split; [vm_compute; reflexivity|].
  exact (retry_after_in_range normalizeClean lowerClean (Some "hunter2")
           0 hammering false Hord).
Defined.

End AuthProofs.

(** ** The login route that compares through [crypto.timingSafeEqual] *)
Module AuthTimingSafeProofs.
Import Auth AuthTimingSafe.

(** Stand-ins for the platform.  A string is held as the bytes of its
    UTF-8 encoding: [Buffer.from] gives those bytes, and the number of
    UTF-16 code units is one for each byte that begins a character and one
    more for each character of four bytes. *)
Definition normalizeClean (s : string) : string := s.
Definition utf8 (s : string) : list Z :=
  (λ c, Z.of_nat (Ascii.nat_of_ascii c)) <$> String.list_ascii_of_string s.
Definition codeUnits (s : string) : Z :=
  Z.of_nat
    (length (List.filter (λ b, (b <? 128) || (192 <=? b)) (utf8 s))
     + length (List.filter (λ b, 240 <=? b) (utf8 s))).

(** [cafe1], and the same word with an acute accent on the [e], which is
    one code unit and two bytes. *)
Definition cafe : string := "cafe1".
Definition cafeAccented : string :=
  String.append "caf"
    (String (Ascii.ascii_of_nat 195) (String (Ascii.ascii_of_nat 169) "1")).

Example accented_password_has_the_length_and_not_the_bytes :
  codeUnits cafeAccented = codeUnits cafe ∧
  length (utf8 cafeAccented) ≠ length (utf8 cafe).
Proof. vm_compute. split; [reflexivity|discriminate]. Qed.

(** The comparison throws on it, after the attempt has been counted. *)
Example accented_password_throws :
  login normalizeClean codeUnits utf8 (Some cafe) false 5000
    (Some "10.0.0.1") (Some cafeAccented)
    {["10.0.0.1" := {| count := 3; resetAt := 60000 |}]} false
  = (Thrown, {["10.0.0.1" := {| count := 4; resetAt := 60000 |}]}, false).
Proof. vm_compute. reflexivity. Qed.

(** A session that cannot be saved is answered 500 after the entry of the
    address has been deleted. *)
Example session_error_after_the_entry_is_deleted :
  login normalizeClean codeUnits utf8 (Some cafe) true 5000
    (Some "10.0.0.1") (Some cafe)
    {["10.0.0.1" := {| count := 3; resetAt := 60000 |}]} false
  = (SessionError, ∅, true).
Proof. vm_compute. reflexivity. Qed.

Section WithPlatform.
Context (normalizeSafeString : string → string)
        (length16 : string → Z) (Buffer_from : string → list Z)
        (APP_PASSWORD : option string).

#[local] Abbreviation passwordsMatch :=
  (passwordsMatch normalizeSafeString length16 Buffer_from APP_PASSWORD).
#[local] Abbreviation login :=
  (login normalizeSafeString length16 Buffer_from APP_PASSWORD).
#[local] Abbreviation logins :=
  (logins normalizeSafeString length16 Buffer_from APP_PASSWORD).

(** The password is accepted. *)
Definition accepted (password : option string) : bool :=
  match passwordsMatch password with
  | Some true => true
  | _ => false
  end.

(** How this handler ends, from how the handler of the other version
    would answer with [accepted] for its comparison. *)
Definition ending (saveFails : bool) (password : option string)
    (response : Response) : Outcome :=
  match response with
  | TooManyAttempts retryAfter => Answered (TooManyAttempts retryAfter)
  | LoggedIn => if saveFails then SessionError else Answered LoggedIn
  | IncorrectPassword =>
      match passwordsMatch password with
      | None => Thrown
      | Some _ => Answered IncorrectPassword
      end
  end.

(** The two handlers keep the limiter and the session flag alike. *)
Lemma login_ending saveFails now reqIp password (m : gmap string Entry) auth :
  login saveFails now reqIp password m auth
  = (ending saveFails password
       (Auth.login accepted now reqIp password m auth).1.1,
     (Auth.login accepted now reqIp password m auth).1.2,
     (Auth.login accepted now reqIp password m auth).2).
Proof.
  unfold AuthTimingSafe.login, Auth.login, ending, accepted. cbv zeta.
  destruct (m !! orElse reqIp "unknown") as [entry|]; simpl.
  - destruct (now <? resetAt entry); simpl.
    + destruct (LOGIN_RATE_LIMIT_MAX <? count entry + 1); simpl; [done|].
      by destruct (passwordsMatch password) as [[|]|].
    + by destruct (passwordsMatch password) as [[|]|].
  - by destruct (passwordsMatch password) as [[|]|].
Qed.

(** The requests arrive in order, none before [t]. *)
Fixpoint inOrderFrom (t : Z) (requests : list Attempt) : Prop :=
  match requests with
  | [] => True
  | r :: rest => t <= sentAt r ∧ inOrderFrom (sentAt r) rest
  end.

Lemma logins_live requests :
  ∀ t (m1 m2 : gmap string Entry),
  inOrderFrom t requests →
  AuthProofs.live t m1 = AuthProofs.live t m2 →
  (logins requests m1).1 = (logins requests m2).1.
Proof.
  induction requests as [|r requests IH]; intros t m1 m2 Hord Heq;
    simpl; [done|].
  simpl in Hord. destruct Hord as [Hle Hord].
  rewrite !login_ending.
  destruct (AuthProofs.login_live accepted (sentAt r) (fromIp r)
              (withPassword r) m1 m2 (sessionBefore r)
              (AuthProofs.live_later t (sentAt r) m1 m2 Hle Heq))
    as (Hr & Ha & Hl).
  rewrite Hr, Ha.
  specialize (IH (sentAt r) _ _ Hord Hl).
  destruct (logins requests _) as [outcomes1 m1'].
  destruct (logins requests _) as [outcomes2 m2'].
  simpl in *. by rewrite IH.
Qed.

(** X25. The periodic cleanup of the limiter cannot be observed.  The
    requests that arrive, in order, after a cleanup end as they would
    have ended without it, each with the same answer (or the same throw)
    and the same session flag, whatever passwords they bring and whether
    or not the store saves their sessions. *)
Theorem cleanup_not_observable now requests (m : gmap string Entry) :
  inOrderFrom now requests →
  (logins requests (cleanup now m)).1 = (logins requests m).1.
Proof.
  intros Hord. apply (logins_live requests now); [done|].
  by apply AuthProofs.live_cleanup.
Qed.

(** X29. While the window of an address is running, this route too looks
    at no more than [LOGIN_RATE_LIMIT_MAX] = 10 passwords for it, and a
    request on which [timingSafeEqual] throws is an attempt like any
    other.  Of consecutive requests of the address in the window, none of
    them with the password while the entry counts less than ten: those
    that find the count below ten are answered 401, or throw, and from
    then on every request is answered 429 with the seconds left, whatever
    its password; no session flag changes. *)
Theorem throwing_attempts_are_counted requests :
  ∀ (m : gmap string Entry) reqIp entry,
  m !! orElse reqIp "unknown" = Some entry →
  Forall (λ r, fromIp r = reqIp ∧ sentAt r < resetAt entry) requests →
  (∀ (i : nat) r,
     requests !! i = Some r →
     count entry + Z.of_nat i < LOGIN_RATE_LIMIT_MAX →
     passwordsMatch (withPassword r) ≠ Some true) →
  ∀ (i : nat) r,
    requests !! i = Some r →
    (logins requests m).1 !! i =
    Some (if count entry + Z.of_nat i <? LOGIN_RATE_LIMIT_MAX
          then match passwordsMatch (withPassword r) with
               | None => Thrown
               | Some _ => Answered IncorrectPassword
               end
          else Answered
                 (TooManyAttempts (ceilSeconds (resetAt entry - sentAt r))),
          sessionBefore r).
Proof.
  induction requests as [|r0 requests IH];
    intros m reqIp entry Hentry Hwin Hwrong i r Hi.
  { by rewrite lookup_nil in Hi. }
  apply Forall_cons in Hwin as [[Hip Hrun] Hwin]. subst reqIp.
  simpl. rewrite login_ending.
  rewrite (AuthProofs.login_running accepted (sentAt r0) (fromIp r0)
             (withPassword r0) m (sessionBefore r0) entry Hentry Hrun).
  cbv zeta.
  set (entry' := {| count := count entry + 1; resetAt := resetAt entry |}).
  set (m' := <[orElse (fromIp r0) "unknown" := entry']> m).
  assert (m' !! orElse (fromIp r0) "unknown" = Some entry') as Hentry'
    by apply lookup_insert_eq.
  assert ((if LOGIN_RATE_LIMIT_MAX <=? count entry
           then (TooManyAttempts (ceilSeconds (resetAt entry - sentAt r0)),
                 m', sessionBefore r0)
           else if accepted (withPassword r0)
                then (LoggedIn, delete (orElse (fromIp r0) "unknown") m', true)
                else (IncorrectPassword, m', sessionBefore r0))
          = (if count entry + 0 <? LOGIN_RATE_LIMIT_MAX
             then IncorrectPassword
             else TooManyAttempts (ceilSeconds (resetAt entry - sentAt r0)),
             m', sessionBefore r0)) as ->.
  { destruct (LOGIN_RATE_LIMIT_MAX <=? count entry) eqn:Hfull.
    - apply Z.leb_le in Hfull. by rewrite (proj2 (Z.ltb_ge _ _)) by lia.
    - apply Z.leb_gt in Hfull. rewrite (proj2 (Z.ltb_lt _ _)) by lia.
      pose proof (Hwrong 0%nat r0 eq_refl) as Hw. simpl in Hw.
      unfold accepted.
      destruct (passwordsMatch (withPassword r0)) as [[|]|]; try done.
      destruct Hw; [lia|done]. }
  simpl.
  specialize (IH m' (fromIp r0) entry' Hentry' Hwin).
  destruct (logins requests m') as [outcomes m''] eqn:Hrest.
  destruct i as [|i]; simpl in *.
  - injection Hi as <-. change (Z.of_nat 0) with 0. unfold ending.
    by destruct (count entry + 0 <? LOGIN_RATE_LIMIT_MAX).
  - rewrite (IH ltac:(intros j r' Hj Hlt; apply (Hwrong (S j) r' Hj);
                      simpl in Hlt; lia) i r Hi).
    by replace (count entry + 1 + Z.of_nat i)
      with (count entry + Z.pos (Pos.of_succ_nat i)) by lia.
Qed.

End WithPlatform.

(** Four requests after a cleanup at 500 ms of a limiter with a running
    and an expired entry: a wrong password, the accented one, on which
    the comparison throws, the password with a store that fails, and the
    password. *)
Definition afterCleanup : list Attempt :=
  [ {| sentAt := 1000; fromIp := Some "10.0.0.2";
       withPassword := Some "guess"; sessionBefore := false;
       storeFails := false |};
    {| sentAt := 1500; fromIp := Some "10.0.0.1";
       withPassword := Some cafeAccented; sessionBefore := false;
       storeFails := false |};
    {| sentAt := 2000; fromIp := Some "10.0.0.1";
       withPassword := Some cafe; sessionBefore := false;
       storeFails := true |};
    {| sentAt := 2500; fromIp := Some "10.0.0.2";
       withPassword := Some cafe; sessionBefore := false;
       storeFails := false |} ].

Definition beforeCleanup : gmap string Entry :=
  {["10.0.0.1" := {| count := 1; resetAt := 60000 |};
    "10.0.0.2" := {| count := 30; resetAt := 400 |}]}.

Lemma cleanup_not_observable_witness :
  inOrderFrom 500 afterCleanup ∧
  cleanup 500 beforeCleanup
  = {["10.0.0.1" := {| count := 1; resetAt := 60000 |}]} ∧
  (logins normalizeClean codeUnits utf8 (Some cafe) afterCleanup
     beforeCleanup).1
  = [(Answered IncorrectPassword, false); (Thrown, false);
     (SessionError, true); (Answered LoggedIn, true)] ∧
  (logins normalizeClean codeUnits utf8 (Some cafe) afterCleanup
     (cleanup 500 beforeCleanup)).1
  = (logins normalizeClean codeUnits utf8 (Some cafe) afterCleanup
       beforeCleanup).1.
Proof.
  assert (inOrderFrom 500 afterCleanup) as Hord
    by (vm_compute; intuition discriminate).
  split; [exact Hord|]. split; [vm_compute; reflexivity|].
  split; [vm_compute; reflexivity|].
  exact (cleanup_not_observable normalizeClean codeUnits utf8 (Some cafe)
           500 afterCleanup beforeCleanup Hord).
Defined.

(** An address that has made eight attempts sends the accented password
    three times and then the password: two throws, then 429 twice. *)
Definition throwing : list Attempt :=
  replicate 3 {| sentAt := 1000; fromIp := Some "10.0.0.1";
                 withPassword := Some cafeAccented; sessionBefore := false;
                 storeFails := false |}
  ++ [ {| sentAt := 2000; fromIp := Some "10.0.0.1";
          withPassword := Some cafe; sessionBefore := false;
          storeFails := false |} ].

Lemma throwing_attempts_are_counted_witness :
  let m : gmap string Entry :=
    {["10.0.0.1" := {| count := 8; resetAt := 60000 |}]} in
  let entry := {| count := 8; resetAt := 60000 |} in
  m !! orElse (Some "10.0.0.1") "unknown" = Some entry ∧
  Forall (λ r, fromIp r = Some "10.0.0.1" ∧ sentAt r < resetAt entry)
    throwing ∧
  (∀ (i : nat) r,
     throwing !! i = Some r →
     count entry + Z.of_nat i < LOGIN_RATE_LIMIT_MAX →
     passwordsMatch normalizeClean codeUnits utf8 (Some cafe) (withPassword r)
     ≠ Some true) ∧
  (logins normalizeClean codeUnits utf8 (Some cafe) throwing m).1
  = [(Thrown, false); (Thrown, false);
     (Answered (TooManyAttempts 59), false);
     (Answered (TooManyAttempts 58), false)] ∧
  ∀ (i : nat) r,
    throwing !! i = Some r →
    (logins normalizeClean codeUnits utf8 (Some cafe) throwing m).1 !! i =
    Some (if count entry + Z.of_nat i <? LOGIN_RATE_LIMIT_MAX
          then match passwordsMatch normalizeClean codeUnits utf8 (Some cafe)
                       (withPassword r) with
               | None => Thrown
               | Some _ => Answered IncorrectPassword
               end
          else Answered
                 (TooManyAttempts (ceilSeconds (resetAt entry - sentAt r))),
          sessionBefore r).
Proof.
  intros m entry.
  assert (Forall (λ r, fromIp r = Some "10.0.0.1" ∧ sentAt r < resetAt entry)
            throwing) as Hwin.
  { apply Forall_app. split.
    - apply Forall_replicate. split; [done|]. vm_compute. reflexivity.
    - constructor; [|constructor]. split; [done|]. vm_compute. reflexivity. }
  assert (∀ (i : nat) r,
            throwing !! i = Some r →
            count entry + Z.of_nat i < LOGIN_RATE_LIMIT_MAX →
            passwordsMatch normalizeClean codeUnits utf8 (Some cafe)
              (withPassword r) ≠ Some true) as Hwrong.
  { intros i r Hi Hlt. unfold LOGIN_RATE_LIMIT_MAX in Hlt. simpl in Hlt.
    unfold throwing in Hi. rewrite lookup_app_l in Hi
      by (rewrite length_replicate; lia).
    apply lookup_replicate in Hi as [-> _]. vm_compute. discriminate. }
  split; [reflexivity|]. split; [exact Hwin|]. split; [exact Hwrong|].
  split; [vm_compute; reflexivity|].
  exact (throwing_attempts_are_counted normalizeClean codeUnits utf8
           (Some cafe) throwing m (Some "10.0.0.1") entry eq_refl Hwin
           Hwrong).
Defined.

End AuthTimingSafeProofs.

(** ** Broadcasts *)
Module BroadcastProofs.
Import Model Broadcast.

Definition seat (i z : string) (handle : nat) : Player :=
  {| id := i; username := i; zone := z; character := Some 1; ws := handle |}.

(** Three players, the second of whom has a connection that is closing. *)
Definition party : Room :=
  {| players := [seat "p1" "hub" 1; seat "p2" "hub" 2; seat "p3" "archive" 3];
     hostId := Some "p1"; started := true; zoneSessions := ∅ |}.
Definition secondClosing (handle : nat) : Z :=
  if bool_decide (handle = 2%nat) then 2 else 1.

Example room_broadcast_skips_sender_and_closed :
  broadcastToRoom secondClosing party "msg" (Some 1%nat) = [(3%nat, "msg")].
Proof. vm_compute. reflexivity. Qed.

Example zone_broadcast_without_exclusion :
  broadcastToZone secondClosing party "hub" "msg" None = [(1%nat, "msg")].
Proof. vm_compute. reflexivity. Qed.

Lemma filter_filter {A} (f g : A → bool) (l : list A) :
  List.filter f (List.filter g l) = List.filter (λ x, g x && f x) l.
Proof.
  induction l as [|x l IH]; simpl; [done|].
  destruct (g x); simpl; [|done]. destruct (f x); by rewrite IH.
Qed.

Lemma filter_split {A} (f : A → bool) (l : list A) :
  List.filter f l ++ List.filter (λ x, negb (f x)) l ≡ₚ l.
Proof.
  induction l as [|x l IH]; simpl; [done|].
  destruct (f x); simpl.
  - by rewrite IH.
  - by rewrite <- Permutation_middle, IH.
Qed.

Lemma filter_sublist {A} (f : A → bool) (l : list A) :
  List.filter f l `sublist_of` l.
Proof.
  induction l as [|x l IH]; simpl; [constructor|].
  destruct (f x); [by apply sublist_skip|by apply sublist_cons].
Qed.

(** The players of a list, taken zone by zone over zones that are all
    different and include every player's, are the players of the list. *)
Lemma by_zone_Permutation (zs : list string) :
  ∀ l : list Player,
  NoDup zs →
  (∀ p, p ∈ l → zone p ∈ zs) →
  concat ((λ z, List.filter (λ p, bool_decide (zone p = z)) l) <$> zs) ≡ₚ l.
Proof.
  induction zs as [|z zs IH]; intros l Hnd Hcover.
  - destruct l as [|p l]; [done|].
    specialize (Hcover p (list_elem_of_here _ _)). by apply elem_of_nil in Hcover.
  - apply NoDup_cons in Hnd as [Hz Hnd]. rewrite fmap_cons. cbn [concat].
    set (others := List.filter (λ p, negb (bool_decide (zone p = z))) l).
    assert ((λ z', List.filter (λ p, bool_decide (zone p = z')) l) <$> zs
            = (λ z', List.filter (λ p, bool_decide (zone p = z')) others) <$> zs)
      as ->.
    { apply list_fmap_ext. intros i z' Hz'.
      unfold others. rewrite filter_filter. apply filter_ext. intros p.
      destruct (decide (zone p = z')) as [<-|Hne].
      - rewrite bool_decide_eq_true_2 by done.
        rewrite bool_decide_eq_false_2; [done|].
        intros <-. apply Hz. by apply list_elem_of_lookup_2 in Hz'.
      - rewrite (bool_decide_eq_false_2 (zone p = z')) by done.
        by rewrite andb_false_r. }
    rewrite (IH others Hnd).
    + apply filter_split.
    + intros p Hp. apply list_elem_of_In, filter_In in Hp as [Hp Hnz].
      apply list_elem_of_In in Hp. apply negb_true_iff, bool_decide_eq_false in Hnz.
      specialize (Hcover p Hp). apply elem_of_cons in Hcover as [?|?]; done.
Qed.

Section WithSockets.
Context (readyState : nat → Z).

#[local] Abbreviation broadcastToZone := (broadcastToZone readyState).
#[local] Abbreviation broadcastToRoom := (broadcastToRoom readyState).

(** The roster entries a room broadcast reaches. *)
Definition reached (room : Room) (excludeWs : option nat) : list Player :=
  List.filter
    (λ player,
       negb (bool_decide (Some (ws player) = excludeWs))
       && bool_decide (readyState (ws player) = Lifecycle.OPEN))
    (players room).

Lemma broadcastToZone_reached room z payload excludeWs :
  broadcastToZone room z payload excludeWs
  = (λ player, (ws player, payload)) <$>
      List.filter (λ p, bool_decide (zone p = z)) (reached room excludeWs).
Proof.
  unfold Broadcast.broadcastToZone, reached. by rewrite filter_filter.
Qed.

(** X26. A room broadcast makes one [send] for each roster entry whose
    connection is open and is not the excluded one, in roster order and
    with the one payload; nothing is sent to the excluded connection or
    to a connection that is not open. *)
Theorem broadcastToRoom_recipients room payload excludeWs :
  broadcastToRoom room payload excludeWs
  = (λ player, (ws player, payload)) <$> reached room excludeWs ∧
  reached room excludeWs `sublist_of` players room ∧
  (∀ player, player ∈ reached room excludeWs ↔
             player ∈ players room ∧ Some (ws player) ≠ excludeWs ∧
             readyState (ws player) = Lifecycle.OPEN) ∧
  (∀ handle sent, (handle, sent) ∈ broadcastToRoom room payload excludeWs →
                  sent = payload ∧ Some handle ≠ excludeWs ∧
                  readyState handle = Lifecycle.OPEN).
Proof.
  assert (∀ player, player ∈ reached room excludeWs ↔
                    player ∈ players room ∧ Some (ws player) ≠ excludeWs ∧
                    readyState (ws player) = Lifecycle.OPEN) as Hreached.
  { intros player. unfold reached.
    rewrite list_elem_of_In, filter_In, andb_true_iff, negb_true_iff.
    rewrite bool_decide_eq_false, bool_decide_eq_true, list_elem_of_In.
    tauto. }
  split; [done|]. split; [|split; [done|]].
  - apply filter_sublist.
  - intros handle sent Hin. unfold Broadcast.broadcastToRoom in Hin.
    fold (reached room excludeWs) in Hin.
    apply list_elem_of_fmap in Hin as (player & [= -> ->] & Hp).
    apply Hreached in Hp as (_ & ? & ?). done.
Qed.

(** X27. A zone broadcast is the room broadcast of the zone's players: it
    makes the [send] calls that [broadcastToRoom] makes on the room
    reduced to the players of that zone. *)
Theorem broadcastToZone_is_room_broadcast_of_zone room z payload excludeWs :
  broadcastToZone room z payload excludeWs
  = broadcastToRoom
      {| players := List.filter (λ p, bool_decide (zone p = z)) (players room);
         hostId := hostId room; started := started room;
         zoneSessions := zoneSessions room |}
      payload excludeWs.
Proof.
  unfold Broadcast.broadcastToZone, Broadcast.broadcastToRoom. simpl.
  rewrite filter_filter. f_equal. apply filter_ext. intros p.
  destruct (bool_decide (zone p = z)); simpl; [|by rewrite andb_false_r].
  by rewrite andb_true_r.
Qed.

(** X28. Broadcasting zone by zone reaches the room.  Over zones that are
    all different and include the zone of every player, the [send] calls
    of the zone broadcasts are, up to their order, those of one room
    broadcast: nobody is reached twice and nobody is left out. *)
Theorem zone_broadcasts_cover_room room zs payload excludeWs :
  NoDup zs →
  (∀ p, p ∈ players room → zone p ∈ zs) →
  concat ((λ z, broadcastToZone room z payload excludeWs) <$> zs)
  ≡ₚ broadcastToRoom room payload excludeWs.
Proof.
  intros Hnd Hcover.
  assert ((λ z, broadcastToZone room z payload excludeWs) <$> zs
          = (fmap (λ player, (ws player, payload))) <$>
              ((λ z, List.filter (λ p, bool_decide (zone p = z))
                       (reached room excludeWs)) <$> zs)) as ->.
  { rewrite <- list_fmap_compose. apply list_fmap_ext. intros i z _.
    apply broadcastToZone_reached. }
  change (concat (fmap (M:=list) ?f <$> ?ls)) with (concat (map (map f) ls)).
  rewrite <- concat_map.
  unfold Broadcast.broadcastToRoom. fold (reached room excludeWs).
  apply fmap_Permutation, by_zone_Permutation; [done|].
  intros p Hp. apply Hcover. unfold reached in Hp.
  by apply list_elem_of_In, filter_In in Hp as [Hp%list_elem_of_In _].
Qed.

End WithSockets.

(** The party, zone by zone. *)
Lemma zone_broadcasts_cover_room_witness :
  NoDup ["hub"; "archive"] ∧
  (∀ p, p ∈ players party → zone p ∈ ["hub"; "archive"]) ∧
  concat ((λ z, broadcastToZone secondClosing party z "msg" (Some 1%nat))
            <$> ["hub"; "archive"])
  ≡ₚ broadcastToRoom secondClosing party "msg" (Some 1%nat).
Proof.
  assert (NoDup ["hub"; "archive"]) as Hnd.
  { exact (bool_decide_unpack (NoDup ["hub"; "archive"]) I). }
  assert (∀ p, p ∈ players party → zone p ∈ ["hub"; "archive"]) as Hcover.
  { intros p Hp. simpl in Hp.
    repeat (apply elem_of_cons in Hp as [->|Hp];
            [simpl; rewrite !elem_of_cons; tauto|]).
    by apply elem_of_nil in Hp. }
  split; [exact Hnd|]. split; [exact Hcover|].
  exact (zone_broadcasts_cover_room secondClosing party ["hub"; "archive"]
           "msg" (Some 1%nat) Hnd Hcover).
Defined.

End BroadcastProofs.
